(** * The session gateway of [src/http.ts] and the Pokemon code

    The second part of the definitions embeds what [utils/pokemon.ts]
    and [tools/pokemon-battle.ts] compute once the network has answered.
    The first part is a shallow embedding of [createMcpHttpServer]: the registry of
    transports (a JavaScript [Map]), the request listener with its
    [try]/[catch], the three legs of [handleMcpRequest] separated by its
    [await]s, [parseBody], [sendJson], [start] and [stop].

    The asynchronous code is cut at its [await]s.  Every exchange keeps a
    program counter saying at which [await] it is suspended, and one event
    of the run loop resumes one exchange, so that exchanges interleave the
    way they do on Node's single-threaded loop.

    What the gateway calls but does not define is the environment:
    - [JSON.parse] is a parameter of the development; a chunk of a
      request body is a [Buffer], which [body += chunk] decodes by
      itself;
    - the URL parser behind [new URL] is a parameter too, and an event
      [EvRequest] is a request whose target it has parsed;
    - the transport of the SDK ([StreamableHTTPServerTransport]) is
      driven by events ([EvSessionInit], [EvWriteHead], [EvHandled],
      [EvClosed]) that are enabled as the channel contract allows: a
      channel announces its id at most once, while it is open and while it
      handles a POST, the id comes from [randomUUID] and is never empty
      and never repeated, and a channel fires [onclose] at most once. *)

From Stdlib Require Import ZArith Lia Ascii String.
From stdpp Require Import base list strings pretty.

Local Open Scope string_scope.
Local Open Scope list_scope.
Local Open Scope nat_scope.
Set Warnings "-register-all".

(** ** JSON values written by the gateway, and [JSON.stringify] *)

Module JSON.

Inductive value :=
| Null
| Num (z : Z)
| Str (s : string)
| Obj (fields : list (string * value)).

Definition dquote : string := String (ascii_of_nat 34) EmptyString.
Definition backslash : string := String (ascii_of_nat 92) EmptyString.

Definition hex_digit (n : nat) : string :=
  String (ascii_of_nat (if Nat.ltb n 10 then 48 + n else 87 + n)) EmptyString.

(** The escapes of [QuoteJSONString]. *)
Definition escape_char (c : ascii) : string :=
  let n := nat_of_ascii c in
  if Nat.eqb n 34 then backslash +:+ dquote
  else if Nat.eqb n 92 then backslash +:+ backslash
  else if Nat.eqb n 8 then backslash +:+ "b"
  else if Nat.eqb n 9 then backslash +:+ "t"
  else if Nat.eqb n 10 then backslash +:+ "n"
  else if Nat.eqb n 12 then backslash +:+ "f"
  else if Nat.eqb n 13 then backslash +:+ "r"
  else if Nat.ltb n 32
       then backslash +:+ "u00" +:+ hex_digit (n / 16) +:+ hex_digit (n mod 16)
  else String c EmptyString.

Fixpoint escape (s : string) : string :=
  match s with
  | EmptyString => EmptyString
  | String c s' => escape_char c +:+ escape s'
  end.

Definition quote (s : string) : string := dquote +:+ escape s +:+ dquote.

Fixpoint stringify (v : value) : string :=
  match v with
  | Null => "null"
  | Num z => pretty z
  | Str s => quote s
  | Obj fields =>
      let fix members (fs : list (string * value)) : string :=
        match fs with
        | [] => ""
        | [(k, x)] => quote k +:+ ":" +:+ stringify x
        | (k, x) :: fs' => quote k +:+ ":" +:+ stringify x +:+ "," +:+ members fs'
        end in
      "{" +:+ members fields +:+ "}"
  end.

End JSON.

(** ** A JavaScript [Map] with string keys

    [MapData] as ECMAScript has it: a list of entries in insertion
    order, where [delete] empties the entry in place (so that a running
    iterator keeps its position) and [set] on a new key appends. *)

Module JSMap.
Section JSMap.
Context {V : Type}.

Definition t := list (option (string * V)).

Definition empty : t := [].

Fixpoint get (k : string) (m : t) : option V :=
  match m with
  | [] => None
  | Some (k', v) :: m' => if decide (k' = k) then Some v else get k m'
  | None :: m' => get k m'
  end.

Definition has (k : string) (m : t) : bool :=
  match get k m with Some _ => true | None => false end.

Fixpoint set (k : string) (v : V) (m : t) : t :=
  match m with
  | [] => [Some (k, v)]
  | Some (k', v') :: m' =>
      if decide (k' = k) then Some (k, v) :: m' else Some (k', v') :: set k v m'
  | None :: m' => None :: set k v m'
  end.

Fixpoint delete (k : string) (m : t) : t :=
  match m with
  | [] => []
  | Some (k', v') :: m' =>
      if decide (k' = k) then None :: m' else Some (k', v') :: delete k m'
  | None :: m' => None :: delete k m'
  end.

(** The live entries, in iteration order. *)
Definition entries (m : t) : list (string * V) := omap id m.
Definition keys (m : t) : list string := (entries m).*1.
Definition values (m : t) : list V := (entries m).*2.

(** [next i m]: the iterator standing at index [i] skips emptied
    entries; it yields the first live value at or after [i] together
    with the index behind it, or [None] when it is exhausted. *)
Fixpoint skip (i : nat) (rest : list (option (string * V))) : option (V * nat) :=
  match rest with
  | [] => None
  | Some (_, v) :: _ => Some (v, S i)
  | None :: rest' => skip (S i) rest'
  end.

Definition next (i : nat) (m : t) : option (V * nat) := skip i (drop i m).
End JSMap.
Global Arguments t : clear implicits.
End JSMap.

(** ** [ServerResponse] and [sendJson] *)

Record ServerResponse := mkResponse {
  headersSent : bool;
  statusCode : option Z;
  contentType : option string;
  payload : option string;     (* what [res.end] was given *)
}.

Definition freshResponse : ServerResponse := mkResponse false None None None.

(** [res.writeHead(status, { "Content-Type": ... })] stores the header
    block, after which [res.headersSent] is true. *)
Definition writeHead (status : Z) (ctype : option string) (res : ServerResponse)
  : ServerResponse :=
  mkResponse true (Some status) ctype (payload res).

Definition endWith (data : string) (res : ServerResponse) : ServerResponse :=
  mkResponse (headersSent res) (statusCode res) (contentType res) (Some data).

(** Lines 40-43.  The gateway calls it only on a response whose header
    block is still unsent. *)
Definition sendJson (res : ServerResponse) (status : Z) (data : JSON.value)
  : ServerResponse :=
  endWith (JSON.stringify data) (writeHead status (Some "application/json") res).

(** The envelope literal of lines 77-81, 88-92 and 105-109. *)
Definition envelope (code : Z) (message : string) : JSON.value :=
  JSON.Obj [("jsonrpc", JSON.Str "2.0");
            ("error", JSON.Obj [("code", JSON.Num code); ("message", JSON.Str message)]);
            ("id", JSON.Null)].

Definition notFound : JSON.value := JSON.Obj [("error", JSON.Str "Not found")].

(** ** Buffers and how [+=] decodes them

    Without [setEncoding] a request emits [Buffer] chunks.  Line 28
    appends a chunk to a string, which converts it with [toString()]:
    the bytes of that chunk alone are decoded as UTF-8, and every byte
    sequence that is not the encoding of a character is replaced by
    U+FFFD, as the decoder of the Encoding Standard does.

    A buffer is written as the string of its bytes, and the text that
    comes out of the decoder as its UTF-8 bytes, so that decoding well
    formed bytes returns them as they are. *)

Module Buffer.

Definition t := string.

(** U+FFFD in UTF-8. *)
Definition replacement : string :=
  String (ascii_of_nat 239) (String (ascii_of_nat 191) (String (ascii_of_nat 189) EmptyString)).

(** A character under way: the bytes read so far, how many are still
    to come, and the range the next one has to be in. *)
Record Partial := mkPartial {
  seen : string;
  needed : nat;
  lower : nat;
  upper : nat;
}.

Inductive First :=
| Emit (out : string)
| Begin (p : Partial).

(** A byte read when no character is under way. *)
Definition first (b : ascii) : First :=
  let n := nat_of_ascii b in
  if n <? 128 then Emit (String b EmptyString)
  else if (194 <=? n) && (n <=? 223) then
    Begin (mkPartial (String b EmptyString) 1 128 191)
  else if (224 <=? n) && (n <=? 239) then
    Begin (mkPartial (String b EmptyString) 2
             (if n =? 224 then 160 else 128) (if n =? 237 then 159 else 191))
  else if (240 <=? n) && (n <=? 244) then
    Begin (mkPartial (String b EmptyString) 3
             (if n =? 240 then 144 else 128) (if n =? 244 then 143 else 191))
  else Emit replacement.

Fixpoint decode (st : option Partial) (s : t) : string :=
  match s with
  | EmptyString =>
      match st with
      | Some _ => replacement
      | None => EmptyString
      end
  | String b s' =>
      let afresh :=
        match first b with
        | Emit out => out +:+ decode None s'
        | Begin p => decode (Some p) s'
        end in
      match st with
      | None => afresh
      | Some p =>
          let n := nat_of_ascii b in
          if (lower p <=? n) && (n <=? upper p) then
            match needed p with
            | S (S k) =>
                decode (Some (mkPartial (seen p +:+ String b EmptyString) (S k) 128 191)) s'
            | _ => seen p +:+ String b (decode None s')
            end
          else replacement +:+ afresh
      end
  end.

(** The character under way, if any, once all of [s] has been read. *)
Fixpoint ending (st : option Partial) (s : t) : option Partial :=
  match s with
  | EmptyString => st
  | String b s' =>
      let afresh :=
        match first b with
        | Emit _ => ending None s'
        | Begin p => ending (Some p) s'
        end in
      match st with
      | None => afresh
      | Some p =>
          let n := nat_of_ascii b in
          if (lower p <=? n) && (n <=? upper p) then
            match needed p with
            | S (S k) =>
                ending (Some (mkPartial (seen p +:+ String b EmptyString) (S k) 128 191)) s'
            | _ => ending None s'
            end
          else afresh
      end
  end.

(** The buffer does not end inside a character. *)
Definition complete (chunk : t) : bool :=
  match ending None chunk with
  | Some _ => false
  | None => true
  end.

(** [chunk.toString()]. *)
Definition toString (chunk : t) : string := decode None chunk.

(** The buffer of the given bytes. *)
Definition of_bytes (l : list nat) : t :=
  foldr (λ n s, String (ascii_of_nat n) s) EmptyString l.
End Buffer.

(** ** The state of one gateway *)

(** A [StreamableHTTPServerTransport] object on the heap.  [sessionId]
    is the transport's own field, set by the transport when it draws an
    id; [closed] records that its [onclose] has fired; [server] is the
    engine instance the factory returned for it. *)
Record Transport := mkTransport {
  sessionId : option string;
  closed : bool;
  server : nat;
}.

(** Where an exchange is suspended inside [handleMcpRequest]. *)
Inductive PC :=
| AwaitConnect (t : nat)                 (* line 70 *)
| AwaitBody (t : nat) (body : string)    (* line 73, inside [parseBody] *)
| AwaitHandle (t : nat)                  (* line 74 or line 86 *)
| Finished.

Record Exchange := mkExchange {
  method : string;
  pc : PC;
  res : ServerResponse;
}.

Inductive Listener := Idle | Listening | Closed.

Inductive Promise := Pending | Fulfilled | Rejected.

Section Gateway.

(** The payload type of the protocol and [JSON.parse]; [None] is a
    [SyntaxError]. *)
Context {Value : Type}.
Variable JSON_parse : string -> option Value.

(** [McpHttpServerOptions], without the factory: a call of the factory
    is the action [CreateServer] below. *)
Variable opt_port : option Z.
Variable opt_path : option string.

(** Line 22. *)
Definition port : Z := default 3000%Z opt_port.
Definition path : string := default "/mcp" opt_path.

(** What the gateway does to its collaborators, in order.  A
    [HandleRequest] carries the third argument of [handleRequest];
    [None] is [undefined]. *)
Inductive Action :=
| CreateServer (e : nat)
| NewTransport (t : nat)
| Connect (e t : nat)
| HandleRequest (t r : nat) (body : option Value)
| Close (t : nat)
| Listen (p : Z)
| ListenerClose
| Resolve (what : string)
| UncaughtError (what : string)
| Log (msg : string)
| LogError (msg : string).

Record Gateway := mkGateway {
  transports : JSMap.t nat;       (* line 23: session id to transport *)
  heap : list Transport;          (* the transports, by reference *)
  servers : nat;                  (* engine instances made so far *)
  exchanges : list Exchange;
  listener : Listener;
  startP : option Promise;        (* the promise [start()] returned *)
  stopP : option Promise;         (* the promise [stop()] returned *)
  stopIter : nat;                 (* position of the iterator in [stop] *)
  trace : list Action;
}.

Definition initial : Gateway :=
  mkGateway JSMap.empty [] 0 [] Idle None None 0 [].

Definition set_transports (m : JSMap.t nat) (g : Gateway) : Gateway :=
  mkGateway m (heap g) (servers g) (exchanges g) (listener g)
            (startP g) (stopP g) (stopIter g) (trace g).
Definition set_heap (h : list Transport) (g : Gateway) : Gateway :=
  mkGateway (transports g) h (servers g) (exchanges g) (listener g)
            (startP g) (stopP g) (stopIter g) (trace g).
Definition set_servers (n : nat) (g : Gateway) : Gateway :=
  mkGateway (transports g) (heap g) n (exchanges g) (listener g)
            (startP g) (stopP g) (stopIter g) (trace g).
Definition set_exchanges (xs : list Exchange) (g : Gateway) : Gateway :=
  mkGateway (transports g) (heap g) (servers g) xs (listener g)
            (startP g) (stopP g) (stopIter g) (trace g).
Definition set_listener (l : Listener) (g : Gateway) : Gateway :=
  mkGateway (transports g) (heap g) (servers g) (exchanges g) l
            (startP g) (stopP g) (stopIter g) (trace g).
Definition set_startP (p : option Promise) (g : Gateway) : Gateway :=
  mkGateway (transports g) (heap g) (servers g) (exchanges g) (listener g)
            p (stopP g) (stopIter g) (trace g).
Definition set_stopP (p : option Promise) (g : Gateway) : Gateway :=
  mkGateway (transports g) (heap g) (servers g) (exchanges g) (listener g)
            (startP g) p (stopIter g) (trace g).
Definition set_stopIter (i : nat) (g : Gateway) : Gateway :=
  mkGateway (transports g) (heap g) (servers g) (exchanges g) (listener g)
            (startP g) (stopP g) i (trace g).
Definition emit (a : Action) (g : Gateway) : Gateway :=
  mkGateway (transports g) (heap g) (servers g) (exchanges g) (listener g)
            (startP g) (stopP g) (stopIter g) (trace g ++ [a]).

(** ** The two callbacks the gateway hands to a transport *)

(** Lines 57-60, for the transport at reference [t]. *)
Definition onsessioninitialized (t : nat) (id : string) (g : Gateway) : Gateway :=
  emit (Log ("Session initialized: " +:+ id))
       (set_transports (JSMap.set id t (transports g)) g).

(** JavaScript truthiness of a [string | undefined]. *)
Definition truthy (s : option string) : bool :=
  match s with
  | Some s => negb (String.eqb s "")
  | None => false
  end.

(** Lines 63-68, for the transport at reference [t]. *)
Definition onclose (t : nat) (g : Gateway) : Gateway :=
  match heap g !! t with
  | Some tr =>
      match sessionId tr with
      | Some id =>
          if truthy (Some id)
          then emit (Log ("Session closed: " +:+ id))
                    (set_transports (JSMap.delete id (transports g)) g)
          else g
      | None => g
      end
  | None => g
  end.

(** Modelled from the spec: the transport class is the SDK's and is not
    in the repository; section 4.4 has a channel invoke its closed
    callback exactly once, whenever closure occurs for any reason.  So
    the channel at [t] closing fires [onclose] if it has not fired yet,
    and a [close()] on a closed channel fires nothing. *)
Definition closeTransport (t : nat) (g : Gateway) : Gateway :=
  match heap g !! t with
  | Some tr =>
      if closed tr then g
      else onclose t (set_heap (<[t := mkTransport (sessionId tr) true (server tr)]> (heap g)) g)
  | None => g
  end.

(** ** [handleMcpRequest], leg by leg *)

(** How a leg of the handler leaves off: suspended at an [await],
    returned, or with an exception on its way to the [catch] of the
    request listener. *)
Inductive Completion :=
| Suspend (at_pc : PC)
| Return
| Throw.

(** [sessionId && transports.has(sessionId)], followed by
    [transports.get(sessionId)!] when it holds (lines 51-52, 76 and
    85). *)
Definition registered (sid : option string) (m : JSMap.t nat) : option nat :=
  match sid with
  | Some id =>
      if truthy sid && JSMap.has id m then JSMap.get id m else None
  | None => None
  end.

(** Lines 46-71 and 75-93: from the entry of the handler to its first
    [await] or to its return, for the exchange numbered [r]. *)
Definition handleMcpRequest (r : nat) (m : string) (sid : option string)
    (rs : ServerResponse) (g : Gateway) : Gateway * ServerResponse * Completion :=
  if String.eqb m "POST" then
    match registered sid (transports g) with
    | Some t => (g, rs, Suspend (AwaitBody t ""))
    | None =>
        let e := servers g in
        let t := length (heap g) in
        let g := emit (CreateServer e) (set_servers (S e) g) in
        let g := emit (NewTransport t)
                      (set_heap (heap g ++ [mkTransport None false e]) g) in
        let g := emit (Connect e t) g in
        (g, rs, Suspend (AwaitConnect t))
    end
  else if String.eqb m "GET" || String.eqb m "DELETE" then
    match registered sid (transports g) with
    | None =>
        (g, sendJson rs 400 (envelope (-32000) "Invalid or missing session ID"),
         Return)
    | Some t => (emit (HandleRequest t r None) g, rs, Suspend (AwaitHandle t))
    end
  else
    (g, sendJson rs 405 (envelope (-32000) "Method not allowed"), Return).

(** Lines 29-35: the end of the request stream.  [None] is the
    rejection of the promise, [Some None] is [undefined]. *)
Definition parseBody_end (body : string) : option (option Value) :=
  if String.eqb body "" then Some None
  else match JSON_parse body with
       | Some v => Some (Some v)
       | None => None
       end.

(** Lines 73-74, once the stream has ended. *)
Definition afterBody (r t : nat) (body : string) (g : Gateway)
  : Gateway * Completion :=
  match parseBody_end body with
  | Some b => (emit (HandleRequest t r b) g, Suspend (AwaitHandle t))
  | None => (g, Throw)
  end.

(** ** The request listener (lines 96-115) *)

(** The [catch] block, lines 102-111, as far as the response goes. *)
Definition onCatch (rs : ServerResponse) : ServerResponse :=
  if headersSent rs then rs
  else sendJson rs 500 (envelope (-32603) "Internal server error").

(** The [try]/[catch] around the handler: the exchange as it stands
    after a leg, and the gateway with the error logged if there was
    one. *)
Definition settle (m : string) (rs : ServerResponse) (c : Completion) (g : Gateway)
  : Exchange * Gateway :=
  match c with
  | Suspend k => (mkExchange m k rs, g)
  | Return => (mkExchange m Finished rs, g)
  | Throw =>
      (mkExchange m Finished (onCatch rs),
       emit (LogError "Error handling request:") g)
  end.

(** A new exchange enters the listener; it gets the next number. *)
Definition requestListener (pathname m : string) (sid : option string)
    (g : Gateway) : Gateway :=
  let r := length (exchanges g) in
  if String.eqb pathname path then
    let '(g1, rs, c) := handleMcpRequest r m sid freshResponse g in
    let '(x, g2) := settle m rs c g1 in
    set_exchanges (exchanges g2 ++ [x]) g2
  else
    set_exchanges
      (exchanges g ++ [mkExchange m Finished (sendJson freshResponse 404 notFound)]) g.

(** Line 97: [new URL(input, base).pathname], with [None] when the
    constructor throws.  The parser is the platform's. *)
Variable URL_pathname : string -> string -> option string.

(** [req.url || "/"]. *)
Definition requestTarget (url : option string) : string :=
  match url with
  | Some u => if String.eqb u "" then "/" else u
  | None => "/"
  end.

(** The second argument of [new URL] at line 97. *)
Definition urlBase : string := "http://localhost:" +:+ pretty port.

(** The whole callback of lines 96-115, from [req.url] on.  Line 97 is
    outside the [try]: when the target does not parse, the promise of
    the callback is rejected, nothing catches it and nothing is written
    to the response.  [requestListener] is the rest of the callback,
    for a target that parsed. *)
Definition onRequest (url : option string) (m : string) (sid : option string)
    (g : Gateway) : Gateway :=
  match URL_pathname (requestTarget url) urlBase with
  | Some pathname => requestListener pathname m sid g
  | None =>
      emit (UncaughtError "request")
           (set_exchanges (exchanges g ++ [mkExchange m Finished freshResponse]) g)
  end.

(** A suspended exchange is resumed by [leg], inside the same
    [try]/[catch]. *)
Definition resume (r : nat)
    (leg : Exchange -> option (Gateway * ServerResponse * Completion))
    (g : Gateway) : option Gateway :=
  match exchanges g !! r with
  | Some x =>
      match leg x with
      | Some (g1, rs, c) =>
          let '(x', g2) := settle (method x) rs c g1 in
          Some (set_exchanges (<[r := x']> (exchanges g2)) g2)
      | None => None
      end
  | None => None
  end.

(** ** [start] and [stop] (lines 119-132) *)

(** [listen] checks its port before anything else is done with it: a
    number that is not an integer from 0 to 65535 makes it throw.  The
    port of the options is taken as an integer. *)
Definition validPort (p : Z) : bool := (0 <=? p)%Z && (p <=? 65535)%Z.

(** [start()]: the executor takes [resolve] only and calls [listen].
    When [listen] throws, inside the executor, the promise is rejected.
    When the port is bound, the listening callback logs and resolves.
    When it cannot be bound, the server emits [error], for which the
    gateway registers no listener, and nothing settles the promise.
    This is the call on a server that is not listening, the one the
    run loop makes. *)
Definition start (bound : bool) (g : Gateway) : Gateway :=
  let g := emit (Listen port) (set_startP (Some Pending) g) in
  if negb (validPort port) then set_startP (Some Rejected) g
  else if bound then
    let g := set_listener Listening g in
    let g := emit (Log ("MCP server listening on http://localhost:"
                        +:+ pretty port +:+ path)) g in
    emit (Resolve "start") (set_startP (Some Fulfilled) g)
  else emit (UncaughtError "listen") g.

(** [httpServer.close()]: the listening socket stops accepting at
    once; connections that are open stay open. *)
Definition httpServer_close (g : Gateway) : Gateway :=
  emit ListenerClose
       (set_listener (match listener g with Listening => Closed | l => l end) g).

(** One turn of the loop of lines 128-130 and, when the iterator is
    exhausted, lines 131-132.  [transport.close()] fires [onclose]
    before the [await] suspends [stop]. *)
Definition stop_resume (g : Gateway) : Gateway :=
  match JSMap.next (stopIter g) (transports g) with
  | Some (t, i) => closeTransport t (emit (Close t) (set_stopIter i g))
  | None =>
      emit (Resolve "stop") (set_stopP (Some Fulfilled) (httpServer_close g))
  end.

(** The call of [stop()]: up to its first [await], or to its end. *)
Definition stop_begin (g : Gateway) : Gateway :=
  stop_resume
    (set_stopIter 0 (set_stopP (Some Pending) (emit (Log "Shutting down...") g))).

(** [stop()] run to completion with nothing else in between. *)
Fixpoint stop_loop (fuel : nat) (g : Gateway) : Gateway :=
  match fuel with
  | 0 => g
  | S fuel' =>
      match stopP g with
      | Some Pending => stop_loop fuel' (stop_resume g)
      | _ => g
      end
  end.

Definition stop (g : Gateway) : Gateway :=
  stop_loop (length (transports g)) (stop_begin g).

(** ** The run loop *)

Inductive Event :=
| EvStart (bound : bool)
| EvRequest (pathname m : string) (sid : option string)   (* its target parsed *)
| EvConnected (r : nat) (ok : bool)       (* [connect] settles *)
| EvData (r : nat) (chunk : Buffer.t)     (* [data] on the request *)
| EvEnd (r : nat)                         (* [end] on the request *)
| EvError (r : nat)                       (* [error] on the request *)
| EvSessionInit (r : nat) (id : string)   (* the transport draws its id *)
| EvWriteHead (r : nat) (status : Z)      (* the transport starts the response *)
| EvHandled (r : nat) (ok : bool)         (* [handleRequest] settles *)
| EvClosed (t : nat)                      (* the channel closes by itself *)
| EvStop
| EvStopResume.

(** [randomUUID], line 56, never returns an id it has returned
    before. *)
Definition fresh (id : string) (h : list Transport) : bool :=
  forallb (fun tr => negb (bool_decide (sessionId tr = Some id))) h.

(** Modelled from the spec: when the SDK's transport, which is not in
    the repository, may draw an id and invoke [onsessioninitialized].
    Section 4.4 has a channel invoke its established callback at most
    once, exactly when an id becomes known; section 3 has no insertion
    after the channel's closure.  So the transport [tr] of the exchange
    [x] announces [id] only while it handles a POST, has no id yet and
    is open; the id is the non-empty, fresh value of the generator. *)
Definition mayAnnounce (x : Exchange) (tr : Transport) (id : string)
    (h : list Transport) : bool :=
  String.eqb (method x) "POST"
  && bool_decide (sessionId tr = None) && negb (closed tr)
  && truthy (Some id) && fresh id h.

(** The exchange an event resumes, if it resumes one. *)
Definition target (ev : Event) : option nat :=
  match ev with
  | EvConnected r _ | EvData r _ | EvEnd r | EvError r
  | EvSessionInit r _ | EvWriteHead r _ | EvHandled r _ => Some r
  | _ => None
  end.

(** The leg of the handler that the event runs in the exchange [x]
    numbered [r]: the gateway after it, the response after it, and how
    the leg leaves off.  [None]: the event cannot occur now. *)
Definition leg (g : Gateway) (ev : Event) (r : nat) (x : Exchange)
  : option (Gateway * ServerResponse * Completion) :=
  match ev, pc x with
  | EvConnected _ ok, AwaitConnect t =>
      (* line 70 settles; line 73 calls [parseBody] *)
      Some (g, res x, if ok then Suspend (AwaitBody t "") else Throw)
  | EvData _ chunk, AwaitBody t body =>
      (* line 28: [body += chunk] *)
      Some (g, res x, Suspend (AwaitBody t (body +:+ Buffer.toString chunk)))
  | EvEnd _, AwaitBody t body =>
      (* lines 29-35, then lines 73-74 *)
      let '(g1, c) := afterBody r t body g in Some (g1, res x, c)
  | EvError _, AwaitBody t body =>
      (* line 36 *)
      Some (g, res x, Throw)
  | EvSessionInit _ id, AwaitHandle t =>
      (* inside [handleRequest]: line 56, then lines 57-60 *)
      match heap g !! t with
      | Some tr =>
          if mayAnnounce x tr id (heap g)
          then Some (onsessioninitialized t id
                       (set_heap (<[t := mkTransport (Some id) false (server tr)]>
                                    (heap g)) g),
                     res x, Suspend (AwaitHandle t))
          else None
      | None => None
      end
  | EvWriteHead _ status, AwaitHandle t =>
      if headersSent (res x) then None
      else Some (g, writeHead status None (res x), Suspend (AwaitHandle t))
  | EvHandled _ ok, AwaitHandle t =>
      (* line 74 or line 86 settles *)
      Some (g, res x, if ok then Return else Throw)
  | _, _ => None
  end.

Definition step (g : Gateway) (ev : Event) : option Gateway :=
  match ev with
  | EvStart bound =>
      match listener g, startP g with
      | Idle, None => Some (start bound g)
      | _, _ => None
      end
  | EvRequest pathname m sid =>
      match listener g with
      | Idle => None
      | _ => Some (requestListener pathname m sid g)
      end
  | EvClosed t =>
      match heap g !! t with
      | Some tr => if closed tr then None else Some (closeTransport t g)
      | None => None
      end
  | EvStop =>
      match stopP g with
      | None => Some (stop_begin g)
      | Some _ => None
      end
  | EvStopResume =>
      match stopP g with
      | Some Pending => Some (stop_resume g)
      | _ => None
      end
  | _ =>
      match target ev with
      | Some r => resume r (leg g ev r) g
      | None => None
      end
  end.

Fixpoint run (g : Gateway) (evs : list Event) : option Gateway :=
  match evs with
  | [] => Some g
  | ev :: evs' =>
      match step g ev with
      | Some g' => run g' evs'
      | None => None
      end
  end.

(** The states the gateway can be in. *)
Definition reachable (g : Gateway) : Prop := exists evs, run initial evs = Some g.

End Gateway.

(** * The Pokemon helpers ([utils/pokemon.ts])

    The functions that turn a PokeAPI response into the records the
    tool and the resources use.  [fetch] and [response.json()] are the
    environment: a function below takes the response it was given, with
    the JSON body already of the shape the code reads.  Numbers are kept
    abstract, with the [+] the code applies to them. *)

(** ** An ordinary JavaScript object with values of one type

    Own properties in creation order.  Assignment to an existing key
    keeps its place; assignment of a primitive to [__proto__] goes to the
    setter of [Object.prototype] and creates nothing.  [values] lists
    the values as [Object.values] does: array-index keys first, in
    ascending order, then the other keys in creation order.  [get] reads
    an own property; the names the code reads ([attack], [speed], ...)
    are not inherited from [Object.prototype]. *)

Module JSObject.
Section JSObject.
Context {V : Type}.

Definition t := list (string * V).

Definition empty : t := [].

Fixpoint get (k : string) (o : t) : option V :=
  match o with
  | [] => None
  | (k', v) :: o' => if decide (k' = k) then Some v else get k o'
  end.

Fixpoint put (k : string) (v : V) (o : t) : t :=
  match o with
  | [] => [(k, v)]
  | (k', v') :: o' => if decide (k' = k) then (k, v) :: o' else (k', v') :: put k v o'
  end.

Definition set (k : string) (v : V) (o : t) : t :=
  if String.eqb k "__proto__" then o else put k v o.

Definition digit (c : ascii) : option N :=
  let n := N_of_ascii c in
  if (48 <=? n)%N && (n <=? 57)%N then Some (n - 48)%N else None.

Fixpoint digits (acc : N) (s : string) : option N :=
  match s with
  | EmptyString => Some acc
  | String c s' =>
      match digit c with
      | Some d => digits (10 * acc + d)%N s'
      | None => None
      end
  end.

(** A key is an array index when it is the canonical decimal form of
    an integer below 2^32 - 1. *)
Definition array_index (k : string) : option N :=
  match k with
  | EmptyString => None
  | _ =>
      match digits 0 k with
      | Some n =>
          if String.eqb (pretty n) k && (n <? 4294967295)%N then Some n else None
      | None => None
      end
  end.

Definition indexed (o : t) : list (N * V) :=
  omap (λ kv, match array_index kv.1 with
              | Some n => Some (n, kv.2)
              | None => None
              end) o.

Definition named (o : t) : list (string * V) :=
  filter (λ kv, array_index kv.1 = None) o.

Fixpoint insert_by_index (x : N * V) (l : list (N * V)) : list (N * V) :=
  match l with
  | [] => [x]
  | y :: l' => if (x.1 <=? y.1)%N then x :: l else y :: insert_by_index x l'
  end.

Definition sort_by_index (l : list (N * V)) : list (N * V) :=
  foldr insert_by_index [] l.

Definition values (o : t) : list V :=
  (sort_by_index (indexed o)).*2 ++ (named o).*2.

Definition keys (o : t) : list string := o.*1.
End JSObject.
Global Arguments t : clear implicits.
End JSObject.

Module PokeApi.

Definition slash : ascii := ascii_of_nat 47.

(** [s.split("/")].  A string is a sequence of code units, of which
    the function only asks whether one is the slash. *)
Fixpoint split (s : string) : list string :=
  match s with
  | EmptyString => [EmptyString]
  | String c s' =>
      if Ascii.eqb c slash then EmptyString :: split s'
      else match split s' with
           | seg :: rest => String c seg :: rest
           | [] => [String c EmptyString]
           end
  end.

(** Line 100: [url.split("/").filter(Boolean).pop()]; [None] is
    [undefined]. *)
Definition lastSegment (url : string) : option string :=
  last (filter (λ seg, seg ≠ EmptyString) (split url)).

Record ListEntry := mkListEntry {
  entry_name : string;
  entry_url : string;
}.

Record PokemonListItem := mkListItem {
  item_name : string;
  item_id : option string;
}.

(** Lines 98-101, on the [results] of the response. *)
Definition listItems (results : list ListEntry) : list PokemonListItem :=
  map (λ p, mkListItem (entry_name p) (lastSegment (entry_url p))) results.

Section Numbers.
Context {Num : Type}.
Variable add : Num → Num → Num.
Variable zero : Num.

(** The parts of the response body that the code reads. *)
Record StatEntry := mkStat {
  stat_name : string;      (* [s.stat.name] *)
  base_stat : Num;
}.

Record Body := mkBody {
  body_id : Num;
  body_name : string;
  body_height : Num;
  body_weight : Num;
  body_types : list string;        (* [t.type.name] of each entry *)
  body_abilities : list string;    (* [a.ability.name] of each entry *)
  body_stats : list StatEntry;
  body_front_default : option string;
  body_back_default : option string;
}.

Record Response := mkApiResponse {
  ok : bool;
  body : Body;
}.

Record Pokemon := mkPokemon {
  id : Num;
  name : string;
  types : list string;
  stats : JSObject.t Num;
  totalStats : Num;
  sprite : option string;
}.

(** [PokemonDetails extends Pokemon]: one object with all the fields. *)
Record PokemonDetails := mkDetails {
  d_id : Num;
  d_name : string;
  d_types : list string;
  d_stats : JSObject.t Num;
  d_totalStats : Num;
  d_sprite : option string;
  height : Num;
  weight : Num;
  abilities : list string;
  sprites_front : option string;
  sprites_back : option string;
}.

(** A [PokemonDetails] read at the type [Pokemon]. *)
Definition asPokemon (d : PokemonDetails) : Pokemon :=
  mkPokemon (d_id d) (d_name d) (d_types d) (d_stats d) (d_totalStats d) (d_sprite d).

(** Lines 38-41 and 65-68: the [forEach] that fills [stats]. *)
Definition collectStats (l : list StatEntry) : JSObject.t Num :=
  foldl (λ o s, JSObject.set (stat_name s) (base_stat s) o) JSObject.empty l.

(** Lines 48 and 80: [Object.values(stats).reduce((a, b) => a + b, 0)]. *)
Definition total (o : JSObject.t Num) : Num :=
  foldl add zero (JSObject.values o).

(** Lines 31-51, from the response on; [None] is [null]. *)
Definition fetchPokemon (response : Response) : option Pokemon :=
  if negb (ok response) then None
  else
    let data := body response in
    let stats := collectStats (body_stats data) in
    Some (mkPokemon (body_id data) (body_name data) (body_types data)
                    stats (total stats) (body_front_default data)).

(** Lines 56-87, from the response on. *)
Definition fetchPokemonDetails (response : Response) : option PokemonDetails :=
  if negb (ok response) then None
  else
    let data := body response in
    let stats := collectStats (body_stats data) in
    Some (mkDetails (body_id data) (body_name data) (body_types data)
                    stats (total stats) (body_front_default data)
                    (body_height data) (body_weight data) (body_abilities data)
                    (body_front_default data) (body_back_default data)).
End Numbers.
End PokeApi.

(** * The battle tool ([tools/pokemon-battle.ts])

    The handler of the [pokemon-battle] tool, from the point where both
    [fetchPokemon] calls have returned.  The two scores are the values
    the two calls of [calculateBattleScore] return.  They are
    JavaScript numbers, that is doubles, and the handler compares and
    subtracts them with the operations of the language: these are the
    class [ScoreOps].  [toUpperCase] and the rendering of a number in a
    template literal are those of the language too and stay abstract. *)

Module Battle.
Import PokeApi.

(** What lines 56-60 and 87 do with numbers. *)
Class ScoreOps (Score : Type) := {
  js_gt : Score → Score → bool;          (* [a > b] *)
  js_lt : Score → Score → bool;          (* [a < b] *)
  js_sub : Score → Score → Score;        (* [a - b] *)
  Math_max : Score → Score → Score;
  Math_min : Score → Score → Score;
  Math_abs : Score → Score;
  fifty : Score;                         (* the literal [50] *)
}.

Section Battle.
Context {Num : Type}.
Context {Score : Type} `{!ScoreOps Score}.
Variable toUpperCase : string → string.
Variable show : option Num → string.      (* [`${x}`]; [None] is [undefined] *)

Local Abbreviation Pokemon := (@Pokemon Num).

Definition nl : string := String (ascii_of_nat 10) EmptyString.

(** [l.join(sep)] on an array of strings. *)
Definition join (sep : string) (l : list string) : string := String.concat sep l.

(** Lines 31 and 34. *)
Definition invalid (given : string) : string :=
  JSON.dquote +:+ given +:+ JSON.dquote +:+ " is not a valid Pokemon".

(** Lines 29-35. *)
Definition errors (pokemon1 pokemon2 : string) (fighter1 fighter2 : option Pokemon)
    : list string :=
  match fighter1 with Some _ => [] | None => [invalid pokemon1] end
    ++ match fighter2 with Some _ => [] | None => [invalid pokemon2] end.

Record Fighter := mkFighter {
  f_name : string;
  f_types : list string;
  f_stats : JSObject.t Num;
  f_totalStats : Num;
  f_battleScore : Score;
  f_sprite : option string;
}.

Record Result := mkResult {
  winner : string;
  loser : string;
  winnerScore : Score;
  loserScore : Score;
  margin : Score;
  wasClose : bool;
  victoryType : string;
}.

Record BattleReport := mkReport {
  fighter1 : Fighter;
  fighter2 : Fighter;
  result : Result;
}.

Inductive ToolResult :=
| Error (text : string)                              (* [isError: true] *)
| Report (report : BattleReport) (narrative : string)
| Throws.                                            (* a [TypeError] *)

(** Lines 65-72 and 73-80. *)
Definition fighter (p : Pokemon) (score : Score) : Fighter :=
  mkFighter (toUpperCase (name p)) (types p) (stats p) (totalStats p) score (sprite p).

(** Lines 102 and 103. *)
Definition keyStats (p : Pokemon) : string :=
  "- " +:+ name p +:+ ": Attack " +:+ show (JSObject.get "attack" (stats p))
    +:+ ", Sp.Atk " +:+ show (JSObject.get "special-attack" (stats p))
    +:+ ", Speed " +:+ show (JSObject.get "speed" (stats p)).

(** Lines 93-106. *)
Definition narrativePrompt (p1 p2 w : Pokemon) (close : bool) : string :=
  nl +:+ "---" +:+ nl
    +:+ "BATTLE COMPLETE! Please write an exciting 2-paragraph Pokemon battle story based on these results:"
    +:+ nl +:+ nl
    +:+ "**" +:+ toUpperCase (name p1) +:+ "** (" +:+ join "/" (types p1)
    +:+ ") vs **" +:+ toUpperCase (name p2) +:+ "** (" +:+ join "/" (types p2) +:+ ")"
    +:+ nl +:+ nl
    +:+ "Winner: **" +:+ toUpperCase (name w) +:+ "** with a "
    +:+ (if close then "narrow" else "decisive") +:+ " victory!"
    +:+ nl +:+ nl
    +:+ "Key stats to reference:" +:+ nl
    +:+ keyStats p1 +:+ nl
    +:+ keyStats p2 +:+ nl +:+ nl
    +:+ "Make it dramatic and reference their types and signature moves!" +:+ nl
    +:+ "---".

(** Lines 21-120, after the [await]. *)
Definition handler (pokemon1 pokemon2 : string) (fighter1 fighter2 : option Pokemon)
    (score1 score2 : Score) : ToolResult :=
  let errors := errors pokemon1 pokemon2 fighter1 fighter2 in
  if 0 <? length errors then
    Error ("Battle cannot proceed!" +:+ nl +:+ nl +:+ join nl errors +:+ nl +:+ nl
             +:+ "Please provide valid Pokemon names (e.g., pikachu, charizard, mewtwo).")
  else
    match fighter1, fighter2 with
    | Some pokemon1Data, Some pokemon2Data =>
        let winner := if js_gt score1 score2 then pokemon1Data else pokemon2Data in
        let loser := if js_gt score1 score2 then pokemon2Data else pokemon1Data in
        let winnerScore := Math_max score1 score2 in
        let loserScore := Math_min score1 score2 in
        let wasClose := js_lt (Math_abs (js_sub score1 score2)) fifty in
        Report
          (mkReport
             (fighter pokemon1Data score1)
             (fighter pokemon2Data score2)
             (mkResult (toUpperCase (name winner)) (toUpperCase (name loser))
                       winnerScore loserScore (js_sub winnerScore loserScore) wasClose
                       (if wasClose then "narrow victory" else "decisive victory")))
          (narrativePrompt pokemon1Data pokemon2Data winner wasClose)
    | _, _ => Throws
    end.

Definition resultOf (r : ToolResult) : option Result :=
  match r with
  | Report report _ => Some (result report)
  | _ => None
  end.
End Battle.

(** What the properties of the tool use of doubles.  Each law is one of
    IEEE 754 arithmetic and of [Math.max] and [Math.min]; equality is
    sameness of value, with one NaN.  [zero] is plus zero. *)
Class Doubles (Score : Type) `{!ScoreOps Score} := {
  nan : Score;
  zero : Score;
  is_finite : Score → bool;
  gt_max_min a b : js_gt a b = true → Math_max a b = a ∧ Math_min a b = b;
  gt_asym a b : js_gt a b = true → js_gt b a = false;
  max_comm a b : Math_max a b = Math_max b a;
  min_comm a b : Math_min a b = Math_min b a;
  max_idem a : Math_max a a = a;
  min_idem a : Math_min a a = a;
  min_max a b : js_gt (Math_min a b) (Math_max a b) = false;
  abs_sub a b : Math_abs (js_sub a b) = js_sub (Math_max a b) (Math_min a b);
  sub_self a : js_sub a a = if is_finite a then zero else nan;
  abs_zero : Math_abs zero = zero;
  abs_nan : Math_abs nan = nan;
  zero_lt_fifty : js_lt zero fifty = true;
  nan_lt a : js_lt nan a = false;
}.
End Battle.

(** ** The doubles that [Math.round] returns

    A score is NaN, an infinity, minus zero or a double that is an
    integer; [Int 0] is plus zero.  The operations are those of IEEE
    754 and of [Math.max] and [Math.min]; a difference is rounded to
    the nearest double, ties to even.  [Int z] stands for a double when
    [z] is one, and the operations take doubles to doubles. *)

Module Rounded.

Inductive t :=
| NaN
| PosInf
| NegInf
| NegZero
| Int (z : Z).

(** How two numbers compare; [None] when one of them is NaN. *)
Definition cmp (a b : t) : option comparison :=
  match a, b with
  | NaN, _ | _, NaN => None
  | PosInf, PosInf | NegInf, NegInf => Some Eq
  | PosInf, _ | _, NegInf => Some Gt
  | _, PosInf | NegInf, _ => Some Lt
  | NegZero, NegZero => Some Eq
  | NegZero, Int z => Some (0 ?= z)%Z
  | Int z, NegZero => Some (z ?= 0)%Z
  | Int z1, Int z2 => Some (z1 ?= z2)%Z
  end.

Definition gt (a b : t) : bool :=
  match cmp a b with Some Gt => true | _ => false end.

Definition lt (a b : t) : bool :=
  match cmp a b with Some Lt => true | _ => false end.

(** [Math.max]: NaN when an argument is, and plus zero above minus
    zero. *)
Definition max (a b : t) : t :=
  match cmp a b with
  | None => NaN
  | Some Gt => a
  | Some Lt => b
  | Some Eq => match a with NegZero => b | _ => a end
  end.

Definition min (a b : t) : t :=
  match cmp a b with
  | None => NaN
  | Some Gt => b
  | Some Lt => a
  | Some Eq => match a with NegZero => a | _ => b end
  end.

Definition abs (a : t) : t :=
  match a with
  | NaN => NaN
  | PosInf | NegInf => PosInf
  | NegZero => Int 0
  | Int z => Int (Z.abs z)
  end.

(** The double nearest to the integer [n > 0], ties to even; [None]
    when that is beyond the largest double. *)
Definition nearest (n : Z) : option Z :=
  let e := (Z.log2 n - 52)%Z in
  if (e <=? 0)%Z then Some n
  else
    let q := (n / 2 ^ e)%Z in
    let r := (n mod 2 ^ e)%Z in
    let half := (2 ^ (e - 1))%Z in
    let q' := if (r <? half)%Z then q
              else if (half <? r)%Z then (q + 1)%Z
              else if Z.even q then q else (q + 1)%Z in
    let m := (q' * 2 ^ e)%Z in
    if (m <? 2 ^ 1024)%Z then Some m else None.

(** The exact difference [d] as a double. *)
Definition rounded (d : Z) : t :=
  match nearest (Z.abs d) with
  | Some m => Int (Z.sgn d * m)
  | None => if (d <? 0)%Z then NegInf else PosInf
  end.

Definition sub (a b : t) : t :=
  match a, b with
  | NaN, _ | _, NaN => NaN
  | PosInf, PosInf | NegInf, NegInf => NaN
  | PosInf, _ | _, NegInf => PosInf
  | NegInf, _ | _, PosInf => NegInf
  | NegZero, NegZero => Int 0
  | NegZero, Int z => if (z =? 0)%Z then NegZero else rounded (- z)
  | Int z, NegZero => rounded z
  | Int z1, Int z2 => rounded (z1 - z2)
  end.

Definition is_finite (a : t) : bool :=
  match a with
  | NegZero | Int _ => true
  | _ => false
  end.

#[global] Instance ops : Battle.ScoreOps t :=
  {| Battle.js_gt := gt; Battle.js_lt := lt; Battle.js_sub := sub;
     Battle.Math_max := max; Battle.Math_min := min; Battle.Math_abs := abs;
     Battle.fifty := Int 50 |}.
End Rounded.

Global Arguments Gateway : clear implicits.
Global Arguments Action : clear implicits.

(** Wire text is written below with an apostrophe standing for the
    double quote. *)
Fixpoint wire (s : string) : string :=
  match s with
  | EmptyString => EmptyString
  | String c s' =>
      String (if Nat.eqb (nat_of_ascii c) 39 then ascii_of_nat 34 else c) (wire s')
  end.

(** A stand-in for [JSON.parse] over a payload type of two messages,
    and two small runs, used to exercise the statements below. *)
Definition demo_parse (s : string) : option nat :=
  if String.eqb s "{}" then Some 0
  else if String.eqb s "[]" then Some 1
  else None.

Abbreviation demo_step := (step demo_parse None None).
Abbreviation demo_run := (run demo_parse None None).

(** One session: started, created by a POST without header, given the
    id [u1]. *)
Definition one_session : list Event :=
  [EvStart true; EvRequest "/mcp" "POST" None; EvConnected 0 true;
   EvData 0 "{"; EvData 0 "}"; EvEnd 0; EvSessionInit 0 "u1"].

Definition after (evs : list Event) : Gateway nat :=
  default initial (demo_run initial evs).

(** ** Strings and buffers *)

Lemma append_empty s : EmptyString +:+ s = s.
Proof. reflexivity. Qed.

Lemma append_String c s1 s2 : String c s1 +:+ s2 = String c (s1 +:+ s2).
Proof. reflexivity. Qed.

Lemma append_empty_r s : s +:+ EmptyString = s.
Proof. induction s as [|c s IH]; [done|]. by rewrite append_String, IH. Qed.

Lemma append_assoc s1 s2 s3 : (s1 +:+ s2) +:+ s3 = s1 +:+ s2 +:+ s3.
Proof. induction s1 as [|c s1 IH]; [done|]. by rewrite !append_String, IH. Qed.

(** Decoding goes through a place where no character is under way. *)
Lemma decode_append (c1 c2 : Buffer.t) : ∀ st,
  Buffer.ending st c1 = None →
  Buffer.decode st (c1 +:+ c2) = Buffer.decode st c1 +:+ Buffer.decode None c2.
Proof.
induction c1 as [|b c1 IH]; intros st He.
- cbn in He. by subst.
- rewrite append_String. cbn [Buffer.decode Buffer.ending] in *.
  destruct st as [p|].
  + destruct (_ && _).
    * destruct (Buffer.needed p) as [|[|k]];
        rewrite ?append_String, ?append_assoc, ?(IH _ He); try done.
    * rewrite append_assoc. f_equal.
      destruct (Buffer.first b); by rewrite ?append_assoc, (IH _ He).
  + destruct (Buffer.first b); by rewrite ?append_assoc, (IH _ He).
Qed.

Lemma toString_append (c1 c2 : Buffer.t) :
  Buffer.complete c1 = true →
  Buffer.toString (c1 +:+ c2) = Buffer.toString c1 +:+ Buffer.toString c2.
Proof.
unfold Buffer.complete, Buffer.toString. intros Hc. apply decode_append.
by destruct (Buffer.ending None c1).
Qed.

(** ** The [Map] operations *)

Section JSMapFacts.
Context {V : Type}.
Implicit Types (m : JSMap.t V) (k : string) (v : V).

Lemma jsmap_get_set_eq k v m : JSMap.get k (JSMap.set k v m) = Some v.
Proof.
  induction m as [|[[k' v']|] m IH]; simpl.
  - by rewrite decide_True.
  - destruct (decide (k' = k)) as [->|Hne]; simpl.
    + by rewrite decide_True.
    + by rewrite decide_False.
  - done.
Qed.

Lemma jsmap_get_set_ne k k' v m :
  k ≠ k' → JSMap.get k' (JSMap.set k v m) = JSMap.get k' m.
Proof.
  intros Hne. induction m as [|[[k1 v1]|] m IH]; simpl.
  - by rewrite decide_False.
  - destruct (decide (k1 = k)) as [->|Hne1]; simpl.
    + by rewrite !decide_False.
    + by rewrite IH.
  - done.
Qed.

Lemma jsmap_get_delete_ne k k' m :
  k ≠ k' → JSMap.get k' (JSMap.delete k m) = JSMap.get k' m.
Proof.
  intros Hne. induction m as [|[[k1 v1]|] m IH]; simpl; try done.
  destruct (decide (k1 = k)) as [->|Hne1]; simpl.
  - by rewrite decide_False.
  - by rewrite IH.
Qed.

Lemma jsmap_get_None k m : JSMap.get k m = None ↔ k ∉ JSMap.keys m.
Proof.
  unfold JSMap.keys, JSMap.entries.
  induction m as [|[[k1 v1]|] m IH]; simpl.
  - split; [intros _; apply not_elem_of_nil|done].
  - rewrite not_elem_of_cons. destruct (decide (k1 = k)) as [->|Hne].
    + split; [done|]. intros [? _]; done.
    + rewrite IH. split; [intros ?; split; [congruence|done] | by intros [_ ?]].
  - done.
Qed.

Lemma jsmap_get_Some k v m :
  JSMap.get k m = Some v → (k, v) ∈ JSMap.entries m.
Proof.
  unfold JSMap.entries.
  induction m as [|[[k1 v1]|] m IH]; simpl; try done.
  destruct (decide (k1 = k)) as [->|Hne]; intros H.
  - simplify_eq. apply list_elem_of_here.
  - apply list_elem_of_further; auto.
Qed.

Lemma jsmap_entries_get k v m :
  NoDup (JSMap.keys m) → (k, v) ∈ JSMap.entries m → JSMap.get k m = Some v.
Proof.
  unfold JSMap.keys, JSMap.entries.
  induction m as [|[[k1 v1]|] m IH]; simpl.
  - intros _ H. by apply elem_of_nil in H.
  - rewrite NoDup_cons. intros [Hk Hnd] [Heq|Hin]%elem_of_cons.
    + simplify_eq. by rewrite decide_True.
    + destruct (decide (k1 = k)) as [->|Hne]; [|by apply IH].
      exfalso. apply Hk. apply list_elem_of_fmap. by exists (k, v).
  - done.
Qed.

Lemma jsmap_has_get k m : JSMap.has k m = true ↔ is_Some (JSMap.get k m).
Proof.
  unfold JSMap.has. destruct (JSMap.get k m); split; done.
Qed.

Lemma jsmap_keys_set_old k v m :
  k ∈ JSMap.keys m → JSMap.keys (JSMap.set k v m) = JSMap.keys m.
Proof.
  unfold JSMap.keys, JSMap.entries.
  induction m as [|[[k1 v1]|] m IH]; cbn.
  - by intros ?%elem_of_nil.
  - destruct (decide (k1 = k)) as [->|Hne]; cbn; [done|].
    intros [?|Hin]%elem_of_cons; [congruence|]. by rewrite IH.
  - done.
Qed.

Lemma jsmap_keys_set_new k v m :
  k ∉ JSMap.keys m → JSMap.keys (JSMap.set k v m) = JSMap.keys m ++ [k].
Proof.
  unfold JSMap.keys, JSMap.entries.
  induction m as [|[[k1 v1]|] m IH]; cbn.
  - done.
  - rewrite not_elem_of_cons. intros [Hne Hnin].
    rewrite decide_False by congruence. cbn. by rewrite IH.
  - done.
Qed.

Lemma jsmap_keys_set_NoDup k v m :
  NoDup (JSMap.keys m) → NoDup (JSMap.keys (JSMap.set k v m)).
Proof.
  intros Hnd. destruct (decide (k ∈ JSMap.keys m)) as [Hin|Hnin].
  - by rewrite jsmap_keys_set_old.
  - rewrite jsmap_keys_set_new by done.
    apply NoDup_app. split_and!; [done| |apply NoDup_singleton].
    intros x Hx Hx'%list_elem_of_singleton. by subst.
Qed.

Lemma jsmap_keys_delete_sub k k' m :
  k' ∈ JSMap.keys (JSMap.delete k m) → k' ∈ JSMap.keys m.
Proof.
  unfold JSMap.keys, JSMap.entries.
  induction m as [|[[k1 v1]|] m IH]; simpl; try done.
  destruct (decide (k1 = k)) as [->|Hne]; simpl.
  - apply list_elem_of_further.
  - rewrite !elem_of_cons. intros [?|?]; [by left|right; auto].
Qed.

Lemma jsmap_keys_delete_NoDup k m :
  NoDup (JSMap.keys m) → NoDup (JSMap.keys (JSMap.delete k m)).
Proof.
  unfold JSMap.keys, JSMap.entries.
  induction m as [|[[k1 v1]|] m IH]; simpl; try done.
  rewrite NoDup_cons. intros [Hk Hnd].
  destruct (decide (k1 = k)) as [->|Hne]; simpl; [done|].
  apply NoDup_cons. split; [|by apply IH].
  intros Hin. apply Hk. by eapply (jsmap_keys_delete_sub k).
Qed.

Lemma jsmap_get_delete_eq k m :
  NoDup (JSMap.keys m) → JSMap.get k (JSMap.delete k m) = None.
Proof.
  unfold JSMap.keys, JSMap.entries.
  induction m as [|[[k1 v1]|] m IH]; simpl; try done.
  rewrite NoDup_cons. intros [Hk Hnd].
  destruct (decide (k1 = k)) as [->|Hne]; simpl.
  - by apply jsmap_get_None.
  - rewrite decide_False; auto.
Qed.

Lemma jsmap_skip_entries i (rest : JSMap.t V) v i' :
  JSMap.skip i rest = Some (v, i') → ∃ k, (k, v) ∈ JSMap.entries rest.
Proof.
  unfold JSMap.entries. revert i.
  induction rest as [|[[k1 v1]|] rest IH]; intros i; cbn; try done.
  - intros [= <- <-]. exists k1. apply list_elem_of_here.
  - intros H. destruct (IH _ H) as [k Hk]. by exists k.
Qed.

Lemma jsmap_next_entries i m v i' :
  JSMap.next i m = Some (v, i') → ∃ k, (k, v) ∈ JSMap.entries m.
Proof.
  unfold JSMap.next. intros [k Hk]%jsmap_skip_entries. exists k.
  unfold JSMap.entries in *.
  apply list_elem_of_omap in Hk as (y & Hy & Hid).
  apply list_elem_of_omap. exists y. split; [|done].
  by eapply subseteq_drop.
Qed.

Lemma jsmap_length_delete k m : length (JSMap.delete k m) = length m.
Proof.
  induction m as [|[[k1 v1]|] m IH]; simpl; try done; [|by rewrite IH].
  destruct (decide (k1 = k)); simpl; by rewrite ?IH.
Qed.
End JSMapFacts.

(** ** The responses the gateway writes itself *)

Definition response400 : ServerResponse :=
  mkResponse true (Some 400%Z) (Some "application/json")
    (Some (wire "{'jsonrpc':'2.0','error':{'code':-32000,'message':'Invalid or missing session ID'},'id':null}")).

Definition response405 : ServerResponse :=
  mkResponse true (Some 405%Z) (Some "application/json")
    (Some (wire "{'jsonrpc':'2.0','error':{'code':-32000,'message':'Method not allowed'},'id':null}")).

Definition response500 : ServerResponse :=
  mkResponse true (Some 500%Z) (Some "application/json")
    (Some (wire "{'jsonrpc':'2.0','error':{'code':-32603,'message':'Internal server error'},'id':null}")).

Section Dispatch.
Context {Value : Type}.
Variable JSON_parse : string -> option Value.
Variable opt_port : option Z.
Variable opt_path : option string.

Local Abbreviation Gateway := (Gateway Value).
Local Abbreviation path := (path opt_path).
Local Abbreviation requestListener := (requestListener opt_path).
Local Abbreviation step := (step JSON_parse opt_port opt_path).
Local Abbreviation leg := (leg JSON_parse).
Local Abbreviation start := (start opt_port opt_path).

Lemma string_eqb_false (a b : string) : a ≠ b → String.eqb a b = false.
Proof. intros. by apply String.eqb_neq. Qed.

Lemma sendJson_fresh_400 :
  sendJson freshResponse 400 (envelope (-32000) "Invalid or missing session ID")
  = response400.
Proof. reflexivity. Qed.

Lemma sendJson_fresh_405 :
  sendJson freshResponse 405 (envelope (-32000) "Method not allowed") = response405.
Proof. reflexivity. Qed.

Lemma onCatch_unsent (rs : ServerResponse) :
  headersSent rs = false → onCatch rs = response500.
Proof. intros H. unfold onCatch. rewrite H. reflexivity. Qed.

Lemma registered_None (sid : option string) (m : JSMap.t nat) :
  (sid = None ∨ ∃ id, sid = Some id ∧ JSMap.get id m = None) →
  registered sid m = None.
Proof.
  intros [->|(id & -> & Hget)]; [done|].
  unfold registered, JSMap.has. rewrite Hget.
  by rewrite andb_false_r.
Qed.

(** C9.  A request to the configured path whose verb is none of POST,
    GET and DELETE is answered 405 with the envelope of code -32000 and
    message "Method not allowed"; the exchange is over, and nothing else
    in the gateway changes: the registry, the transports, the engine
    count and the trace of calls are those of before. *)
Theorem other_verb_rejected_405 (g : Gateway) (m : string) (sid : option string) :
  m ≠ "POST" → m ≠ "GET" → m ≠ "DELETE" →
  requestListener path m sid g
  = set_exchanges (exchanges g ++ [mkExchange m Finished response405]) g.
Proof.
  intros H1 H2 H3. unfold requestListener, handleMcpRequest.
  rewrite String.eqb_refl.
  rewrite !string_eqb_false by done. reflexivity.
Qed.

(** C8.  A GET or DELETE whose session header is absent, or names no
    key of the registry, is answered 400 with the envelope of code
    -32000 and message "Invalid or missing session ID", the same
    response in both cases; the exchange is over and nothing else in the
    gateway changes: no registry entry, no transport, no call. *)
Theorem unknown_session_rejected_400 (g : Gateway) (m : string) (sid : option string) :
  m = "GET" ∨ m = "DELETE" →
  (sid = None ∨ ∃ id, sid = Some id ∧ JSMap.get id (transports g) = None) →
  requestListener path m sid g
  = set_exchanges (exchanges g ++ [mkExchange m Finished response400]) g.
Proof.
  intros Hm Hsid. unfold requestListener, handleMcpRequest.
  rewrite String.eqb_refl.
  rewrite (registered_None _ _ Hsid).
  destruct Hm as [-> | ->]; reflexivity.
Qed.

(** C3.  A POST whose session header names no key of the registry is
    handled exactly as the POST without header: the two gateways after
    the request are equal, and in both a new engine instance and a new
    transport exist and the exchange waits for [connect] on that
    transport; no response has been written. *)
Theorem unknown_session_post_creates (g : Gateway) (id : string) :
  JSMap.get id (transports g) = None →
  requestListener path "POST" (Some id) g = requestListener path "POST" None g
  ∧ requestListener path "POST" (Some id) g
    = mkGateway (transports g)
        (heap g ++ [mkTransport None false (servers g)])
        (S (servers g))
        (exchanges g ++ [mkExchange "POST" (AwaitConnect (length (heap g))) freshResponse])
        (listener g) (startP g) (stopP g) (stopIter g)
        (trace g ++ [CreateServer (servers g); NewTransport (length (heap g));
                     Connect (servers g) (length (heap g))]).
Proof.
  intros Hget. unfold requestListener, handleMcpRequest.
  rewrite String.eqb_refl. cbn [String.eqb Ascii.eqb Bool.eqb].
  rewrite (registered_None (Some id)) by eauto.
  split; [done|].
  unfold set_exchanges, emit, set_heap, set_servers; cbn.
  by rewrite <- !app_assoc.
Qed.

(** C7.  When a leg of the handler of a matched-path exchange ends in
    an uncaught failure, the whole effect of that turn is: the error is
    logged, the exchange is over, and its response is the 500 with the
    envelope of code -32603 when no header had been sent, and is left as
    it was when the header had been sent. *)
Theorem uncaught_failure_500_iff_unsent (g g1 : Gateway) (ev : Event) (r : nat)
    (x : Exchange) (rs : ServerResponse) :
  target ev = Some r →
  exchanges g !! r = Some x →
  leg g ev r x = Some (g1, rs, Throw) →
  step g ev
  = Some (set_exchanges
            (<[r := mkExchange (method x) Finished
                      (if headersSent (res x) then res x else response500)]>
               (exchanges g))
            (emit (LogError "Error handling request:") g)).
Proof.
  intros Ht Hx Hleg.
  assert (g1 = g ∧ rs = res x) as [-> ->].
  { unfold leg, afterBody in Hleg.
    destruct ev, (pc x); simplify_eq; try done; repeat case_match; by simplify_eq. }
  destruct ev; cbn in Ht; simplify_eq; cbn [step target]; unfold resume;
    rewrite Hx, Hleg; cbn; unfold onCatch;
    by destruct (headersSent (res x)).
Qed.

(** The first leg of the handler does not fail. *)
Lemma handleMcpRequest_no_throw (g : Gateway) r m sid rs :
  (handleMcpRequest r m sid rs g).2 ≠ Throw.
Proof. unfold handleMcpRequest. by repeat case_match. Qed.

End Dispatch.

(** ** The registry and the transports it refers to *)

(** What ties the registry [m] to the heap [h] of transports. *)
Record store_ok (m : JSMap.t nat) (h : list Transport) : Prop := mkStoreOk {
  ok_keys : NoDup (JSMap.keys m);
  ok_registry : ∀ k t,
    JSMap.get k m = Some t
    ↔ ∃ tr, h !! t = Some tr ∧ sessionId tr = Some k ∧ closed tr = false;
  ok_nonempty : ∀ t tr, h !! t = Some tr → sessionId tr ≠ Some "";
  ok_unique : ∀ t1 t2 tr1 tr2 k,
    h !! t1 = Some tr1 → h !! t2 = Some tr2 →
    sessionId tr1 = Some k → sessionId tr2 = Some k → t1 = t2;
}.

(** The four things a turn of the run loop can do to the registry and
    the heap: nothing, allocate a transport without id, give a transport
    its id and register it, close a transport. *)
Inductive store_step (m : JSMap.t nat) (h : list Transport)
  : JSMap.t nat → list Transport → Prop :=
| store_same : store_step m h m h
| store_alloc e : store_step m h m (h ++ [mkTransport None false e])
| store_init t tr id :
    h !! t = Some tr → sessionId tr = None → closed tr = false →
    id ≠ "" → fresh id h = true →
    store_step m h (JSMap.set id t m)
               (<[t := mkTransport (Some id) false (server tr)]> h)
| store_close t tr :
    h !! t = Some tr → closed tr = false →
    store_step m h
               (match sessionId tr with
                | Some id => if truthy (Some id) then JSMap.delete id m else m
                | None => m
                end)
               (<[t := mkTransport (sessionId tr) true (server tr)]> h).

Lemma fresh_spec (id : string) (h : list Transport) :
  fresh id h = true ↔ ∀ t tr, h !! t = Some tr → sessionId tr ≠ Some id.
Proof.
  unfold fresh. rewrite forallb_forall. split.
  - intros H t tr Ht Hid.
    assert (In tr h) as Hin by (apply list_elem_of_In; by eapply list_elem_of_lookup_2).
    specialize (H tr Hin). rewrite bool_decide_eq_true_2 in H; done.
  - intros H tr Hin. apply list_elem_of_In, list_elem_of_lookup in Hin as [t Ht].
    apply negb_true_iff, bool_decide_eq_false. by eapply H.
Qed.

Lemma truthy_Some (id : string) : truthy (Some id) = true ↔ id ≠ "".
Proof.
  cbn. rewrite negb_true_iff. apply String.eqb_neq.
Qed.

Lemma store_ok_empty : store_ok JSMap.empty [].
Proof.
  split.
  - apply NoDup_nil_2.
  - intros k t. split; [done|]. by intros (tr & ? & _).
  - by intros t tr ?.
  - by intros t1 t2 tr1 tr2 k ?.
Qed.

Lemma store_ok_alloc m h e :
  store_ok m h → store_ok m (h ++ [mkTransport None false e]).
Proof.
  intros [Hk Hr Hn Hu].
  assert (∀ t tr k, (h ++ [mkTransport None false e]) !! t = Some tr →
                    sessionId tr = Some k → h !! t = Some tr) as Hold.
  { intros t tr k Ht Hid. apply lookup_app_Some in Ht as [Ht|[_ Ht]]; [done|].
    apply list_lookup_singleton_Some in Ht as [_ <-]. done. }
  split.
  - done.
  - intros k t. rewrite Hr. split.
    + intros (tr & Ht & Hid & Hc). exists tr. split_and!; try done.
      by apply lookup_app_l_Some.
    + intros (tr & Ht & Hid & Hc). exists tr. split_and!; try done. by eapply Hold.
  - intros t tr Ht Hid. eapply Hn; [|done]. by eapply Hold.
  - intros t1 t2 tr1 tr2 k H1 H2 Hid1 Hid2.
    eapply Hu; [by eapply Hold|by eapply Hold|done|done].
Qed.

Lemma store_ok_init m h t tr id :
  store_ok m h →
  h !! t = Some tr → sessionId tr = None → closed tr = false →
  id ≠ "" → fresh id h = true →
  store_ok (JSMap.set id t m) (<[t := mkTransport (Some id) false (server tr)]> h).
Proof.
  intros [Hk Hr Hn Hu] Ht Hnone Hopen Hid Hfresh.
  rewrite fresh_spec in Hfresh.
  assert (t < length h) as Hlt by by eapply lookup_lt_Some.
  split.
  - by apply jsmap_keys_set_NoDup.
  - intros k t'. destruct (decide (id = k)) as [<-|Hne].
    + rewrite jsmap_get_set_eq. split.
      * intros [= <-]. eexists. rewrite list_lookup_insert_eq by done. done.
      * intros (tr' & Ht' & Hid' & _). f_equal.
        destruct (decide (t = t')) as [|Hnet]; [done|].
        rewrite list_lookup_insert_ne in Ht' by done.
        by destruct (Hfresh _ _ Ht').
    + rewrite jsmap_get_set_ne by done. rewrite Hr.
      destruct (decide (t = t')) as [<-|Hnet].
      * split.
        -- intros (tr' & Ht' & Hid' & _). congruence.
        -- intros (tr' & Ht' & Hid' & _).
           rewrite list_lookup_insert_eq in Ht' by done. simplify_eq/=; congruence.
      * by rewrite list_lookup_insert_ne.
  - intros t' tr'. destruct (decide (t = t')) as [<-|Hnet].
    + rewrite list_lookup_insert_eq by done. intros [= <-]. cbn. congruence.
    + rewrite list_lookup_insert_ne by done. apply Hn.
  - intros t1 t2 tr1 tr2 k.
    destruct (decide (t = t1)) as [<-|Hne1], (decide (t = t2)) as [<-|Hne2];
      rewrite ?list_lookup_insert_eq, ?list_lookup_insert_ne by done; try done.
    + intros [= <-] H2 [= <-] Hid2. by destruct (Hfresh _ _ H2).
    + intros H1 [= <-] Hid1 [= <-]. by destruct (Hfresh _ _ H1).
    + apply Hu.
Qed.

Lemma store_ok_close m h t tr :
  store_ok m h →
  h !! t = Some tr → closed tr = false →
  store_ok (match sessionId tr with
            | Some id => if truthy (Some id) then JSMap.delete id m else m
            | None => m
            end)
           (<[t := mkTransport (sessionId tr) true (server tr)]> h).
Proof.
  intros [Hk Hr Hn Hu] Ht Hopen.
  assert (t < length h) as Hlt by by eapply lookup_lt_Some.
  assert (∀ t' tr', <[t := mkTransport (sessionId tr) true (server tr)]> h !! t' = Some tr' →
                    ∃ tr0, h !! t' = Some tr0 ∧ sessionId tr0 = sessionId tr'
                           ∧ (t' ≠ t → tr0 = tr')) as Hold.
  { intros t' tr'. destruct (decide (t = t')) as [<-|Hnet].
    - rewrite list_lookup_insert_eq by done. intros [= <-]. by exists tr.
    - rewrite list_lookup_insert_ne by done. intros. by exists tr'. }
  split.
  - destruct (sessionId tr) as [id|]; [|done].
    destruct (truthy (Some id)); [|done]. by apply jsmap_keys_delete_NoDup.
  - intros k t'.
    destruct (sessionId tr) as [id|] eqn:Hsid.
    + assert (id ≠ "") as Hid by (intros ->; by eapply Hn).
      apply truthy_Some in Hid. rewrite Hid.
      destruct (decide (id = k)) as [<-|Hne].
      * rewrite jsmap_get_delete_eq by done. split; [done|].
        intros (tr' & Ht' & Hid' & Hc').
        destruct (decide (t = t')) as [<-|Hnet].
        -- rewrite list_lookup_insert_eq in Ht' by done. by simplify_eq.
        -- rewrite list_lookup_insert_ne in Ht' by done.
           destruct Hnet. by eapply Hu.
      * rewrite jsmap_get_delete_ne by done. rewrite Hr.
        destruct (decide (t = t')) as [<-|Hnet].
        -- split.
           ++ intros (tr' & Ht' & Hid' & _). congruence.
           ++ intros (tr' & Ht' & Hid' & Hc').
              rewrite list_lookup_insert_eq in Ht' by done. by simplify_eq.
        -- by rewrite list_lookup_insert_ne.
    + rewrite Hr. destruct (decide (t = t')) as [<-|Hnet].
      * split.
        -- intros (tr' & Ht' & Hid' & _). congruence.
        -- intros (tr' & Ht' & Hid' & Hc').
           rewrite list_lookup_insert_eq in Ht' by done. by simplify_eq.
      * by rewrite list_lookup_insert_ne.
  - intros t' tr' Ht' Hid'. apply Hold in Ht' as (tr0 & Ht0 & Heq & _).
    eapply Hn; [done|]. congruence.
  - intros t1 t2 tr1 tr2 k H1 H2 Hid1 Hid2.
    apply Hold in H1 as (tr1' & H1 & Heq1 & _).
    apply Hold in H2 as (tr2' & H2 & Heq2 & _).
    eapply (Hu _ _ _ _ k); [done|done|congruence|congruence].
Qed.

Lemma store_step_ok m h m' h' :
  store_ok m h → store_step m h m' h' → store_ok m' h'.
Proof.
  intros Hok [].
  - done.
  - by apply store_ok_alloc.
  - by apply store_ok_init.
  - by apply store_ok_close.
Qed.

(** ** The shape of a turn of the run loop *)

Definition pc_transport (k : PC) : option nat :=
  match k with
  | AwaitConnect t | AwaitBody t _ | AwaitHandle t => Some t
  | Finished => None
  end.

(** How the program counter of an exchange moves when it is resumed. *)
Inductive pc_next : PC → PC → Prop :=
| next_connected t : pc_next (AwaitConnect t) (AwaitBody t "")
| next_data t b b' : pc_next (AwaitBody t b) (AwaitBody t b')
| next_body t b : pc_next (AwaitBody t b) (AwaitHandle t)
| next_handle t : pc_next (AwaitHandle t) (AwaitHandle t)
| next_finished k : k ≠ Finished → pc_next k Finished.

Section Shape.
Context {Value : Type}.
Variable JSON_parse : string -> option Value.
Variable opt_port : option Z.
Variable opt_path : option string.

Local Abbreviation Gateway := (Gateway Value).
Local Abbreviation Action := (Action Value).
Local Abbreviation step := (step JSON_parse opt_port opt_path).
Local Abbreviation run := (run JSON_parse opt_port opt_path).
Local Abbreviation reachable := (reachable JSON_parse opt_port opt_path).
Local Abbreviation requestListener := (requestListener opt_path).
Local Abbreviation leg := (leg JSON_parse).

(** An action that is no call into a transport. *)
Definition quiet (a : Action) : Prop :=
  match a with
  | Close _ | HandleRequest _ _ _ => False
  | _ => True
  end.

(** The events that are no turn of an exchange. *)
Definition control (ev : @Event) : Prop :=
  match ev with
  | EvStart _ | EvClosed _ | EvStop | EvStopResume => True
  | _ => False
  end.

(** A turn seen field by field.  Each rule says what the turn does to
    the registry, the heap, the engine count, the exchanges and the
    trace; the promises, the listener and the iterator of [stop] are
    left out. *)
Inductive Shape (g : Gateway) : Event → Gateway → Prop :=
| shape_quiet ev g' l :
    control ev →
    transports g' = transports g → heap g' = heap g →
    servers g' = servers g → exchanges g' = exchanges g →
    trace g' = trace g ++ l → Forall quiet l →
    Shape g ev g'
| shape_arrive_done pathname m sid rs g' :
    transports g' = transports g → heap g' = heap g →
    servers g' = servers g →
    exchanges g' = exchanges g ++ [mkExchange m Finished rs] →
    trace g' = trace g →
    Shape g (EvRequest pathname m sid) g'
| shape_arrive_reuse pathname m id t k g' l :
    JSMap.get id (transports g) = Some t →
    transports g' = transports g → heap g' = heap g →
    servers g' = servers g →
    exchanges g' = exchanges g ++ [mkExchange m k freshResponse] →
    trace g' = trace g ++ l →
    (k = AwaitBody t "" ∧ l = []
     ∨ k = AwaitHandle t ∧ l = [HandleRequest t (length (exchanges g)) None]) →
    Shape g (EvRequest pathname m (Some id)) g'
| shape_arrive_create pathname sid g' :
    transports g' = transports g →
    heap g' = heap g ++ [mkTransport None false (servers g)] →
    servers g' = S (servers g) →
    exchanges g'
    = exchanges g ++ [mkExchange "POST" (AwaitConnect (length (heap g))) freshResponse] →
    trace g' = trace g ++ [CreateServer (servers g); NewTransport (length (heap g));
                           Connect (servers g) (length (heap g))] →
    Shape g (EvRequest pathname "POST" sid) g'
| shape_resume ev r x x' g' l :
    target ev = Some r → (∀ id, ev ≠ EvSessionInit r id) →
    exchanges g !! r = Some x →
    pc_next (pc x) (pc x') → method x' = method x →
    (∀ t b, pc x' = AwaitBody t b → res x' = res x) →
    transports g' = transports g → heap g' = heap g →
    servers g' = servers g →
    exchanges g' = <[r := x']> (exchanges g) →
    trace g' = trace g ++ l →
    Forall (λ a, quiet a
                 ∨ ∃ t b body, a = HandleRequest t r b
                               ∧ pc x = AwaitBody t body ∧ pc x' = AwaitHandle t) l →
    Shape g ev g'
| shape_init r x t tr id g' :
    exchanges g !! r = Some x → pc x = AwaitHandle t →
    heap g !! t = Some tr → sessionId tr = None → closed tr = false →
    id ≠ "" → fresh id (heap g) = true →
    transports g' = JSMap.set id t (transports g) →
    heap g' = <[t := mkTransport (Some id) false (server tr)]> (heap g) →
    servers g' = servers g → exchanges g' = exchanges g →
    trace g' = trace g ++ [Log ("Session initialized: " +:+ id)] →
    Shape g (EvSessionInit r id) g'
| shape_close ev t tr g' l :
    control ev →
    heap g !! t = Some tr → closed tr = false →
    transports g'
    = match sessionId tr with
      | Some id => if truthy (Some id) then JSMap.delete id (transports g)
                   else transports g
      | None => transports g
      end →
    heap g' = <[t := mkTransport (sessionId tr) true (server tr)]> (heap g) →
    servers g' = servers g → exchanges g' = exchanges g →
    trace g' = trace g ++ l →
    Forall (λ a, quiet a ∨ a = Close t ∧ is_Some (sessionId tr)) l →
    Shape g ev g'.

Lemma Shape_store g ev g' :
  Shape g ev g' → store_step (transports g) (heap g) (transports g') (heap g').
Proof.
  intros []; repeat match goal with H : _ = _ |- _ => rewrite H; clear H end;
    try constructor; done.
Qed.

Lemma closeTransport_open (g : Gateway) t tr :
  heap g !! t = Some tr → closed tr = false →
  closeTransport t g
  = onclose t (set_heap (<[t := mkTransport (sessionId tr) true (server tr)]> (heap g)) g).
Proof. intros Ht Hc. unfold closeTransport. by rewrite Ht, Hc. Qed.

(** What closing an open transport does, field by field. *)
Lemma closeTransport_fields (g : Gateway) t tr :
  heap g !! t = Some tr → closed tr = false →
  let g' := closeTransport t g in
  transports g'
  = match sessionId tr with
    | Some id => if truthy (Some id) then JSMap.delete id (transports g)
                 else transports g
    | None => transports g
    end
  ∧ heap g' = <[t := mkTransport (sessionId tr) true (server tr)]> (heap g)
  ∧ servers g' = servers g ∧ exchanges g' = exchanges g
  ∧ listener g' = listener g ∧ startP g' = startP g ∧ stopP g' = stopP g
  ∧ stopIter g' = stopIter g
  ∧ trace g'
    = trace g ++ match sessionId tr with
                 | Some id => if truthy (Some id)
                              then [Log ("Session closed: " +:+ id)] else []
                 | None => []
                 end.
Proof.
  intros Ht Hc. cbn zeta. rewrite (closeTransport_open _ _ _ Ht Hc).
  unfold onclose. cbn [heap set_heap].
  rewrite list_lookup_insert_eq by by eapply lookup_lt_Some.
  cbn [sessionId]. destruct (sessionId tr) as [id|].
  - destruct (truthy (Some id)); cbn; by rewrite ?app_nil_r.
  - cbn. by rewrite app_nil_r.
Qed.

Lemma next_registered (g : Gateway) i t i' :
  store_ok (transports g) (heap g) →
  JSMap.next i (transports g) = Some (t, i') →
  ∃ k tr, JSMap.get k (transports g) = Some t
          ∧ heap g !! t = Some tr ∧ sessionId tr = Some k ∧ closed tr = false.
Proof.
  intros Hok [k Hk]%jsmap_next_entries.
  apply jsmap_entries_get in Hk; [|apply Hok].
  pose proof Hk as (tr & ? & ? & ?)%(ok_registry _ _ Hok). by exists k, tr.
Qed.

Lemma stop_resume_shape (g g0 : Gateway) ev l0 :
  ev = EvStop ∨ ev = EvStopResume →
  store_ok (transports g) (heap g) →
  transports g0 = transports g → heap g0 = heap g →
  servers g0 = servers g → exchanges g0 = exchanges g →
  trace g0 = trace g ++ l0 → Forall quiet l0 →
  Shape g ev (stop_resume g0).
Proof.
  intros Hev Hok Hm Hh Hs Hx Htr Hq. unfold stop_resume.
  destruct (JSMap.next _ _) as [[t i]|] eqn:Hnext.
  - rewrite Hm in Hnext.
    destruct (next_registered _ _ _ _ Hok Hnext) as (k & tr & Hget & Ht & Hid & Hc).
    set (g1 := emit (Close t) (set_stopIter i g0)).
    assert (heap g1 !! t = Some tr) as Ht1 by (cbn; by rewrite Hh).
    destruct (closeTransport_fields g1 t tr Ht1 Hc)
      as (Em & Eh & Es & Ex & _ & _ & _ & _ & Et).
    eapply (shape_close _ ev t tr _ (l0 ++ Close t :: _)).
    + by destruct Hev as [-> | ->].
    + done.
    + done.
    + rewrite Em. cbn. by rewrite Hm.
    + rewrite Eh. cbn. by rewrite Hh.
    + by rewrite Es.
    + by rewrite Ex.
    + rewrite Et. cbn. rewrite Htr, <- !app_assoc. done.
    + apply Forall_app. split; [eapply Forall_impl; [done|by left]|].
      apply Forall_cons. split; [right; by rewrite Hid|].
      rewrite Hid. destruct (negb _);
        [apply Forall_cons; split; [by left|]|]; apply Forall_nil_2.
  - eapply (shape_quiet _ ev _ (l0 ++ [ListenerClose; Resolve "stop"])); cbn;
      try done.
    + by destruct Hev as [-> | ->].
    + rewrite Htr, <- !app_assoc. done.
    + apply Forall_app. split; [done|]. repeat constructor.
Qed.

Lemma leg_fields (g g1 : Gateway) ev r x rs c :
  (∀ r' id, ev ≠ EvSessionInit r' id) →
  leg g ev r x = Some (g1, rs, c) →
  transports g1 = transports g ∧ heap g1 = heap g ∧ servers g1 = servers g
  ∧ exchanges g1 = exchanges g
  ∧ (∃ k', pc (settle (method x) rs c g1).1 = k' ∧ pc_next (pc x) k'
           ∧ (∀ t b, k' = AwaitBody t b → rs = res x)
           ∧ ∃ l, trace (settle (method x) rs c g1).2 = trace g ++ l
                  ∧ Forall (λ a, quiet a
                                 ∨ ∃ t b body, a = HandleRequest t r b
                                               ∧ pc x = AwaitBody t body
                                               ∧ k' = AwaitHandle t) l).
Proof.
  intros Hev Hleg. unfold leg, afterBody in Hleg.
  destruct ev, (pc x) eqn:Hpc; try done; repeat case_match; simplify_eq;
    try (by edestruct Hev).
  all: (split_and!; [done..|]); cbn; rewrite ?Hpc.
  all: eexists; (split; [reflexivity|]).
  all: split; [by constructor|].
  all: split; [done|].
  all: first [ by (exists []; rewrite app_nil_r; split; [done|constructor])
             | (eexists [_]; split; [done|]; constructor; [|constructor];
                first [by left | right; by repeat eexists]) ].
Qed.

Lemma settle_fields (g : Gateway) m rs c :
  transports (settle m rs c g).2 = transports g
  ∧ heap (settle m rs c g).2 = heap g
  ∧ servers (settle m rs c g).2 = servers g
  ∧ exchanges (settle m rs c g).2 = exchanges g
  ∧ listener (settle m rs c g).2 = listener g
  ∧ startP (settle m rs c g).2 = startP g
  ∧ stopP (settle m rs c g).2 = stopP g
  ∧ stopIter (settle m rs c g).2 = stopIter g
  ∧ method (settle m rs c g).1 = m
  ∧ (c ≠ Throw → res (settle m rs c g).1 = rs ∧ trace (settle m rs c g).2 = trace g).
Proof. destruct c; cbn; split_and!; done. Qed.

Lemma resume_shape (g g' : Gateway) ev r :
  target ev = Some r → (∀ r' id, ev ≠ EvSessionInit r' id) →
  resume r (leg g ev r) g = Some g' → Shape g ev g'.
Proof.
  intros Ht Hev Hres. unfold resume in Hres.
  destruct (exchanges g !! r) as [x|] eqn:Hx; [|done].
  destruct (leg g ev r x) as [[[g1 rs] c]|] eqn:Hleg; [|done].
  destruct (leg_fields _ _ _ _ _ _ _ Hev Hleg)
    as (Em & Eh & Es & Ex & k' & Hk' & Hnext & Hrs & l & Hl & Hq).
  destruct (settle_fields g1 (method x) rs c)
    as (Sm & Sh & Ss & Sx & _ & _ & _ & _ & Smeth & Sres).
  destruct (settle (method x) rs c g1) as [x' g2] eqn:Hsettle.
  cbn [fst snd] in *. simplify_eq.
  eapply (shape_resume _ ev r x x' _ l); cbn; try done; try congruence.
  intros t b Hpc. rewrite <- (Hrs _ _ Hpc). apply Sres. intros ->.
  cbn in Hsettle. by simplify_eq.
Qed.

Lemma init_shape (g g' : Gateway) r id :
  resume r (leg g (EvSessionInit r id) r) g = Some g' →
  Shape g (EvSessionInit r id) g'.
Proof.
  intros Hres. unfold resume in Hres.
  destruct (exchanges g !! r) as [x|] eqn:Hx; [|done].
  unfold leg in Hres. destruct (pc x) as [| |t|] eqn:Hpc; try done.
  destruct (heap g !! t) as [tr|] eqn:Ht; [|done].
  destruct (mayAnnounce _ _ _ _) eqn:Hguard; [|done].
  unfold mayAnnounce in Hguard.
  apply andb_prop in Hguard as [Hguard Hfresh].
  apply andb_prop in Hguard as [Hguard Hid%truthy_Some].
  apply andb_prop in Hguard as [Hguard Hopen%negb_true_iff].
  apply andb_prop in Hguard as [_ Hnone%bool_decide_eq_true].
  cbn in Hres. simplify_eq.
  eapply (shape_init _ r x t tr id); cbn; try done.
  apply list_insert_id. rewrite Hx. f_equal. destruct x; cbn in *; congruence.
Qed.

Lemma request_shape (g : Gateway) pathname m sid :
  Shape g (EvRequest pathname m sid) (requestListener pathname m sid g).
Proof.
  unfold requestListener. destruct (String.eqb pathname _).
  2: { by eapply shape_arrive_done. }
  unfold handleMcpRequest.
  destruct (String.eqb m "POST") eqn:Hpost.
  - apply String.eqb_eq in Hpost as ->.
    destruct (registered sid (transports g)) as [t|] eqn:Hreg.
    + unfold registered in Hreg. destruct sid as [id|]; [|done].
      destruct (_ && _); [|done].
      eapply (shape_arrive_reuse _ _ _ id t _ _ []); cbn; try done.
      * by rewrite app_nil_r.
      * by left.
    + eapply shape_arrive_create; cbn; try done. by rewrite <- !app_assoc.
  - destruct (_ || _).
    + destruct (registered sid (transports g)) as [t|] eqn:Hreg.
      * unfold registered in Hreg. destruct sid as [id|]; [|done].
        destruct (_ && _); [|done].
        eapply (shape_arrive_reuse _ _ _ id t); cbn; try done. by right.
      * by eapply shape_arrive_done.
    + by eapply shape_arrive_done.
Qed.

Lemma step_shape (g g' : Gateway) ev :
  store_ok (transports g) (heap g) → step g ev = Some g' → Shape g ev g'.
Proof.
  intros Hok Hstep.
  destruct ev; cbn [step target] in Hstep;
    try (eapply resume_shape; [reflexivity|by intros|exact Hstep]).
  - destruct (listener g), (startP g); simplify_eq. unfold start.
    destruct (validPort _); cbn [negb];
      [|eapply (shape_quiet _ _ _ [_]); cbn; try done; repeat constructor].
    destruct bound.
    + eapply (shape_quiet _ _ _ [_; _; _]); cbn; try done.
      * by rewrite <- !app_assoc.
      * repeat constructor.
    + eapply (shape_quiet _ _ _ [_; _]); cbn; try done.
      * by rewrite <- !app_assoc.
      * repeat constructor.
  - destruct (listener g); simplify_eq; apply request_shape.
  - by apply init_shape.
  - destruct (heap g !! t) as [tr|] eqn:Ht; [|done].
    destruct (closed tr) eqn:Hc; simplify_eq.
    destruct (closeTransport_fields g t tr Ht Hc)
      as (Em & Eh & Es & Ex & _ & _ & _ & _ & Et).
    eapply (shape_close _ _ t tr); try done.
    destruct (sessionId tr); [destruct (truthy _)|]; repeat constructor.
  - destruct (stopP g); simplify_eq. unfold stop_begin.
    eapply (stop_resume_shape _ _ _ [_]); cbn; try done; [by left|].
    repeat constructor.
  - destruct (stopP g) as [[]|]; simplify_eq.
    eapply (stop_resume_shape _ _ _ []); cbn; try done; [by right|].
    by rewrite app_nil_r.
Qed.
End Shape.

(** ** How the heap moves *)

Lemma store_step_length m h m' h' :
  store_step m h m' h' → length h ≤ length h'.
Proof.
  intros []; rewrite ?length_app, ?length_insert; cbn; lia.
Qed.

(** A transport keeps its reference, its engine, its id once it has
    one, and stays closed once it is closed. *)
Lemma store_step_forward m h m' h' t tr :
  store_step m h m' h' → h !! t = Some tr →
  ∃ tr', h' !! t = Some tr' ∧ server tr' = server tr
         ∧ (∀ k, sessionId tr = Some k → sessionId tr' = Some k)
         ∧ (closed tr = true → closed tr' = true).
Proof.
  intros Hs Ht. destruct Hs as [|e|t0 tr0 id Ht0 Hn Hc Hid Hf|t0 tr0 Ht0 Hc].
  - by exists tr.
  - exists tr. split_and!; try done. by apply lookup_app_l_Some.
  - destruct (decide (t0 = t)) as [->|Hne].
    + simplify_eq. eexists. rewrite list_lookup_insert_eq by by eapply lookup_lt_Some.
      split_and!; try done; cbn; congruence.
    + exists tr. by rewrite list_lookup_insert_ne.
  - destruct (decide (t0 = t)) as [->|Hne].
    + simplify_eq. eexists. rewrite list_lookup_insert_eq by by eapply lookup_lt_Some.
      by split_and!.
    + exists tr. by rewrite list_lookup_insert_ne.
Qed.

(** A transport without id after the turn had none before it. *)
Lemma store_step_backward m h m' h' t tr' :
  store_step m h m' h' → h' !! t = Some tr' → sessionId tr' = None →
  t < length h → ∃ tr, h !! t = Some tr ∧ sessionId tr = None.
Proof.
  intros Hs Ht Hnone Hlt.
  destruct Hs as [|e|t0 tr0 id Ht0 Hn Hc Hid Hf|t0 tr0 Ht0 Hc].
  - by exists tr'.
  - exists tr'. by rewrite lookup_app_l in Ht.
  - destruct (decide (t0 = t)) as [->|Hne].
    + rewrite list_lookup_insert_eq in Ht by done. by simplify_eq.
    + rewrite list_lookup_insert_ne in Ht by done. by exists tr'.
  - destruct (decide (t0 = t)) as [->|Hne].
    + rewrite list_lookup_insert_eq in Ht by done. simplify_eq. by exists tr0.
    + rewrite list_lookup_insert_ne in Ht by done. by exists tr'.
Qed.

Lemma pc_next_transport k k' t :
  pc_next k k' → pc_transport k' = Some t → pc_transport k = Some t.
Proof. intros [] ?; by simplify_eq/=. Qed.

Lemma pc_next_not_finished k k' : pc_next k k' → k ≠ Finished.
Proof. by intros []. Qed.

(** ** The invariant of the gateway *)

Section Invariant.
Context {Value : Type}.
Variable JSON_parse : string -> option Value.
Variable opt_port : option Z.
Variable opt_path : option string.

Local Abbreviation Gateway := (Gateway Value).
Local Abbreviation Action := (Action Value).
Local Abbreviation step := (step JSON_parse opt_port opt_path).
Local Abbreviation run := (run JSON_parse opt_port opt_path).
Local Abbreviation reachable := (reachable JSON_parse opt_port opt_path).
Local Abbreviation Shape := (@Shape Value).

Record inv (g : Gateway) : Prop := mkInv {
  (* the registry agrees with the heap *)
  inv_store : store_ok (transports g) (heap g);
  (* an exchange holds a reference into the heap *)
  inv_pc : ∀ r x t,
    exchanges g !! r = Some x → pc_transport (pc x) = Some t →
    t < length (heap g);
  (* a transport without id is held by one exchange at most *)
  inv_owner : ∀ r1 r2 x1 x2 t tr,
    exchanges g !! r1 = Some x1 → exchanges g !! r2 = Some x2 →
    pc_transport (pc x1) = Some t → pc_transport (pc x2) = Some t →
    heap g !! t = Some tr → sessionId tr = None → r1 = r2;
  (* before [handleRequest] nothing has been written to the response *)
  inv_unsent : ∀ r x,
    exchanges g !! r = Some x →
    (∃ t, pc x = AwaitConnect t) ∨ (∃ t b, pc x = AwaitBody t b) →
    res x = freshResponse;
  (* [stop] has called [close] on registered transports only *)
  inv_close : ∀ t,
    Close t ∈ trace g → ∃ tr, heap g !! t = Some tr ∧ is_Some (sessionId tr);
  (* a call of [handleRequest] belongs to an exchange that is at line
     74 or 86, or over *)
  inv_handle : ∀ t r b,
    HandleRequest t r b ∈ trace g →
    t < length (heap g)
    ∧ ∃ x, exchanges g !! r = Some x ∧ (pc x = AwaitHandle t ∨ pc x = Finished);
  (* engines and transports are made in pairs *)
  inv_engine :
    servers g = length (heap g) ∧ ∀ t tr, heap g !! t = Some tr → server tr = t;
  (* every transport was made by the factory sequence of lines 54-70 *)
  inv_made : ∀ t tr,
    heap g !! t = Some tr →
    ∃ l1 l2, trace g = l1 ++ [CreateServer (server tr); NewTransport t;
                              Connect (server tr) t] ++ l2;
  (* nothing is handed to a new transport before the exchange that
     made it gets to line 74 *)
  inv_unhandled : ∀ r x t tr,
    exchanges g !! r = Some x →
    pc x = AwaitConnect t ∨ (∃ b, pc x = AwaitBody t b) →
    heap g !! t = Some tr → sessionId tr = None →
    ∀ r' b', HandleRequest t r' b' ∉ trace g;
}.

Lemma inv_initial : inv initial.
Proof.
  split; cbn.
  - apply store_ok_empty.
  - by intros r x t ?.
  - by intros r1 r2 x1 x2 t tr ?.
  - by intros r x ?.
  - by intros t ?%elem_of_nil.
  - by intros t r b ?%elem_of_nil.
  - split; [done|]. by intros t tr ?.
  - by intros t tr ?.
  - by intros r x t tr ?.
Qed.

Lemma Shape_inv_pc g ev g' :
  inv g → Shape g ev g' →
  ∀ r x t, exchanges g' !! r = Some x → pc_transport (pc x) = Some t →
           t < length (heap g').
Proof.
  intros Hinv Hs r x t Hx Ht.
  pose proof (store_step_length _ _ _ _ (Shape_store _ _ _ Hs)) as Hlen.
  assert (∀ r x, exchanges g !! r = Some x → pc_transport (pc x) = Some t →
                 t < length (heap g')) as Hold.
  { intros r0 x0 H0 H1. pose proof (inv_pc _ Hinv _ _ _ H0 H1). lia. }
  destruct Hs as [ev g' l _ Em Eh Es Ex Et Hq
                 |pathname m sid rs g' Em Eh Es Ex Et
                 |pathname m id t0 k g' l Hget Em Eh Es Ex Et Hk
                 |pathname sid g' Em Eh Es Ex Et
                 |ev r0 x0 x0' g' l Htg Hev Hx0 Hnext Hmeth Hres Em Eh Es Ex Et Hq
                 |r0 x0 t0 tr id g' Hx0 Hpc Ht0 Hnone Hopen Hid Hfresh Em Eh Es Ex Et
                 |ev t0 tr g' l _ Ht0 Hopen Em Eh Es Ex Et Hq];
    rewrite Ex in Hx; try (by eapply Hold).
  - apply lookup_app_Some in Hx as [Hx|[_ Hx]]; [by eapply Hold|].
    apply list_lookup_singleton_Some in Hx as [_ <-]. done.
  - apply lookup_app_Some in Hx as [Hx|[_ Hx]]; [by eapply Hold|].
    apply list_lookup_singleton_Some in Hx as [_ <-].
    apply (ok_registry _ _ (inv_store _ Hinv)) in Hget as (tr & Htr & _).
    apply lookup_lt_Some in Htr.
    destruct Hk as [[-> _]|[-> _]]; cbn in Ht; simplify_eq; lia.
  - apply lookup_app_Some in Hx as [Hx|[_ Hx]]; [by eapply Hold|].
    apply list_lookup_singleton_Some in Hx as [_ <-]. cbn in Ht. simplify_eq.
    rewrite Eh, length_app. cbn. lia.
  - destruct (decide (r0 = r)) as [->|Hne].
    + rewrite list_lookup_insert_eq in Hx by by eapply lookup_lt_Some.
      simplify_eq. eapply Hold; [done|]. by eapply pc_next_transport.
    + rewrite list_lookup_insert_ne in Hx by done. by eapply Hold.
Qed.

(** Where an exchange of the state after a turn comes from: it was
    there before, untouched or resumed, or it has just arrived. *)
Lemma Shape_exchange_back g ev g' r x' :
  Shape g ev g' → exchanges g' !! r = Some x' →
  (∃ x, exchanges g !! r = Some x ∧ method x' = method x
        ∧ (x' = x
           ∨ pc_next (pc x) (pc x')
             ∧ (∀ t b, pc x' = AwaitBody t b → res x' = res x)))
  ∨ (r = length (exchanges g)
     ∧ (pc x' = Finished
        ∨ (∃ id t, JSMap.get id (transports g) = Some t
                   ∧ (pc x' = AwaitBody t "" ∨ pc x' = AwaitHandle t)
                   ∧ res x' = freshResponse)
        ∨ (pc x' = AwaitConnect (length (heap g))
           ∧ res x' = freshResponse))).
Proof.
  intros Hs Hx.
  destruct Hs as [ev g' l _ Em Eh Es Ex Et Hq
                 |pathname m sid rs g' Em Eh Es Ex Et
                 |pathname m id t0 k g' l Hget Em Eh Es Ex Et Hk
                 |pathname sid g' Em Eh Es Ex Et
                 |ev r0 x0 x0' g' l Htg Hev Hx0 Hnext Hmeth Hres Em Eh Es Ex Et Hq
                 |r0 x0 t0 tr id g' Hx0 Hpc Ht0 Hnone Hopen Hid Hfresh Em Eh Es Ex Et
                 |ev t0 tr g' l _ Ht0 Hopen Em Eh Es Ex Et Hq];
    rewrite Ex in Hx; try (left; exists x'; by auto).
  - apply lookup_app_Some in Hx as [Hx|[Hge Hx]]; [left; exists x'; by auto|].
    apply list_lookup_singleton_Some in Hx as [Hr <-].
    right. split; [lia|]. by left.
  - apply lookup_app_Some in Hx as [Hx|[Hge Hx]]; [left; exists x'; by auto|].
    apply list_lookup_singleton_Some in Hx as [Hr <-].
    right. split; [lia|]. right; left. exists id, t0. cbn.
    split_and!; try done. destruct Hk as [[-> _]|[-> _]]; auto.
  - apply lookup_app_Some in Hx as [Hx|[Hge Hx]]; [left; exists x'; by auto|].
    apply list_lookup_singleton_Some in Hx as [Hr <-].
    right. split; [lia|]. right; right. done.
  - destruct (decide (r0 = r)) as [->|Hne].
    + rewrite list_lookup_insert_eq in Hx by by eapply lookup_lt_Some.
      simplify_eq. left. exists x0. auto.
    + rewrite list_lookup_insert_ne in Hx by done. left; exists x'; by auto.
Qed.

Lemma Shape_exchange_forward g ev g' r x :
  Shape g ev g' → exchanges g !! r = Some x →
  ∃ x', exchanges g' !! r = Some x' ∧ (x' = x ∨ pc_next (pc x) (pc x')).
Proof.
  intros Hs Hx.
  destruct Hs as [ev g' l _ Em Eh Es Ex Et Hq
                 |pathname m sid rs g' Em Eh Es Ex Et
                 |pathname m id t0 k g' l Hget Em Eh Es Ex Et Hk
                 |pathname sid g' Em Eh Es Ex Et
                 |ev r0 x0 x0' g' l Htg Hev Hx0 Hnext Hmeth Hres Em Eh Es Ex Et Hq
                 |r0 x0 t0 tr id g' Hx0 Hpc Ht0 Hnone Hopen Hid Hfresh Em Eh Es Ex Et
                 |ev t0 tr g' l _ Ht0 Hopen Em Eh Es Ex Et Hq];
    rewrite Ex; try (exists x; by auto);
    try (exists x; split; [by apply lookup_app_l_Some|by left]).
  destruct (decide (r0 = r)) as [->|Hne].
  - exists x0'. rewrite list_lookup_insert_eq by by eapply lookup_lt_Some.
    simplify_eq. auto.
  - exists x. rewrite list_lookup_insert_ne by done. auto.
Qed.

(** What a turn adds to the trace. *)
Lemma Shape_trace g ev g' :
  Shape g ev g' →
  ∃ l, trace g' = trace g ++ l
       ∧ Forall (λ a, quiet a
                      ∨ (∃ t tr, a = Close t ∧ heap g !! t = Some tr
                                 ∧ is_Some (sessionId tr))
                      ∨ (∃ t r b x', a = HandleRequest t r b
                                     ∧ exchanges g' !! r = Some x'
                                     ∧ pc x' = AwaitHandle t)) l.
Proof.
  intros Hs.
  destruct Hs as [ev g' l _ Em Eh Es Ex Et Hq
                 |pathname m sid rs g' Em Eh Es Ex Et
                 |pathname m id t0 k g' l Hget Em Eh Es Ex Et Hk
                 |pathname sid g' Em Eh Es Ex Et
                 |ev r0 x0 x0' g' l Htg Hev Hx0 Hnext Hmeth Hres Em Eh Es Ex Et Hq
                 |r0 x0 t0 tr id g' Hx0 Hpc Ht0 Hnone Hopen Hid Hfresh Em Eh Es Ex Et
                 |ev t0 tr g' l _ Ht0 Hopen Em Eh Es Ex Et Hq].
  - exists l. split; [done|]. eapply Forall_impl; [done|]. by left.
  - exists []. rewrite app_nil_r. split; [done|]. constructor.
  - exists l. split; [done|]. destruct Hk as [[-> ->]|[-> ->]]; [constructor|].
    apply Forall_cons. split; [|apply Forall_nil_2].
    right; right. eexists _, _, _, _. split; [done|].
    rewrite Ex. rewrite lookup_app_r, Nat.sub_diag by lia. done.
  - eexists. split; [done|]. repeat constructor; by left.
  - exists l. split; [done|]. eapply Forall_impl; [done|]. cbn.
    intros a [?|(t & b & body & -> & ? & ?)]; [by left|right; right].
    exists t, r0, b, x0'. split_and!; try done.
    rewrite Ex. apply list_lookup_insert_eq. by eapply lookup_lt_Some.
  - eexists. split; [done|]. repeat constructor; by left.
  - exists l. split; [done|]. eapply Forall_impl; [done|]. cbn.
    intros a [?|[-> ?]]; [by left|right; left]. by exists t0, tr.
Qed.

Lemma Shape_inv_engine g ev g' :
  inv g → Shape g ev g' →
  servers g' = length (heap g') ∧ ∀ t tr, heap g' !! t = Some tr → server tr = t.
Proof.
  intros Hinv Hs. destruct (inv_engine _ Hinv) as [Hn Hsrv].
  destruct Hs as [ev g' l _ Em Eh Es Ex Et Hq
                 |pathname m sid rs g' Em Eh Es Ex Et
                 |pathname m id t0 k g' l Hget Em Eh Es Ex Et Hk
                 |pathname sid g' Em Eh Es Ex Et
                 |ev r0 x0 x0' g' l Htg Hev Hx0 Hnext Hmeth Hres Em Eh Es Ex Et Hq
                 |r0 x0 t0 tr id g' Hx0 Hpc Ht0 Hnone Hopen Hid Hfresh Em Eh Es Ex Et
                 |ev t0 tr g' l _ Ht0 Hopen Em Eh Es Ex Et Hq];
    rewrite Es, Eh; try done.
  - rewrite length_app. cbn. split; [lia|]. intros t tr Ht.
    apply lookup_app_Some in Ht as [Ht|[Hge Ht]]; [by apply Hsrv|].
    apply list_lookup_singleton_Some in Ht as [Hr <-]. cbn. lia.
  - rewrite length_insert. split; [done|]. intros t tr' Ht.
    apply list_lookup_insert_Some in Ht as [(-> & <- & _)|[_ Ht]]; [|by apply Hsrv].
    cbn. by apply Hsrv.
  - rewrite length_insert. split; [done|]. intros t tr' Ht.
    apply list_lookup_insert_Some in Ht as [(-> & <- & _)|[_ Ht]]; [|by apply Hsrv].
    cbn. by apply Hsrv.
Qed.

Lemma Shape_inv_made g ev g' :
  inv g → Shape g ev g' →
  ∀ t tr, heap g' !! t = Some tr →
          ∃ l1 l2, trace g' = l1 ++ [CreateServer (server tr); NewTransport t;
                                     Connect (server tr) t] ++ l2.
Proof.
  intros Hinv Hs t tr' Ht.
  assert (∀ tr l, heap g !! t = Some tr → server tr' = server tr →
                  trace g' = trace g ++ l →
                  ∃ l1 l2, trace g' = l1 ++ [CreateServer (server tr'); NewTransport t;
                                             Connect (server tr') t] ++ l2) as Hold.
  { intros tr l Htr Hsrv Et.
    destruct (inv_made _ Hinv _ _ Htr) as (l1 & l2 & E).
    exists l1, (l2 ++ l). rewrite Et, E, Hsrv. by rewrite <- !app_assoc. }
  destruct Hs as [ev g' l _ Em Eh Es Ex Et Hq
                 |pathname m sid rs g' Em Eh Es Ex Et
                 |pathname m id t0 k g' l Hget Em Eh Es Ex Et Hk
                 |pathname sid g' Em Eh Es Ex Et
                 |ev r0 x0 x0' g' l Htg Hev Hx0 Hnext Hmeth Hres Em Eh Es Ex Et Hq
                 |r0 x0 t0 tr id g' Hx0 Hpc Ht0 Hnone Hopen Hid Hfresh Em Eh Es Ex Et
                 |ev t0 tr g' l _ Ht0 Hopen Em Eh Es Ex Et Hq];
    rewrite Eh in Ht; try (by eapply Hold).
  - eapply (Hold _ []); [done..|]. by rewrite app_nil_r.
  - apply lookup_app_Some in Ht as [Ht|[Hge Ht]]; [by eapply Hold|].
    apply list_lookup_singleton_Some in Ht as [Hr <-]. cbn.
    assert (t = length (heap g)) as -> by lia.
    by exists (trace g), [].
  - apply list_lookup_insert_Some in Ht as [(-> & <- & _)|[_ Ht]];
      by eapply Hold.
  - apply list_lookup_insert_Some in Ht as [(-> & <- & _)|[_ Ht]];
      by eapply Hold.
Qed.

Lemma Shape_inv_owner g ev g' :
  inv g → Shape g ev g' →
  ∀ r1 r2 x1 x2 t tr,
    exchanges g' !! r1 = Some x1 → exchanges g' !! r2 = Some x2 →
    pc_transport (pc x1) = Some t → pc_transport (pc x2) = Some t →
    heap g' !! t = Some tr → sessionId tr = None → r1 = r2.
Proof.
  intros Hinv Hs.
  pose proof (Shape_store _ _ _ Hs) as Hstore.
  intros r1 r2 x1 x2 t tr' H1 H2 Hp1 Hp2 Ht Hnone.
  assert (∀ r x', exchanges g' !! r = Some x' → pc_transport (pc x') = Some t →
                  r = length (exchanges g)
                  ∨ ∃ x, exchanges g !! r = Some x ∧ pc_transport (pc x) = Some t)
    as Hsplit.
  { intros r x' Hx Hp.
    destruct (Shape_exchange_back _ _ _ _ _ Hs Hx)
      as [(x & Hx0 & _ & [->|[Hn _]])|[-> _]]; [right..|by left].
    - by exists x.
    - exists x. split; [done|]. by eapply pc_next_transport. }
  assert (∀ r x', exchanges g' !! r = Some x' → pc_transport (pc x') = Some t →
                  r = length (exchanges g) → length (heap g) ≤ t) as Hnew.
  { intros r x' Hx Hp ->.
    destruct (Shape_exchange_back _ _ _ _ _ Hs Hx)
      as [(x & Hx0 & _)|[_ Hcase]].
    { apply lookup_lt_Some in Hx0. lia. }
    destruct Hcase as [Hf|[(id & t0 & Hget & Hk & _)|[Hk _]]].
    - rewrite Hf in Hp. done.
    - assert (t0 = t) as -> by (destruct Hk as [Hk|Hk]; rewrite Hk in Hp; by simplify_eq/=).
      apply (ok_registry _ _ (inv_store _ Hinv)) in Hget as (tr & Htr & Hid & _).
      destruct (store_step_forward _ _ _ _ _ _ Hstore Htr) as (tr2 & Htr2 & _ & Hkeep & _).
      specialize (Hkeep _ Hid). congruence.
    - rewrite Hk in Hp. simplify_eq/=. lia. }
  destruct (Hsplit _ _ H1 Hp1) as [->|(y1 & Hy1 & Hq1)],
           (Hsplit _ _ H2 Hp2) as [->|(y2 & Hy2 & Hq2)]; try done.
  - pose proof (Hnew _ _ H1 Hp1 eq_refl).
    pose proof (inv_pc _ Hinv _ _ _ Hy2 Hq2). lia.
  - pose proof (Hnew _ _ H2 Hp2 eq_refl).
    pose proof (inv_pc _ Hinv _ _ _ Hy1 Hq1). lia.
  - pose proof (inv_pc _ Hinv _ _ _ Hy1 Hq1) as Hlt.
    destruct (store_step_backward _ _ _ _ _ _ Hstore Ht Hnone Hlt) as (tr & Htr & Hn).
    by eapply (inv_owner _ Hinv r1 r2).
Qed.

Lemma Shape_inv_unhandled g ev g' :
  inv g → Shape g ev g' →
  ∀ r x t tr,
    exchanges g' !! r = Some x →
    pc x = AwaitConnect t ∨ (∃ b, pc x = AwaitBody t b) →
    heap g' !! t = Some tr → sessionId tr = None →
    ∀ r' b', HandleRequest t r' b' ∉ trace g'.
Proof.
  intros Hinv Hs r x t tr' Hx Hpc Ht Hnone r' b' Hin.
  pose proof (Shape_store _ _ _ Hs) as Hstore.
  destruct (Shape_trace _ _ _ Hs) as (l & Et & Hq). rewrite Et in Hin.
  apply elem_of_app in Hin as [Hin|Hin].
  - destruct (inv_handle _ Hinv _ _ _ Hin) as (Hlt & _).
    destruct (store_step_backward _ _ _ _ _ _ Hstore Ht Hnone Hlt) as (tr & Htr & Hn).
    destruct (Shape_exchange_back _ _ _ _ _ Hs Hx)
      as [(x0 & Hx0 & _ & [->|[Hnext _]])|[-> Hcase]].
    + by eapply (inv_unhandled _ Hinv r x0).
    + eapply (inv_unhandled _ Hinv r x0 t tr); try done.
      destruct Hpc as [Hpc|[b Hpc]]; rewrite Hpc in Hnext; inversion Hnext; eauto.
    + destruct Hcase as [Hf|[(id & t0 & Hget & Hk & _)|[Hk _]]].
      * destruct Hpc as [Hpc|[b Hpc]]; congruence.
      * assert (t0 = t) as ->
            by (destruct Hpc as [Hpc|[b Hpc]], Hk as [Hk|Hk]; congruence).
        apply (ok_registry _ _ (inv_store _ Hinv)) in Hget as (tr0 & Htr0 & Hid & _).
        congruence.
      * assert (t = length (heap g))
          by (destruct Hpc as [Hpc|[b Hpc]]; congruence).
        lia.
  - rewrite Forall_forall in Hq.
    destruct (Hq _ Hin)
      as [Hquiet|[(? & ? & ? & _)|(t1 & r1 & b1 & x1 & Heq & Hx1 & Hpc1)]];
      [done|done|].
    injection Heq as <- <- <-.
    assert (r = r') as <-.
    { eapply (Shape_inv_owner _ _ _ Hinv Hs r r' x x1 t tr'); try done.
      - destruct Hpc as [Hpc|[b Hpc]]; by rewrite Hpc.
      - by rewrite Hpc1. }
    destruct Hpc as [Hpc|[b Hpc]]; congruence.
Qed.

Lemma Shape_inv g ev g' : inv g → Shape g ev g' → inv g'.
Proof.
  intros Hinv Hs.
  pose proof (Shape_store _ _ _ Hs) as Hstore.
  split.
  - eapply store_step_ok; [apply Hinv|done].
  - by eapply Shape_inv_pc.
  - by eapply Shape_inv_owner.
  - intros r x' Hx Hpc.
    destruct (Shape_exchange_back _ _ _ _ _ Hs Hx)
      as [(x & Hx0 & _ & [->|[Hn Hres]])|[_ Hcase]].
    + by eapply inv_unsent.
    + destruct Hpc as [[t Hpc]|(t & b & Hpc)]; rewrite Hpc in Hn.
      * inversion Hn.
      * rewrite (Hres _ _ Hpc). eapply inv_unsent; [done..|].
        inversion Hn; eauto.
    + destruct Hcase as [Hf|[(id & t0 & _ & _ & Hr)|[_ Hr]]]; try done.
      destruct Hpc as [[t Hpc]|(t & b & Hpc)]; congruence.
  - intros t Hin.
    destruct (Shape_trace _ _ _ Hs) as (l & Et & Hq). rewrite Et in Hin.
    assert (∃ tr, heap g !! t = Some tr ∧ is_Some (sessionId tr)) as (tr & Htr & [k Hk]).
    { apply elem_of_app in Hin as [Hin|Hin]; [by eapply inv_close|].
      rewrite Forall_forall in Hq.
      destruct (Hq _ Hin) as [Hquiet|[(t1 & tr & Heq & Htr & Hsome)|(? & ? & ? & ? & ? & _)]];
        [done| |done].
      simplify_eq. by exists tr. }
    destruct (store_step_forward _ _ _ _ _ _ Hstore Htr) as (tr2 & Htr2 & _ & Hkeep & _).
    exists tr2. split; [done|]. exists k. by apply Hkeep.
  - intros t r b Hin.
    destruct (Shape_trace _ _ _ Hs) as (l & Et & Hq). rewrite Et in Hin.
    apply elem_of_app in Hin as [Hin|Hin].
    + destruct (inv_handle _ Hinv _ _ _ Hin) as (Hlt & x & Hx & Hpc).
      split; [pose proof (store_step_length _ _ _ _ Hstore); lia|].
      destruct (Shape_exchange_forward _ _ _ _ _ Hs Hx) as (x' & Hx' & [->|Hn]).
      * by exists x.
      * exists x'. split; [done|].
        destruct Hpc as [Hpc|Hpc]; rewrite Hpc in Hn; inversion Hn; auto.
    + rewrite Forall_forall in Hq.
      destruct (Hq _ Hin) as [Hquiet|[(? & ? & ? & _)|(t1 & r1 & b1 & x' & Heq & Hx' & Hpc)]];
        [done|done|].
      simplify_eq. split; [|exists x'; auto].
      eapply Shape_inv_pc; [done..|]. by rewrite Hpc.
  - by eapply Shape_inv_engine.
  - by eapply Shape_inv_made.
  - by eapply Shape_inv_unhandled.
Qed.

Lemma step_inv g ev g' : inv g → step g ev = Some g' → inv g'.
Proof.
  intros Hinv Hstep. eapply Shape_inv; [done|].
  eapply step_shape; [apply Hinv|done].
Qed.

Lemma run_inv evs : ∀ g g', inv g → run g evs = Some g' → inv g'.
Proof.
  induction evs as [|ev evs IH]; intros g g' Hinv Hrun; cbn in Hrun.
  - by simplify_eq.
  - destruct (step g ev) as [g1|] eqn:Hstep; [|done].
    eapply IH; [|done]. by eapply step_inv.
Qed.

Lemma reachable_inv g : reachable g → inv g.
Proof. intros [evs Hrun]. eapply run_inv; [apply inv_initial|done]. Qed.
End Invariant.

(** ** The registry invariant *)

Section Registry.
Context {Value : Type}.
Variable JSON_parse : string -> option Value.
Variable opt_port : option Z.
Variable opt_path : option string.

Local Abbreviation Gateway := (Gateway Value).
Local Abbreviation step := (step JSON_parse opt_port opt_path).
Local Abbreviation run := (run JSON_parse opt_port opt_path).
Local Abbreviation reachable := (reachable JSON_parse opt_port opt_path).
Local Abbreviation requestListener := (requestListener opt_path).

Lemma jsmap_key_get {V} (k : string) (m : JSMap.t V) :
  k ∈ JSMap.keys m ↔ ∃ v, JSMap.get k m = Some v.
Proof.
  destruct (JSMap.get k m) as [v|] eqn:Hget.
  - split; [by exists v|]. intros _.
    destruct (decide (k ∈ JSMap.keys m)) as [|Hnin]; [done|].
    apply jsmap_get_None in Hnin. congruence.
  - split; [|by intros [? ?]]. intros Hin. by apply jsmap_get_None in Hget.
Qed.

(** Only the turn in which a transport announces its id adds a key. *)
Lemma Shape_new_key (g g' : Gateway) ev id :
  Shape g ev g' →
  id ∉ JSMap.keys (transports g) → id ∈ JSMap.keys (transports g') →
  ∃ r, ev = EvSessionInit r id.
Proof.
  intros Hs Hnin Hin.
  destruct Hs as [ev g' l _ Em Eh Es Ex Et Hq
                 |pathname m sid rs g' Em Eh Es Ex Et
                 |pathname m id0 t0 k g' l Hget Em Eh Es Ex Et Hk
                 |pathname sid g' Em Eh Es Ex Et
                 |ev r0 x0 x0' g' l Htg Hev Hx0 Hnext Hmeth Hres Em Eh Es Ex Et Hq
                 |r0 x0 t0 tr id0 g' Hx0 Hpc Ht0 Hnone Hopen Hid Hfresh Em Eh Es Ex Et
                 |ev t0 tr g' l _ Ht0 Hopen Em Eh Es Ex Et Hq];
    rewrite Em in Hin; try done.
  - exists r0. f_equal. destruct (decide (id0 ∈ JSMap.keys (transports g))) as [Hold|Hnew].
    + rewrite jsmap_keys_set_old in Hin by done. done.
    + rewrite jsmap_keys_set_new in Hin by done.
      apply elem_of_app in Hin as [?|Hin%list_elem_of_singleton]; done.
  - destruct (sessionId tr) as [id0|]; [|done].
    destruct (truthy (Some id0)); [|done].
    by apply jsmap_keys_delete_sub in Hin.
Qed.

(** C1.  In every state the gateway can reach, the keys of the registry
    are distinct, and an id is a key of the registry exactly when some
    transport holds that id (the engine announced it through
    [onsessioninitialized]) and has not fired [onclose]; the registry
    then maps the id to that transport.  A key appears only in the turn
    in which a transport announces it, a request entering the listener
    leaves the registry as it is, and [onclose] of a transport that was
    never given an id changes nothing at all. *)
Theorem registry_invariant (g : Gateway) :
  reachable g →
  NoDup (JSMap.keys (transports g))
  ∧ (∀ id, id ∈ JSMap.keys (transports g)
           ↔ ∃ t tr, heap g !! t = Some tr ∧ sessionId tr = Some id
                     ∧ closed tr = false)
  ∧ (∀ id t, JSMap.get id (transports g) = Some t
             ↔ ∃ tr, heap g !! t = Some tr ∧ sessionId tr = Some id
                     ∧ closed tr = false)
  ∧ (∀ ev g' id, step g ev = Some g' →
                 id ∉ JSMap.keys (transports g) → id ∈ JSMap.keys (transports g') →
                 ∃ r, ev = EvSessionInit r id)
  ∧ (∀ pathname m sid,
       transports (requestListener pathname m sid g) = transports g)
  ∧ (∀ t tr, heap g !! t = Some tr → sessionId tr = None → onclose t g = g).
Proof.
  intros Hinv%reachable_inv. pose proof (inv_store _ Hinv) as Hok.
  split_and!.
  - apply Hok.
  - intros id. rewrite jsmap_key_get. split.
    + intros [t Hget]. exists t. by apply (ok_registry _ _ Hok).
    + intros (t & tr & H). exists t. apply (ok_registry _ _ Hok). by exists tr.
  - apply Hok.
  - intros ev g' id Hstep. eapply Shape_new_key. by eapply step_shape.
  - intros pathname m sid.
    pose proof (request_shape opt_path g pathname m sid) as Hs.
    inversion Hs; done.
  - intros t tr Ht Hnone. unfold onclose. by rewrite Ht, Hnone.
Qed.
End Registry.

(** ** A session, from the announcement of its id to its closure *)

Lemma filter_none {A} (P : A → Prop) `{∀ x, Decision (P x)} (l : list A) :
  (∀ x, x ∈ l → ¬ P x) → filter P l = [].
Proof.
  induction l as [|x l IH]; intros Hl; [done|].
  rewrite filter_cons_False by (apply Hl; apply list_elem_of_here).
  apply IH. intros y Hy. apply Hl. by apply list_elem_of_further.
Qed.

Lemma count_NoDup_entry {V} (k : string) (v : V) (m : JSMap.t V) :
  NoDup (JSMap.keys m) → JSMap.get k m = Some v →
  filter (λ e, e.1 = k) (JSMap.entries m) = [(k, v)].
Proof.
  unfold JSMap.keys, JSMap.entries.
  induction m as [|[[k1 v1]|] m IH]; cbn; try done.
  rewrite NoDup_cons. intros [Hk Hnd].
  destruct (decide (k1 = k)) as [->|Hne]; intros Hget.
  - simplify_eq. f_equal.
    apply filter_none. intros [k2 v2] Hin ?; cbn in *; subst.
    apply Hk. apply list_elem_of_fmap. by exists (k, v2).
  - by apply IH.
Qed.

Section Session.
Context {Value : Type}.
Variable JSON_parse : string -> option Value.
Variable opt_port : option Z.
Variable opt_path : option string.

Local Abbreviation Gateway := (Gateway Value).
Local Abbreviation step := (step JSON_parse opt_port opt_path).
Local Abbreviation run := (run JSON_parse opt_port opt_path).
Local Abbreviation reachable := (reachable JSON_parse opt_port opt_path).
Local Abbreviation requestListener := (requestListener opt_path).
Local Abbreviation path := (path opt_path).

Lemma reachable_step (g g' : Gateway) ev :
  reachable g → step g ev = Some g' → reachable g'.
Proof.
  intros [evs Hrun] Hstep. exists (evs ++ [ev]).
  revert Hrun. generalize (@initial Value). induction evs as [|e evs IH]; cbn.
  - intros g0 [= ->]. by rewrite Hstep.
  - intros g0. destruct (step g0 e); [apply IH|done].
Qed.

Lemma reachable_run evs : ∀ g g' : Gateway,
  reachable g → run g evs = Some g' → reachable g'.
Proof.
  induction evs as [|ev evs IH]; intros g g' Hr Hrun; cbn in Hrun.
  - by simplify_eq.
  - destruct (step g ev) as [g1|] eqn:Hstep; [|done].
    eapply IH; [|done]. by eapply reachable_step.
Qed.

(** Along a run a transport keeps its reference, its engine and its
    id, and stays closed once closed. *)
Lemma run_forward evs : ∀ (g g' : Gateway) t tr,
  inv g → run g evs = Some g' → heap g !! t = Some tr →
  ∃ tr', heap g' !! t = Some tr' ∧ server tr' = server tr
         ∧ (∀ k, sessionId tr = Some k → sessionId tr' = Some k)
         ∧ (closed tr = true → closed tr' = true).
Proof.
  induction evs as [|ev evs IH]; intros g g' t tr Hinv Hrun Ht; cbn in Hrun.
  - simplify_eq. by exists tr.
  - destruct (step g ev) as [g1|] eqn:Hstep; [|done].
    pose proof (step_shape _ _ _ _ _ _ (inv_store _ Hinv) Hstep) as Hs.
    destruct (store_step_forward _ _ _ _ _ _ (Shape_store _ _ _ Hs) Ht)
      as (tr1 & Ht1 & Hsrv1 & Hid1 & Hc1).
    destruct (IH g1 g' t tr1 (step_inv _ _ _ _ _ _ Hinv Hstep) Hrun Ht1)
      as (tr' & Ht' & Hsrv & Hid & Hc).
    exists tr'. split_and!; [done|congruence|auto..].
Qed.

(** A request that carries a registered id goes to the registered
    transport; no engine and no transport is made. *)
Lemma request_registered_post (g : Gateway) X t :
  JSMap.get X (transports g) = Some t → X ≠ "" →
  requestListener path "POST" (Some X) g
  = set_exchanges (exchanges g ++ [mkExchange "POST" (AwaitBody t "") freshResponse]) g.
Proof.
  intros Hget HX. unfold requestListener, handleMcpRequest, registered, JSMap.has.
  rewrite String.eqb_refl, Hget. cbn. by rewrite string_eqb_false.
Qed.

Lemma request_registered_read (g : Gateway) m X t :
  m = "GET" ∨ m = "DELETE" →
  JSMap.get X (transports g) = Some t → X ≠ "" →
  requestListener path m (Some X) g
  = set_exchanges (exchanges g ++ [mkExchange m (AwaitHandle t) freshResponse])
                  (emit (HandleRequest t (length (exchanges g)) None) g).
Proof.
  intros Hm Hget HX. unfold requestListener, handleMcpRequest, registered, JSMap.has.
  rewrite String.eqb_refl, Hget.
  destruct Hm as [-> | ->]; cbn; by rewrite string_eqb_false.
Qed.

Lemma Shape_init_inv (g g' : Gateway) r id :
  Shape g (EvSessionInit r id) g' →
  ∃ x t tr, exchanges g !! r = Some x ∧ pc x = AwaitHandle t
            ∧ heap g !! t = Some tr ∧ sessionId tr = None ∧ closed tr = false
            ∧ id ≠ ""
            ∧ transports g' = JSMap.set id t (transports g)
            ∧ heap g' = <[t := mkTransport (Some id) false (server tr)]> (heap g)
            ∧ servers g' = servers g ∧ exchanges g' = exchanges g.
Proof.
  intros Hs. remember (EvSessionInit r id) as ev eqn:Hev.
  destruct Hs as [ev g' l Hni Em Eh Es Ex Et Hq
                 |pathname m sid rs g' Em Eh Es Ex Et
                 |pathname m id0 t0 k g' l Hget Em Eh Es Ex Et Hk
                 |pathname sid g' Em Eh Es Ex Et
                 |ev r0 x0 x0' g' l Htg Hni Hx0 Hnext Hmeth Hres Em Eh Es Ex Et Hq
                 |r0 x0 t0 tr id0 g' Hx0 Hpc Ht0 Hnone Hopen Hid Hfresh Em Eh Es Ex Et
                 |ev t0 tr g' l Hni Ht0 Hopen Em Eh Es Ex Et Hq];
    try done; subst; try done.
  - cbn in Htg. simplify_eq. by edestruct Hni.
  - simplify_eq. exists x0, t0, tr. by split_and!.
Qed.

(** C2, as the code has it.  A POST that carries no registered id
    makes one engine and one transport.  When the transport [t] of an
    exchange announces the id [X], the registry holds exactly one entry
    for [X], and it is [t].  After any further run in which [t] has not
    fired [onclose], the entry for [X] is still that one and still [t],
    and a POST, GET or DELETE that carries [X] is handed to [t] itself:
    the request adds an exchange suspended on [t] and nothing else, so
    the factory is not called and no transport is made. *)
Theorem session_reused_while_open (g g1 g2 : Gateway) (r t : nat) (x : Exchange)
    (X : string) (evs : list Event) :
  reachable g →
  exchanges g !! r = Some x → pc x = AwaitHandle t →
  step g (EvSessionInit r X) = Some g1 →
  run g1 evs = Some g2 →
  (∃ tr, heap g2 !! t = Some tr ∧ closed tr = false) →
  (∀ sid, registered sid (transports g) = None →
          servers (requestListener path "POST" sid g) = S (servers g)
          ∧ heap (requestListener path "POST" sid g)
            = heap g ++ [mkTransport None false (servers g)])
  ∧ filter (λ e, e.1 = X) (JSMap.entries (transports g1)) = [(X, t)]
  ∧ filter (λ e, e.1 = X) (JSMap.entries (transports g2)) = [(X, t)]
  ∧ JSMap.get X (transports g2) = Some t
  ∧ requestListener path "POST" (Some X) g2
    = set_exchanges
        (exchanges g2 ++ [mkExchange "POST" (AwaitBody t "") freshResponse]) g2
  ∧ (∀ m, m = "GET" ∨ m = "DELETE" →
          requestListener path m (Some X) g2
          = set_exchanges
              (exchanges g2 ++ [mkExchange m (AwaitHandle t) freshResponse])
              (emit (HandleRequest t (length (exchanges g2)) None) g2)).
Proof.
  intros Hreach Hx Hpc Hstep Hrun (tr2 & Ht2 & Hopen2).
  pose proof (reachable_inv _ _ _ _ Hreach) as Hinv.
  pose proof (step_inv _ _ _ _ _ _ Hinv Hstep) as Hinv1.
  pose proof (run_inv _ _ _ _ _ _ Hinv1 Hrun) as Hinv2.
  pose proof (step_shape _ _ _ _ _ _ (inv_store _ Hinv) Hstep) as Hs.
  apply Shape_init_inv in Hs
    as (x0 & t0 & tr & Hx0 & Hpc0 & Ht0 & Hnone & Hopen & Hid & Em & Eh & Es & Ex).
  assert (t0 = t) as -> by congruence.
  assert (JSMap.get X (transports g1) = Some t) as Hget1.
  { rewrite Em. apply jsmap_get_set_eq. }
  assert (∃ tr1, heap g1 !! t = Some tr1 ∧ sessionId tr1 = Some X) as (tr1 & Ht1 & Hid1).
  { apply (ok_registry _ _ (inv_store _ Hinv1)) in Hget1 as (tr1 & ? & ? & _).
    by exists tr1. }
  destruct (run_forward _ _ _ _ _ Hinv1 Hrun Ht1) as (tr2' & Ht2' & _ & Hkeep & _).
  assert (tr2' = tr2) as -> by congruence.
  assert (JSMap.get X (transports g2) = Some t) as Hget2.
  { apply (ok_registry _ _ (inv_store _ Hinv2)). exists tr2. auto. }
  split_and!.
  - intros sid Hreg. unfold requestListener, handleMcpRequest.
    rewrite String.eqb_refl. cbn [String.eqb Ascii.eqb Bool.eqb].
    by rewrite Hreg.
  - apply count_NoDup_entry; [apply Hinv1|done].
  - apply count_NoDup_entry; [apply Hinv2|done].
  - done.
  - by apply request_registered_post.
  - intros m Hm. by apply request_registered_read.
Qed.
End Session.

(** The claim without the proviso fails: once the transport of [u1] has
    closed, a POST that carries [u1] is not handed to transport 0; the
    factory is called again and the exchange waits on transport 1. *)
Lemma reuse_fails_after_close :
  JSMap.get "u1" (transports (after one_session)) = Some 0
  ∧ demo_run (after one_session) [EvClosed 0] = Some (after (one_session ++ [EvClosed 0]))
  ∧ JSMap.get "u1" (transports (after (one_session ++ [EvClosed 0]))) = None
  ∧ servers (requestListener None "/mcp" "POST" (Some "u1")
               (after (one_session ++ [EvClosed 0])))
    = S (servers (after (one_session ++ [EvClosed 0])))
  ∧ exchanges (requestListener None "/mcp" "POST" (Some "u1")
                 (after (one_session ++ [EvClosed 0]))) !! 1
    = Some (mkExchange "POST" (AwaitConnect 1) freshResponse).
Proof. vm_compute. by split_and!. Qed.

(** ** Iterating over the registry while it is emptied *)

Section JSMapIteration.
Context {V : Type}.
Implicit Types (m pre rest : JSMap.t V) (k : string) (v : V).

Lemma jsmap_entries_app m1 m2 :
  JSMap.entries (m1 ++ m2) = JSMap.entries m1 ++ JSMap.entries m2.
Proof.
  unfold JSMap.entries. induction m1 as [|[e|] m1 IH]; cbn; by rewrite ?IH.
Qed.

Lemma jsmap_entries_holes n : JSMap.entries (replicate n (@None (string * V))) = [].
Proof. unfold JSMap.entries. induction n; cbn; done. Qed.

Lemma jsmap_skip_exhausted i rest :
  JSMap.entries rest = [] → JSMap.skip i rest = None.
Proof.
  unfold JSMap.entries. revert i.
  induction rest as [|[[k v]|] rest IH]; intros i; cbn; try done. apply IH.
Qed.

Lemma jsmap_skip_first i rest k v es :
  JSMap.entries rest = (k, v) :: es →
  ∃ n rest', rest = replicate n None ++ Some (k, v) :: rest'
             ∧ JSMap.entries rest' = es
             ∧ JSMap.skip i rest = Some (v, S (i + n)).
Proof.
  unfold JSMap.entries. revert i.
  induction rest as [|[[k1 v1]|] rest IH]; intros i; cbn; try done.
  - intros [= -> -> <-]. exists 0, rest. by rewrite Nat.add_0_r.
  - intros H. destruct (IH (S i) H) as (n & rest' & -> & Hes & Hskip).
    exists (S n), rest'. split_and!; try done. rewrite Hskip. do 2 f_equal. lia.
Qed.

Lemma jsmap_next_app pre rest :
  JSMap.next (length pre) (pre ++ rest) = JSMap.skip (length pre) rest.
Proof. unfold JSMap.next. by rewrite drop_app_length. Qed.

Lemma jsmap_delete_here k v pre rest :
  k ∉ JSMap.keys pre →
  JSMap.delete k (pre ++ Some (k, v) :: rest) = pre ++ None :: rest.
Proof.
  unfold JSMap.keys, JSMap.entries.
  induction pre as [|[[k1 v1]|] pre IH]; cbn.
  - intros _. by rewrite decide_True.
  - rewrite not_elem_of_cons. intros [Hne Hnin].
    rewrite decide_False by done. by rewrite IH.
  - intros Hnin. by rewrite IH.
Qed.
End JSMapIteration.

(** ** [stop] *)

Section Stop.
Context {Value : Type}.
Variable JSON_parse : string -> option Value.
Variable opt_port : option Z.
Variable opt_path : option string.

Local Abbreviation Gateway := (Gateway Value).
Local Abbreviation Action := (Action Value).
Local Abbreviation step := (step JSON_parse opt_port opt_path).
Local Abbreviation run := (run JSON_parse opt_port opt_path).
Local Abbreviation reachable := (reachable JSON_parse opt_port opt_path).

(** What closing the registered transports [es], in order, adds to the
    trace: the call of [close] and the log line of [onclose]. *)
Definition closes (es : list (string * nat)) : list Action :=
  flat_map (λ e, [Close e.2; Log ("Session closed: " +:+ e.1)]) es.

Lemma stop_loop_settled (g : Gateway) fuel :
  stopP g ≠ Some Pending → stop_loop fuel g = g.
Proof. destruct fuel; [done|]. cbn. by destruct (stopP g) as [[]|]. Qed.

Lemma stop_loop_spec es : ∀ (g : Gateway) pre rest fuel,
  store_ok (transports g) (heap g) →
  transports g = pre ++ rest → JSMap.entries pre = [] →
  stopIter g = length pre → JSMap.entries rest = es →
  stopP g = Some Pending → length es ≤ fuel →
  let g' := stop_loop fuel (stop_resume g) in
  stopP g' = Some Fulfilled
  ∧ trace g' = trace g ++ closes es ++ [ListenerClose; Resolve "stop"]
  ∧ JSMap.entries (transports g') = []
  ∧ (∀ t tr, heap g !! t = Some tr →
             ∃ tr', heap g' !! t = Some tr' ∧ sessionId tr' = sessionId tr
                    ∧ closed tr' = closed tr || bool_decide (t ∈ es.*2))
  ∧ servers g' = servers g ∧ exchanges g' = exchanges g
  ∧ startP g' = startP g
  ∧ listener g' = match listener g with Listening => Closed | l => l end
  ∧ run (stop_resume g) (repeat EvStopResume (length es)) = Some g'.
Proof.
  induction es as [|[k t] es IH]; intros g pre rest fuel Hok Hm Hpre Hi Hes HP Hfuel.
  - cbn zeta.
    assert (stop_resume g
            = emit (Resolve "stop") (set_stopP (Some Fulfilled) (httpServer_close g)))
      as ->.
    { unfold stop_resume. rewrite Hm, Hi, jsmap_next_app.
      by rewrite jsmap_skip_exhausted. }
    rewrite stop_loop_settled by done. cbn.
    split_and!; try done.
    + by rewrite <- !app_assoc.
    + change (JSMap.entries (transports g) = []).
      by rewrite Hm, jsmap_entries_app, Hpre, Hes.
    + intros t tr Ht. exists tr. by rewrite orb_false_r.
  - destruct (jsmap_skip_first (length pre) _ _ _ _ Hes)
      as (n & rest' & -> & Hes' & Hskip).
    assert (JSMap.get k (transports g) = Some t) as Hget.
    { apply jsmap_entries_get; [apply Hok|].
      rewrite Hm, !jsmap_entries_app, Hpre, jsmap_entries_holes. cbn.
      apply list_elem_of_here. }
    pose proof Hget as (tr & Ht & Hid & Hopen)%(ok_registry _ _ Hok).
    assert (k ≠ "") as Hk by (intros ->; by eapply (ok_nonempty _ _ Hok)).
    set (g0 := emit (Close t) (set_stopIter (S (length pre + n)) g)).
    assert (stop_resume g = closeTransport t g0) as Hres.
    { unfold stop_resume. by rewrite Hm, Hi, jsmap_next_app, Hskip. }
    assert (heap g0 !! t = Some tr) as Ht0 by done.
    destruct (closeTransport_fields g0 t tr Ht0 Hopen)
      as (Em & Eh & Es & Ex & El & EsP & EP & Ei & Et).
    rewrite <- Hres in Em, Eh, Es, Ex, El, EsP, EP, Ei, Et.
    rewrite Hid in Em, Eh, Et. apply truthy_Some in Hk. rewrite Hk in Em, Et.
    cbn in Em, Eh, Es, Ex, El, EsP, EP, Ei, Et.
    set (g1 := stop_resume g) in *.
    assert (transports g1 = (pre ++ replicate n None ++ [None]) ++ rest') as Hm1.
    { rewrite Em, Hm. rewrite (app_assoc pre).
      rewrite jsmap_delete_here.
      - by rewrite <- !app_assoc.
      - unfold JSMap.keys. rewrite jsmap_entries_app, Hpre, jsmap_entries_holes.
        apply not_elem_of_nil. }
    destruct fuel as [|fuel]; [cbn in Hfuel; lia|].
    assert (stop_loop (S fuel) g1 = stop_loop fuel (stop_resume g1)) as Hloop.
    { cbn. by rewrite EP, HP. }
    assert (store_ok (transports g1) (heap g1)) as Hok1.
    { rewrite Em, Eh. pose proof (store_ok_close _ _ _ _ Hok Ht Hopen) as H.
      by rewrite Hid, Hk in H. }
    destruct (IH g1 (pre ++ replicate n None ++ [None]) rest' fuel)
      as (IP & It & Ie & Ih & Is & Ix & IsP & Il & Irun); try done.
    { by rewrite !jsmap_entries_app, Hpre, jsmap_entries_holes. }
    { rewrite Ei, !length_app, length_replicate. cbn. lia. }
    { by rewrite EP. }
    { cbn in Hfuel. lia. }
    cbn zeta. rewrite Hloop. split_and!.
    + done.
    + rewrite It, Et. cbn. by rewrite <- !app_assoc.
    + done.
    + intros t0 tr0 Ht0'.
      destruct (decide (t0 = t)) as [->|Hne].
      * assert (tr0 = tr) as -> by congruence.
        destruct (Ih t (mkTransport (Some k) true (server tr))) as (tr' & Ht' & Hid' & Hc').
        { rewrite Eh. apply list_lookup_insert_eq. by eapply lookup_lt_Some. }
        exists tr'. split_and!; try done; [by rewrite Hid', Hid|].
        rewrite Hc'. cbn. rewrite Hopen. cbn.
        symmetry. apply bool_decide_eq_true_2, list_elem_of_here.
      * destruct (Ih t0 tr0) as (tr' & Ht' & Hid' & Hc').
        { rewrite Eh. by rewrite list_lookup_insert_ne. }
        exists tr'. split_and!; try done. rewrite Hc'. f_equal. cbn.
        apply bool_decide_ext. rewrite elem_of_cons.
        split; [by right|by intros [?|?]].
    + by rewrite Is.
    + by rewrite Ix.
    + by rewrite IsP.
    + by rewrite Il, El.
    + cbn -[stop_resume]. by rewrite EP, HP.
Qed.

Lemma jsmap_entries_length {V} (m : JSMap.t V) :
  length (JSMap.entries m) ≤ length m.
Proof.
  unfold JSMap.entries. induction m as [|[e|] m IH]; cbn; lia.
Qed.

Lemma closes_elem (es : list (string * nat)) k t :
  (k, t) ∈ es → Close t ∈ closes es.
Proof.
  intros Hin. unfold closes. apply list_elem_of_In, in_flat_map.
  exists (k, t). split; [by apply list_elem_of_In|]. by left.
Qed.

(** C4.  [stop()], called in a state the gateway can reach and run
    with nothing else in between, resolves.  It calls [close] on every
    transport of the registry, one after the other, each close being
    over (its [onclose] has fired) before the next call; only after the
    last of them does it close the listener, and only after that is
    its promise fulfilled.  Afterwards exactly the transports that
    were registered have become closed, and the registry has no
    entry.  With an empty registry it logs, closes the listener and
    resolves.  The run loop reaches the same state by [EvStop] and one
    [EvStopResume] per registered transport. *)
Theorem stop_closes_all_then_listener (g : Gateway) :
  reachable g →
  stopP (stop g) = Some Fulfilled
  ∧ trace (stop g)
    = trace g ++ [Log "Shutting down..."]
      ++ closes (JSMap.entries (transports g))
      ++ [ListenerClose; Resolve "stop"]
  ∧ (∀ t, t ∈ JSMap.values (transports g) →
          Close t ∈ trace (stop g)
          ∧ ∃ tr', heap (stop g) !! t = Some tr' ∧ closed tr' = true)
  ∧ (∀ t tr, heap g !! t = Some tr →
             ∃ tr', heap (stop g) !! t = Some tr'
                    ∧ closed tr'
                      = closed tr || bool_decide (t ∈ JSMap.values (transports g)))
  ∧ JSMap.entries (transports (stop g)) = []
  ∧ listener (stop g) = match listener g with Listening => Closed | l => l end
  ∧ (JSMap.entries (transports g) = [] →
     trace (stop g)
     = trace g ++ [Log "Shutting down..."; ListenerClose; Resolve "stop"])
  ∧ (stopP g = None →
     run g (EvStop :: repeat EvStopResume (length (JSMap.entries (transports g))))
     = Some (stop g)).
Proof.
  intros Hinv%reachable_inv. pose proof (inv_store _ Hinv) as Hok.
  set (g0 := set_stopIter 0 (set_stopP (Some Pending)
                               (emit (Log "Shutting down...") g))).
  destruct (stop_loop_spec (JSMap.entries (transports g)) g0 [] (transports g)
              (length (transports g)))
    as (HP & Ht & He & Hh & Hs & Hx & HsP & Hl & Hrun); try done.
  { apply jsmap_entries_length. }
  change (stop_loop (length (transports g)) (stop_resume g0)) with (stop g) in *.
  cbn in Ht, Hh, Hl.
  assert (∀ t, t ∈ JSMap.values (transports g) →
               ∃ k tr, (k, t) ∈ JSMap.entries (transports g)
                       ∧ heap g !! t = Some tr) as Hval.
  { intros t (e & -> & Hin)%list_elem_of_fmap. destruct e as [k t].
    exists k. pose proof Hin as Hget%jsmap_entries_get; [|apply Hok].
    apply (ok_registry _ _ Hok) in Hget as (tr & ? & _). by exists tr. }
  split_and!.
  - done.
  - rewrite Ht. by rewrite <- !app_assoc.
  - intros t Hin. destruct (Hval t Hin) as (k & tr & Hk & Htr). split.
    + rewrite Ht. apply elem_of_app. right. apply elem_of_app. left.
      by eapply closes_elem.
    + destruct (Hh t tr Htr) as (tr' & Htr' & _ & Hc). exists tr'. split; [done|].
      rewrite Hc. rewrite (bool_decide_eq_true_2 _ Hin). apply orb_true_r.
  - intros t tr Htr. destruct (Hh t tr Htr) as (tr' & Htr' & _ & Hc). by exists tr'.
  - done.
  - done.
  - intros Hempty. rewrite Ht, Hempty. cbn. by rewrite <- !app_assoc.
  - intros Hnone. cbn -[stop_resume stop repeat]. by rewrite Hnone.
Qed.
End Stop.

(** ** Reading the body *)

Section Body.
Context {Value : Type}.
Variable JSON_parse : string -> option Value.
Variable opt_port : option Z.
Variable opt_path : option string.

Local Abbreviation Gateway := (Gateway Value).
Local Abbreviation Action := (Action Value).
Local Abbreviation step := (step JSON_parse opt_port opt_path).
Local Abbreviation run := (run JSON_parse opt_port opt_path).
Local Abbreviation reachable := (reachable JSON_parse opt_port opt_path).

(** Line 28, chunk after chunk: every chunk is decoded by itself. *)
Definition accumulate (body : string) (chunks : list Buffer.t) : string :=
  foldl (λ b chunk, b +:+ Buffer.toString chunk) body chunks.

(** The bytes of the whole body. *)
Definition content (chunks : list Buffer.t) : Buffer.t :=
  foldr (λ chunk rest, chunk +:+ rest) EmptyString chunks.

(** The gateway once the stream of exchange [r], held by transport
    [t], has ended with [body] accumulated. *)
Definition bodyEnded (r t : nat) (x : Exchange) (body : string) (g : Gateway)
  : Gateway :=
  match parseBody_end JSON_parse body with
  | Some b =>
      set_exchanges (<[r := mkExchange (method x) (AwaitHandle t) (res x)]> (exchanges g))
                    (emit (HandleRequest t r b) g)
  | None =>
      set_exchanges (<[r := mkExchange (method x) Finished (onCatch (res x))]> (exchanges g))
                    (emit (LogError "Error handling request:") g)
  end.

Lemma step_data (g : Gateway) r x t body chunk :
  exchanges g !! r = Some x → pc x = AwaitBody t body →
  step g (EvData r chunk)
  = Some (set_exchanges
            (<[r := mkExchange (method x) (AwaitBody t (body +:+ Buffer.toString chunk))
                               (res x)]>
               (exchanges g)) g).
Proof.
  intros Hx Hpc. cbn. unfold resume, leg. by rewrite Hx, Hpc.
Qed.

Lemma step_end (g : Gateway) r x t body :
  exchanges g !! r = Some x → pc x = AwaitBody t body →
  step g (EvEnd r) = Some (bodyEnded r t x body g).
Proof.
  intros Hx Hpc. cbn. unfold resume, leg, afterBody, bodyEnded.
  rewrite Hx, Hpc. by destruct (parseBody_end JSON_parse body).
Qed.

Lemma run_stream chunks : ∀ (g : Gateway) r x t body,
  exchanges g !! r = Some x → pc x = AwaitBody t body →
  run g (map (EvData r) chunks ++ [EvEnd r])
  = Some (bodyEnded r t x (accumulate body chunks) g).
Proof.
  induction chunks as [|c chunks IH]; intros g r x t body Hx Hpc.
  - cbn [map app run]. by rewrite (step_end _ _ _ _ _ Hx Hpc).
  - cbn [map app run]. rewrite (step_data _ _ _ _ _ _ Hx Hpc).
    set (x1 := mkExchange (method x) (AwaitBody t (body +:+ Buffer.toString c)) (res x)).
    assert (r < length (exchanges g)) as Hlt by by eapply lookup_lt_Some.
    rewrite (IH _ r x1 t (body +:+ Buffer.toString c)); cbn;
      [|by apply list_lookup_insert_eq|done].
    f_equal. unfold bodyEnded. cbn.
    destruct (parseBody_end JSON_parse _); unfold set_exchanges, emit; cbn;
      by rewrite list_insert_insert_eq.
Qed.

Lemma accumulate_complete chunks : ∀ body,
  Forall (λ chunk, Buffer.complete chunk = true) chunks →
  accumulate body chunks = body +:+ Buffer.toString (content chunks).
Proof.
induction chunks as [|c chunks IH]; intros body Hc; cbn [accumulate foldl content foldr].
- by rewrite append_empty_r.
- apply Forall_cons in Hc as [Hc Hcs].
  change (foldl _ ?b chunks) with (accumulate b chunks).
  change (foldr _ _ chunks) with (content chunks).
  by rewrite (IH _ Hcs), (toString_append _ _ Hc), append_assoc.
Qed.

(** X20.  Let an exchange of a reachable state stand at the start of
    [parseBody], and let its request stream deliver any chunks and
    end.  The body is the text of the chunks, each decoded by itself.
    If it is empty, [handleRequest] is called with [undefined],
    whatever [JSON.parse] would do with the empty text.  If it is not
    empty and [JSON.parse] fails, the failure reaches the [catch] of
    the listener: no call is made, the error is logged and the response
    is the 500 envelope.  If it parses to [v], [handleRequest] is
    called with [v] itself.  When no chunk ends inside a character, the
    body is the decoded text of the whole content. *)
Theorem body_collection (g : Gateway) (r t : nat) (x : Exchange)
    (chunks : list Buffer.t) :
  reachable g →
  exchanges g !! r = Some x → pc x = AwaitBody t "" →
  run g (map (EvData r) chunks ++ [EvEnd r])
  = Some
      (let body := accumulate "" chunks in
       if String.eqb body "" then
         set_exchanges
           (<[r := mkExchange (method x) (AwaitHandle t) freshResponse]> (exchanges g))
           (emit (HandleRequest t r None) g)
       else match JSON_parse body with
            | Some v =>
                set_exchanges
                  (<[r := mkExchange (method x) (AwaitHandle t) freshResponse]>
                     (exchanges g))
                  (emit (HandleRequest t r (Some v)) g)
            | None =>
                set_exchanges
                  (<[r := mkExchange (method x) Finished response500]> (exchanges g))
                  (emit (LogError "Error handling request:") g)
            end)
  ∧ (Forall (λ chunk, Buffer.complete chunk = true) chunks →
     accumulate "" chunks = Buffer.toString (content chunks)).
Proof.
  intros Hinv%reachable_inv Hx Hpc. split; [|apply accumulate_complete].
  rewrite (run_stream _ _ _ _ _ _ Hx Hpc). f_equal. cbn zeta.
  assert (res x = freshResponse) as Hres.
  { eapply inv_unsent; [done..|]. right. eauto. }
  unfold bodyEnded, parseBody_end. rewrite Hres.
  destruct (String.eqb _ ""); [done|]. by destruct (JSON_parse _).
Qed.

(** An exchange that is over without any call of [handleRequest]. *)
Definition silent (r : nat) (g : Gateway) : Prop :=
  (∃ x, exchanges g !! r = Some x ∧ pc x = Finished)
  ∧ ∀ t b, HandleRequest t r b ∉ trace g.

(** A transport without id that no exchange holds, that was never
    handed a request and on which [stop] never called [close]. *)
Definition orphan (t : nat) (g : Gateway) : Prop :=
  (∃ tr, heap g !! t = Some tr ∧ sessionId tr = None ∧ server tr = t)
  ∧ (∀ r x, exchanges g !! r = Some x → pc_transport (pc x) ≠ Some t)
  ∧ (∀ r b, HandleRequest t r b ∉ trace g)
  ∧ Close t ∉ trace g.

Lemma Shape_silent (g g' : Gateway) ev r :
  Shape g ev g' → silent r g → silent r g'.
Proof.
  intros Hs [(x & Hx & Hpc) Hnone].
  assert (exchanges g' !! r = Some x) as Hx'.
  { destruct (Shape_exchange_forward _ _ _ _ _ Hs Hx) as (x' & Hx' & [->|Hn]); [done|].
    rewrite Hpc in Hn. by inversion Hn. }
  split; [by exists x|].
  intros t b Hin. destruct (Shape_trace _ _ _ Hs) as (l & Et & Hq).
  rewrite Et in Hin. apply elem_of_app in Hin as [Hin|Hin]; [by eapply Hnone|].
  rewrite Forall_forall in Hq.
  destruct (Hq _ Hin)
    as [Hquiet|[(? & ? & ? & _)|(t1 & r1 & b1 & x1 & Heq & Hx1 & Hpc1)]];
    [done|done|].
  injection Heq as <- <- <-. congruence.
Qed.

Lemma Shape_orphan (g g' : Gateway) ev t :
  inv g → Shape g ev g' → orphan t g → orphan t g'.
Proof.
  intros Hinv Hs ((tr & Ht & Hid & Hsrv) & Hfree & Hcalls & Hclose).
  assert (∀ r x, exchanges g' !! r = Some x → pc_transport (pc x) ≠ Some t) as Hfree'.
  { intros r x Hx Hp.
    destruct (Shape_exchange_back _ _ _ _ _ Hs Hx)
      as [(x0 & Hx0 & _ & [->|[Hnext _]])|[-> Hcase]].
    - by eapply Hfree.
    - eapply Hfree; [done|]. by eapply pc_next_transport.
    - destruct Hcase as [Hf|[(id & t0 & Hget & Hk & _)|[Hk _]]].
      + by rewrite Hf in Hp.
      + assert (t0 = t) as -> by (destruct Hk as [Hk|Hk]; rewrite Hk in Hp; by simplify_eq/=).
        apply (ok_registry _ _ (inv_store _ Hinv)) in Hget as (tr0 & ? & ? & _).
        congruence.
      + rewrite Hk in Hp. simplify_eq/=. apply lookup_lt_Some in Ht. lia. }
  assert (∃ tr', heap g' !! t = Some tr' ∧ sessionId tr' = None ∧ server tr' = t)
    as Hheap.
  { destruct Hs as [ev g' l _ Em Eh Es Ex Et Hq
                   |pathname m sid rs g' Em Eh Es Ex Et
                   |pathname m id t0 k g' l Hget Em Eh Es Ex Et Hk
                   |pathname sid g' Em Eh Es Ex Et
                   |ev r0 x0 x0' g' l Htg Hev Hx0 Hnext Hmeth Hres Em Eh Es Ex Et Hq
                   |r0 x0 t0 tr0 id g' Hx0 Hpc Ht0 Hnone Hopen Hid0 Hfresh Em Eh Es Ex Et
                   |ev t0 tr0 g' l _ Ht0 Hopen Em Eh Es Ex Et Hq];
      rewrite Eh; try (by exists tr).
    - exists tr. split; [by apply lookup_app_l_Some|done].
    - destruct (decide (t0 = t)) as [->|Hne].
      + destruct (Hfree _ _ Hx0). by rewrite Hpc.
      + exists tr. by rewrite list_lookup_insert_ne.
    - destruct (decide (t0 = t)) as [->|Hne].
      + assert (tr0 = tr) as -> by congruence.
        eexists. rewrite list_lookup_insert_eq by by eapply lookup_lt_Some.
        done.
      + exists tr. by rewrite list_lookup_insert_ne. }
  destruct (Shape_trace _ _ _ Hs) as (l & Et & Hq). rewrite Forall_forall in Hq.
  split_and!; [done|done| |].
  - intros r b Hin. rewrite Et in Hin.
    apply elem_of_app in Hin as [Hin|Hin]; [by eapply Hcalls|].
    destruct (Hq _ Hin)
      as [Hquiet|[(? & ? & ? & _)|(t1 & r1 & b1 & x1 & Heq & Hx1 & Hpc1)]];
      [done|done|].
    injection Heq as <- <- <-. eapply Hfree'; [done|]. by rewrite Hpc1.
  - intros Hin. rewrite Et in Hin.
    apply elem_of_app in Hin as [Hin|Hin]; [done|].
    destruct (Hq _ Hin)
      as [Hquiet|[(t1 & tr1 & Heq & Ht1 & [k Hk])|(? & ? & ? & ? & ? & _)]];
      [done| |done].
    injection Heq as <-. congruence.
Qed.

Lemma run_silent_orphan evs : ∀ (g g' : Gateway) r,
  inv g → run g evs = Some g' →
  (silent r g → silent r g') ∧ (∀ t, orphan t g → orphan t g').
Proof.
  induction evs as [|ev evs IH]; intros g g' r Hinv Hrun; cbn in Hrun.
  - by simplify_eq.
  - destruct (step g ev) as [g1|] eqn:Hstep; [|done].
    pose proof (step_shape _ _ _ _ _ _ (inv_store _ Hinv) Hstep) as Hs.
    destruct (IH g1 g' r (step_inv _ _ _ _ _ _ Hinv Hstep) Hrun) as [IH1 IH2].
    split.
    + intros H. apply IH1. by eapply Shape_silent.
    + intros t H. apply IH2. by eapply Shape_orphan.
Qed.

(** The turns an exchange takes before it reaches [handleRequest]
    leave the registry as it is. *)
Lemma early_turns_keep_registry (g g' : Gateway) ev :
  match ev with
  | EvRequest _ _ _ | EvConnected _ _ | EvData _ _ | EvEnd _ | EvError _ => True
  | _ => False
  end →
  inv g → step g ev = Some g' → transports g' = transports g.
Proof.
  intros Hev Hinv Hstep.
  pose proof (step_shape _ _ _ _ _ _ (inv_store _ Hinv) Hstep) as Hs.
  destruct Hs as [ev g' l Hnr Em Eh Es Ex Et Hq
                 |pathname m sid rs g' Em Eh Es Ex Et
                 |pathname m id t0 k g' l Hget Em Eh Es Ex Et Hk
                 |pathname sid g' Em Eh Es Ex Et
                 |ev r0 x0 x0' g' l Htg Hni Hx0 Hnext Hmeth Hres Em Eh Es Ex Et Hq
                 |r0 x0 t0 tr0 id g' Hx0 Hpc Ht0 Hnone Hopen Hid0 Hfresh Em Eh Es Ex Et
                 |ev t0 tr0 g' l Hnr Ht0 Hopen Em Eh Es Ex Et Hq];
    try done; by destruct ev.
Qed.

(** C10.  Let a POST exchange of a reachable state stand in
    [parseBody] on the transport [t], and let its stream end with a
    body that is not empty and that [JSON.parse] rejects.  That turn
    only logs the error and answers 500: the registry is the same
    before and after, as it is across every earlier turn of an
    exchange, and no [handleRequest] is ever called for the exchange.
    When moreover [t] holds no id, which is the case exactly when the
    exchange made [t] because its request carried no registered id,
    the factory call, the new transport and [connect] are in the trace
    already, and in every later state [t] still has no id, is no value
    of the registry, has been handed no request, and [stop] has never
    called [close] on it. *)
Theorem parse_failure_abandons_engine (g g3 g4 : Gateway) (r t : nat)
    (x : Exchange) (body : string) (evs : list Event) :
  reachable g →
  exchanges g !! r = Some x → method x = "POST" → pc x = AwaitBody t body →
  body ≠ "" → JSON_parse body = None →
  step g (EvEnd r) = Some g3 →
  run g3 evs = Some g4 →
  g3 = set_exchanges (<[r := mkExchange "POST" Finished response500]> (exchanges g))
                     (emit (LogError "Error handling request:") g)
  ∧ transports g3 = transports g
  ∧ (∀ (g0 g0' : Gateway) ev,
       match ev with
       | EvRequest _ _ _ | EvConnected _ _ | EvData _ _ | EvEnd _ | EvError _ => True
       | _ => False
       end →
       reachable g0 → step g0 ev = Some g0' → transports g0' = transports g0)
  ∧ (∀ t' b, HandleRequest t' r b ∉ trace g4)
  ∧ (∀ tr, heap g !! t = Some tr → sessionId tr = None →
           (∃ l1 l2, trace g = l1 ++ [CreateServer t; NewTransport t; Connect t t] ++ l2)
           ∧ (∃ tr4, heap g4 !! t = Some tr4 ∧ sessionId tr4 = None)
           ∧ (t ∉ JSMap.values (transports g4))
           ∧ (Close t ∉ trace g4)
           ∧ ∀ r' b, HandleRequest t r' b ∉ trace g4).
Proof.
  intros Hreach Hx Hm Hpc Hbody Hparse Hstep Hrun.
  pose proof (reachable_inv _ _ _ _ Hreach) as Hinv.
  assert (res x = freshResponse) as Hres.
  { eapply inv_unsent; [done..|]. right. eauto. }
  assert (g3 = set_exchanges (<[r := mkExchange "POST" Finished response500]> (exchanges g))
                             (emit (LogError "Error handling request:") g)) as Hg3.
  { rewrite (step_end _ _ _ _ _ Hx Hpc) in Hstep. injection Hstep as <-.
    unfold bodyEnded, parseBody_end.
    rewrite (string_eqb_false _ _ Hbody), Hparse, Hres, Hm. done. }
  pose proof (step_inv _ _ _ _ _ _ Hinv Hstep) as Hinv3.
  pose proof (run_inv _ _ _ _ _ _ Hinv3 Hrun) as Hinv4.
  assert (r < length (exchanges g)) as Hlt by by eapply lookup_lt_Some.
  assert (silent r g3) as Hsilent.
  { rewrite Hg3. split; cbn.
    - eexists. by rewrite list_lookup_insert_eq.
    - intros t' b [Hin|Hin%list_elem_of_singleton]%elem_of_app; [|done].
      destruct (inv_handle _ Hinv _ _ _ Hin) as (_ & x' & Hx' & [?|?]); congruence. }
  destruct (run_silent_orphan _ _ _ r Hinv3 Hrun) as [Hkeep1 Hkeep2].
  split_and!.
  - done.
  - by rewrite Hg3.
  - intros g0 g0' ev Hev Hr0 Hs0.
    eapply early_turns_keep_registry; [done| |done]. by eapply reachable_inv.
  - apply Hkeep1, Hsilent.
  - intros tr Ht Hnone.
    destruct (inv_engine _ Hinv) as [_ Hsrv]. pose proof (Hsrv _ _ Ht) as Hsrvt.
    assert (orphan t g3) as Horphan.
    { rewrite Hg3. split_and!; cbn.
      - by exists tr.
      - intros r' x' Hx' Hp.
        destruct (decide (r = r')) as [<-|Hne].
        + rewrite list_lookup_insert_eq in Hx' by done. by simplify_eq.
        + rewrite list_lookup_insert_ne in Hx' by done.
          destruct Hne. eapply (inv_owner _ Hinv r r' x x' t tr); try done.
          by rewrite Hpc.
      - intros r' b [Hin|Hin%list_elem_of_singleton]%elem_of_app; [|done].
        eapply (inv_unhandled _ Hinv r x t tr); eauto.
      - intros [Hin|Hin%list_elem_of_singleton]%elem_of_app; [|done].
        destruct (inv_close _ Hinv _ Hin) as (tr' & ? & [k ?]). congruence. }
    destruct (Hkeep2 _ Horphan) as ((tr4 & Ht4 & Hid4 & _) & _ & Hcalls & Hclose).
    split_and!.
    + destruct (inv_made _ Hinv _ _ Ht) as (l1 & l2 & E).
      rewrite Hsrvt in E. by exists l1, l2.
    + by exists tr4.
    + intros (e & -> & Hin)%list_elem_of_fmap. destruct e as [k t'].
      apply jsmap_entries_get in Hin; [|apply Hinv4].
      apply (ok_registry _ _ (inv_store _ Hinv4)) in Hin as (tr' & ? & ? & _).
      cbn in *. congruence.
    + done.
    + done.
Qed.
End Body.

(** ** The statements at work on small runs *)

(** A POST without header, connected, about to read its body. *)
Definition reading : list Event :=
  [EvStart true; EvRequest "/mcp" "POST" None; EvConnected 0 true].

(** Two sessions, [u1] and [u2]. *)
Definition two_sessions : list Event :=
  one_session
  ++ [EvRequest "/mcp" "POST" None; EvConnected 1 true; EvEnd 1; EvSessionInit 1 "u2"].

Lemma after_reachable (evs : list Event) :
  demo_run initial evs = Some (after evs) →
  reachable demo_parse None None (after evs).
Proof. intros H. by exists evs. Defined.

Lemma other_verb_rejected_405_witness :
  "PUT" ≠ "POST" ∧ "PUT" ≠ "GET" ∧ "PUT" ≠ "DELETE"
  ∧ exchanges (requestListener None "/mcp" "PUT" None (after one_session)) !! 1
    = Some (mkExchange "PUT" Finished response405).
Proof.
  assert ("PUT" ≠ "POST") as H1 by discriminate.
  assert ("PUT" ≠ "GET") as H2 by discriminate.
  assert ("PUT" ≠ "DELETE") as H3 by discriminate.
  split_and!; [exact H1|exact H2|exact H3|].
  pose proof (other_verb_rejected_405 None (after one_session) "PUT" None H1 H2 H3) as E.
  change (path None) with "/mcp" in E. rewrite E. vm_compute. reflexivity.
Defined.

Lemma unknown_session_rejected_400_witness :
  JSMap.get "nope" (transports (after one_session)) = None
  ∧ exchanges (requestListener None "/mcp" "DELETE" (Some "nope") (after one_session)) !! 1
    = Some (mkExchange "DELETE" Finished response400).
Proof.
  assert (JSMap.get "nope" (transports (after one_session)) = None) as H
      by (vm_compute; reflexivity).
  split; [exact H|].
  pose proof (unknown_session_rejected_400 None (after one_session) "DELETE" (Some "nope")
                (or_intror eq_refl) (or_intror (ex_intro _ "nope" (conj eq_refl H)))) as E.
  change (path None) with "/mcp" in E. rewrite E. vm_compute. reflexivity.
Defined.

Lemma unknown_session_post_creates_witness :
  JSMap.get "nope" (transports (after one_session)) = None
  ∧ requestListener None "/mcp" "POST" (Some "nope") (after one_session)
    = requestListener None "/mcp" "POST" None (after one_session).
Proof.
  assert (JSMap.get "nope" (transports (after one_session)) = None) as H
      by (vm_compute; reflexivity).
  split; [exact H|].
  exact (proj1 (unknown_session_post_creates None (after one_session) "nope" H)).
Defined.

(** [handleRequest] fails after the transport has started the
    response: the 200 header stays, nothing more is written. *)
Lemma uncaught_failure_500_iff_unsent_witness :
  demo_step (after (one_session ++ [EvWriteHead 0 200%Z])) (EvHandled 0 false)
  = Some (set_exchanges
            [mkExchange "POST" Finished (writeHead 200 None freshResponse)]
            (emit (LogError "Error handling request:")
                  (after (one_session ++ [EvWriteHead 0 200%Z])))).
Proof.
  pose proof (uncaught_failure_500_iff_unsent demo_parse None None
                (after (one_session ++ [EvWriteHead 0 200%Z]))
                (after (one_session ++ [EvWriteHead 0 200%Z]))
                (EvHandled 0 false) 0
                (mkExchange "POST" (AwaitHandle 0) (writeHead 200 None freshResponse))
                (writeHead 200 None freshResponse)
                eq_refl) as E.
  rewrite E; [reflexivity| |]; vm_compute; reflexivity.
Defined.



Lemma registry_invariant_witness :
  reachable demo_parse None None (after two_sessions)
  ∧ NoDup (JSMap.keys (transports (after two_sessions))).
Proof.
  assert (reachable demo_parse None None (after two_sessions)) as H
      by (apply after_reachable; vm_compute; reflexivity).
  split; [exact H|].
  exact (proj1 (registry_invariant demo_parse None None _ H)).
Defined.

Lemma session_reused_while_open_witness :
  reachable demo_parse None None (after (reading ++ [EvEnd 0]))
  ∧ demo_step (after (reading ++ [EvEnd 0])) (EvSessionInit 0 "u1")
    = Some (after (reading ++ [EvEnd 0; EvSessionInit 0 "u1"]))
  ∧ demo_run (after (reading ++ [EvEnd 0; EvSessionInit 0 "u1"])) [EvHandled 0 true]
    = Some (after (reading ++ [EvEnd 0; EvSessionInit 0 "u1"; EvHandled 0 true]))
  ∧ JSMap.get "u1"
      (transports (after (reading ++ [EvEnd 0; EvSessionInit 0 "u1"; EvHandled 0 true])))
    = Some 0.
Proof.
  assert (reachable demo_parse None None (after (reading ++ [EvEnd 0]))) as H
      by (apply after_reachable; vm_compute; reflexivity).
  assert (demo_step (after (reading ++ [EvEnd 0])) (EvSessionInit 0 "u1")
          = Some (after (reading ++ [EvEnd 0; EvSessionInit 0 "u1"]))) as Hs
      by (vm_compute; reflexivity).
  assert (demo_run (after (reading ++ [EvEnd 0; EvSessionInit 0 "u1"])) [EvHandled 0 true]
          = Some (after (reading ++ [EvEnd 0; EvSessionInit 0 "u1"; EvHandled 0 true])))
    as Hr by (vm_compute; reflexivity).
  split_and!; [exact H|exact Hs|exact Hr|].
  assert (exchanges (after (reading ++ [EvEnd 0])) !! 0
          = Some (mkExchange "POST" (AwaitHandle 0) freshResponse)) as Hx
      by (vm_compute; reflexivity).
  assert (∃ tr, heap (after (reading ++ [EvEnd 0; EvSessionInit 0 "u1"; EvHandled 0 true]))
                !! 0 = Some tr ∧ closed tr = false) as Hopen
      by (exists (mkTransport (Some "u1") false 0); vm_compute; split; reflexivity).
  pose proof (session_reused_while_open demo_parse None None
                (after (reading ++ [EvEnd 0]))
                (after (reading ++ [EvEnd 0; EvSessionInit 0 "u1"]))
                (after (reading ++ [EvEnd 0; EvSessionInit 0 "u1"; EvHandled 0 true]))
                0 0 (mkExchange "POST" (AwaitHandle 0) freshResponse) "u1"
                [EvHandled 0 true] H Hx eq_refl Hs Hr Hopen) as E.
  exact (proj1 (proj2 (proj2 (proj2 E)))).
Defined.

Lemma stop_closes_all_then_listener_witness :
  reachable demo_parse None None (after two_sessions)
  ∧ trace (stop (after two_sessions))
    = trace (after two_sessions)
      ++ [Log "Shutting down..."; Close 0; Log "Session closed: u1";
          Close 1; Log "Session closed: u2"; ListenerClose; Resolve "stop"].
Proof.
  assert (reachable demo_parse None None (after two_sessions)) as H
      by (apply after_reachable; vm_compute; reflexivity).
  split; [exact H|].
  rewrite (proj1 (proj2 (stop_closes_all_then_listener demo_parse None None _ H))).
  vm_compute. reflexivity.
Defined.

Lemma body_collection_witness :
  reachable demo_parse None None (after reading)
  ∧ demo_run (after reading) [EvData 0 "{"; EvData 0 "}"; EvEnd 0]
    = Some (set_exchanges [mkExchange "POST" (AwaitHandle 0) freshResponse]
              (emit (HandleRequest 0 0 (Some 0)) (after reading))).
Proof.
  assert (reachable demo_parse None None (after reading)) as H
      by (apply after_reachable; vm_compute; reflexivity).
  split; [exact H|].
  assert (exchanges (after reading) !! 0
          = Some (mkExchange "POST" (AwaitBody 0 "") freshResponse)) as Hx
      by (vm_compute; reflexivity).
  pose proof (proj1 (body_collection demo_parse None None (after reading) 0 0
                       (mkExchange "POST" (AwaitBody 0 "") freshResponse) ["{"; "}"]
                       H Hx eq_refl)) as E.
  cbn [map app] in E. rewrite E. vm_compute. reflexivity.
Defined.

(** A POST without header whose body is [x]: the engine 0 it made is
    left behind, and a later [stop] does not close it. *)
Lemma parse_failure_abandons_engine_witness :
  reachable demo_parse None None (after (reading ++ [EvData 0 "x"]))
  ∧ demo_parse "x" = None
  ∧ demo_step (after (reading ++ [EvData 0 "x"])) (EvEnd 0)
    = Some (after (reading ++ [EvData 0 "x"; EvEnd 0]))
  ∧ demo_run (after (reading ++ [EvData 0 "x"; EvEnd 0])) [EvStop]
    = Some (after (reading ++ [EvData 0 "x"; EvEnd 0; EvStop]))
  ∧ Close 0 ∉ trace (after (reading ++ [EvData 0 "x"; EvEnd 0; EvStop])).
Proof.
  assert (reachable demo_parse None None (after (reading ++ [EvData 0 "x"]))) as H
      by (apply after_reachable; vm_compute; reflexivity).
  assert (demo_step (after (reading ++ [EvData 0 "x"])) (EvEnd 0)
          = Some (after (reading ++ [EvData 0 "x"; EvEnd 0]))) as Hs
      by (vm_compute; reflexivity).
  assert (demo_run (after (reading ++ [EvData 0 "x"; EvEnd 0])) [EvStop]
          = Some (after (reading ++ [EvData 0 "x"; EvEnd 0; EvStop]))) as Hr
      by (vm_compute; reflexivity).
  assert ("x" ≠ "") as Hne by discriminate.
  split_and!; [exact H|reflexivity|exact Hs|exact Hr|].
  assert (exchanges (after (reading ++ [EvData 0 "x"])) !! 0
          = Some (mkExchange "POST" (AwaitBody 0 "x") freshResponse)) as Hx
      by (vm_compute; reflexivity).
  assert (heap (after (reading ++ [EvData 0 "x"])) !! 0
          = Some (mkTransport None false 0)) as Ht
      by (vm_compute; reflexivity).
  pose proof (parse_failure_abandons_engine demo_parse None None
                (after (reading ++ [EvData 0 "x"]))
                (after (reading ++ [EvData 0 "x"; EvEnd 0]))
                (after (reading ++ [EvData 0 "x"; EvEnd 0; EvStop]))
                0 0 (mkExchange "POST" (AwaitBody 0 "x") freshResponse) "x" [EvStop]
                H Hx eq_refl eq_refl Hne eq_refl Hs Hr) as E.
  pose proof (proj2 (proj2 (proj2 (proj2 E))) (mkTransport None false 0) Ht eq_refl) as E'.
  exact (proj1 (proj2 (proj2 (proj2 E')))).
Defined.

(** ** A body cut inside a character *)

(** A stand-in for [JSON.parse] on the texts that are one string
    literal without escapes: the value is the text between the quotes.
    No other text is parsed with it here. *)
Fixpoint literal_body (s : string) : option string :=
  match s with
  | EmptyString => None
  | String c s' =>
      let n := nat_of_ascii c in
      if n =? 34 then (if String.eqb s' "" then Some EmptyString else None)
      else if (n =? 92) || (n <? 32) then None
      else option_map (String c) (literal_body s')
  end.

Definition literal_parse (s : string) : option string :=
  match s with
  | String c s' => if nat_of_ascii c =? 34 then literal_body s' else None
  | EmptyString => None
  end.

(** The JSON text of the one-letter string [e] with an acute accent,
    four bytes of which the letter is C3 A9, sent in two chunks that
    cut the letter in two. *)
Definition cut_first : Buffer.t := Buffer.of_bytes [34; 195].
Definition cut_second : Buffer.t := Buffer.of_bytes [169; 34].

(** C6.  The body of a POST is valid JSON, the four bytes of a string
    literal holding one accented letter.  Delivered in one chunk it
    reaches [handleRequest] as that letter.  Delivered in two chunks
    that cut the letter, it reaches [handleRequest] as two replacement
    characters: line 28 decodes each chunk by itself, so the content
    is not delivered unchanged. *)
Lemma split_character_reaches_handler_changed :
  Buffer.toString (cut_first +:+ cut_second) = Buffer.of_bytes [34; 195; 169; 34]
  ∧ literal_parse (Buffer.of_bytes [34; 195; 169; 34]) = Some (Buffer.of_bytes [195; 169])
  ∧ (∃ g, run literal_parse None None initial
            (reading ++ [EvData 0 (cut_first +:+ cut_second); EvEnd 0]) = Some g
          ∧ last (trace g) = Some (HandleRequest 0 0 (Some (Buffer.of_bytes [195; 169]))))
  ∧ (∃ g, run literal_parse None None initial
            (reading ++ [EvData 0 cut_first; EvData 0 cut_second; EvEnd 0]) = Some g
          ∧ last (trace g)
            = Some (HandleRequest 0 0 (Some (Buffer.replacement +:+ Buffer.replacement))))
  ∧ Buffer.replacement +:+ Buffer.replacement ≠ Buffer.of_bytes [195; 169].
Proof.
  split_and!; try (vm_compute; reflexivity); try (vm_compute; discriminate);
    eexists; split; vm_compute; reflexivity.
Qed.

(** * Further properties of the gateway *)

Definition response404 : ServerResponse :=
  mkResponse true (Some 404%Z) (Some "application/json")
    (Some (wire "{'error':'Not found'}")).

Section More.
Context {Value : Type}.
Variable JSON_parse : string -> option Value.
Variable opt_port : option Z.
Variable opt_path : option string.
Variable URL_pathname : string -> string -> option string.

Local Abbreviation Gateway := (Gateway Value).
Local Abbreviation Action := (Action Value).
Local Abbreviation step := (step JSON_parse opt_port opt_path).
Local Abbreviation run := (run JSON_parse opt_port opt_path).
Local Abbreviation reachable := (reachable JSON_parse opt_port opt_path).
Local Abbreviation requestListener := (requestListener opt_path).
Local Abbreviation path := (path opt_path).
Local Abbreviation leg := (leg JSON_parse).
Local Abbreviation onRequest := (onRequest opt_port opt_path URL_pathname).
Local Abbreviation urlBase := (urlBase opt_port).

Lemma jsmap_keys_delete_other {V} (k k' : string) (m : JSMap.t V) :
  k ≠ k' → k' ∈ JSMap.keys m → k' ∈ JSMap.keys (JSMap.delete k m).
Proof.
  intros Hne. rewrite !jsmap_key_get. intros [v Hv]. exists v.
  by rewrite jsmap_get_delete_ne.
Qed.

Lemma jsmap_keys_set_sub {V} (k k' : string) (v : V) (m : JSMap.t V) :
  k' ∈ JSMap.keys m → k' ∈ JSMap.keys (JSMap.set k v m).
Proof.
  rewrite !jsmap_key_get. intros [v' Hv'].
  destruct (decide (k = k')) as [->|Hne].
  - exists v. apply jsmap_get_set_eq.
  - exists v'. by rewrite jsmap_get_set_ne.
Qed.

(** X2.  A key leaves the registry only in a turn in which a channel
    closes (by itself, or closed by [stop]), and the key that leaves is
    the id of the transport that has just fired [onclose]: no request
    and no other turn of an exchange removes a session. *)
Theorem key_removed_only_by_close (g g' : Gateway) (ev : Event) (id : string) :
  reachable g → step g ev = Some g' →
  id ∈ JSMap.keys (transports g) → id ∉ JSMap.keys (transports g') →
  ((∃ t, ev = EvClosed t) ∨ ev = EvStop ∨ ev = EvStopResume)
  ∧ ∃ t tr tr', JSMap.get id (transports g) = Some t
                ∧ heap g !! t = Some tr ∧ closed tr = false
                ∧ heap g' !! t = Some tr' ∧ closed tr' = true.
Proof.
  intros Hinv%reachable_inv Hstep Hin Hnin.
  pose proof (inv_store _ Hinv) as Hok.
  pose proof (step_shape _ _ _ _ _ _ Hok Hstep) as Hs.
  destruct Hs as [ev g' l Hc Em Eh Es Ex Et Hq
                 |pathname m sid rs g' Em Eh Es Ex Et
                 |pathname m id0 t0 k g' l Hget Em Eh Es Ex Et Hk
                 |pathname sid g' Em Eh Es Ex Et
                 |ev r0 x0 x0' g' l Htg Hni Hx0 Hnext Hmeth Hres Em Eh Es Ex Et Hq
                 |r0 x0 t0 tr0 id0 g' Hx0 Hpc Ht0 Hnone Hopen Hid0 Hfresh Em Eh Es Ex Et
                 |ev t0 tr0 g' l Hc Ht0 Hopen Em Eh Es Ex Et Hq];
    rewrite Em in Hnin; try done.
  - destruct Hnin. by apply jsmap_keys_set_sub.
  - destruct (sessionId tr0) as [id0|] eqn:Hid0; [|done].
    destruct (truthy (Some id0)); [|done].
    destruct (decide (id0 = id)) as [->|Hne];
      [|destruct Hnin; by apply jsmap_keys_delete_other].
    split.
    + destruct ev; try done; [|eauto..].
      cbn in Hstep. destruct (listener g), (startP g); simplify_eq.
      destruct Hnin. rewrite <- Em. unfold start. by destruct (validPort _), bound.
    + exists t0, tr0. eexists. split_and!; try done.
      * apply (ok_registry _ _ Hok). by exists tr0.
      * rewrite Eh. apply list_lookup_insert_eq. by eapply lookup_lt_Some.
      * done.
Qed.

(** X3.  Once the transport that holds the id [X] has fired
    [onclose], [X] is never a key of the registry again: in every later
    state a GET or DELETE that carries [X] is answered 400, and a POST
    that carries [X] starts a new session with a new engine. *)
Theorem closed_session_never_accepted (g g' : Gateway) (t : nat) (tr : Transport)
    (X : string) (evs : list Event) :
  reachable g →
  heap g !! t = Some tr → sessionId tr = Some X → closed tr = true →
  run g evs = Some g' →
  JSMap.get X (transports g') = None
  ∧ (∀ m, m = "GET" ∨ m = "DELETE" →
          requestListener path m (Some X) g'
          = set_exchanges (exchanges g' ++ [mkExchange m Finished response400]) g')
  ∧ servers (requestListener path "POST" (Some X) g') = S (servers g').
Proof.
  intros Hinv%reachable_inv Ht Hid Hc Hrun.
  pose proof (run_inv _ _ _ _ _ _ Hinv Hrun) as Hinv'.
  destruct (run_forward _ _ _ _ _ _ _ _ Hinv Hrun Ht) as (tr' & Ht' & _ & Hkeep & Hcl).
  assert (JSMap.get X (transports g') = None) as Hget.
  { destruct (JSMap.get X (transports g')) as [t1|] eqn:Hget; [|done].
    apply (ok_registry _ _ (inv_store _ Hinv')) in Hget as (tr1 & Ht1 & Hid1 & Hopen1).
    assert (t1 = t) as ->.
    { eapply (ok_unique _ _ (inv_store _ Hinv') t1 t tr1 tr' X); auto. }
    specialize (Hcl Hc). congruence. }
  split_and!; [done| |].
  - intros m Hm. unfold requestListener, handleMcpRequest.
    rewrite String.eqb_refl, (registered_None (Some X)) by eauto.
    destruct Hm as [-> | ->]; reflexivity.
  - unfold requestListener, handleMcpRequest.
    rewrite String.eqb_refl. cbn [String.eqb Ascii.eqb Bool.eqb].
    by rewrite (registered_None (Some X)) by eauto.
Qed.

(** X4.  Engines and transports are made in pairs and never shared:
    in every reachable state the factory has been called once per
    transport, every transport was made by the sequence of lines 54-70
    (factory, constructor, [connect] of that engine to that transport),
    and two different transports are bound to different engines. *)
Theorem one_engine_per_transport (g : Gateway) :
  reachable g →
  servers g = length (heap g)
  ∧ (∀ t tr, heap g !! t = Some tr →
             ∃ l1 l2, trace g = l1 ++ [CreateServer (server tr); NewTransport t;
                                       Connect (server tr) t] ++ l2)
  ∧ (∀ t1 t2 tr1 tr2, heap g !! t1 = Some tr1 → heap g !! t2 = Some tr2 →
                      server tr1 = server tr2 → t1 = t2).
Proof.
  intros Hinv%reachable_inv. destruct (inv_engine _ Hinv) as [Hn Hsrv].
  split_and!; [done|apply Hinv|].
  intros t1 t2 tr1 tr2 H1 H2 Heq.
  rewrite <- (Hsrv _ _ H1), <- (Hsrv _ _ H2). done.
Qed.

Lemma leg_response (g g1 : Gateway) ev r x rs c :
  leg g ev r x = Some (g1, rs, c) →
  exchanges g1 = exchanges g ∧ (headersSent (res x) = true → rs = res x).
Proof.
  intros Hleg. unfold leg, afterBody in Hleg.
  destruct ev, (pc x); try done; repeat case_match; simplify_eq; cbn;
    split; (done || congruence).
Qed.

Lemma closeTransport_exchanges (g : Gateway) t :
  exchanges (closeTransport t g) = exchanges g.
Proof.
  unfold closeTransport, onclose. repeat case_match; done.
Qed.

Lemma stop_resume_exchanges (g : Gateway) :
  exchanges (stop_resume g) = exchanges g.
Proof.
  unfold stop_resume. destruct (JSMap.next _ _) as [[t i]|]; [|done].
  by rewrite closeTransport_exchanges.
Qed.

Lemma step_keeps_sent (g g' : Gateway) (ev : Event) (r : nat) (x : Exchange) :
  step g ev = Some g' →
  exchanges g !! r = Some x → headersSent (res x) = true →
  ∃ x', exchanges g' !! r = Some x' ∧ res x' = res x ∧ method x' = method x.
Proof.
  intros Hstep Hx Hsent.
  assert (∀ r0, target ev = Some r0 → resume r0 (leg g ev r0) g = Some g' →
                ∃ x', exchanges g' !! r = Some x' ∧ res x' = res x
                      ∧ method x' = method x) as Hres.
  { intros r0 _ Hr. unfold resume in Hr.
    destruct (exchanges g !! r0) as [x0|] eqn:Hx0; [|done].
    destruct (leg g ev r0 x0) as [[[g1 rs] c]|] eqn:Hleg; [|done].
    destruct (leg_response _ _ _ _ _ _ _ Hleg) as [Ex Hrs].
    destruct (settle_fields g1 (method x0) rs c)
      as (_ & _ & _ & Sx & _ & _ & _ & _ & Smeth & Sres).
    destruct (settle (method x0) rs c g1) as [x' g2] eqn:Hsettle.
    cbn [fst snd] in *. simplify_eq. cbn. rewrite Sx, Ex.
    destruct (decide (r0 = r)) as [->|Hne].
    - rewrite list_lookup_insert_eq by by eapply lookup_lt_Some.
      assert (x0 = x) as -> by congruence.
      exists x'. split_and!; try done.
      destruct c; cbn in Hsettle; simplify_eq; cbn; rewrite ?(Hrs Hsent); try done.
      unfold onCatch. by rewrite Hsent.
    - rewrite list_lookup_insert_ne by done. by exists x. }
  destruct ev; cbn [step target] in Hstep; try (by eapply Hres).
  - destruct (listener g), (startP g); simplify_eq. exists x.
    unfold start. by destruct (validPort _), bound.
  - destruct (listener g); simplify_eq;
      (pose proof (request_shape opt_path g pathname m sid) as Hs;
       exists x; split; [|done];
       inversion Hs as [| ? ? ? ? ? ? ? ? Ex | ? ? ? ? ? ? ? ? ? ? ? Ex
                        | ? ? ? ? ? ? Ex | | |]; subst;
       try done; rewrite Ex; by apply lookup_app_l_Some).
  - destruct (heap g !! t) as [tr|]; [|done].
    destruct (closed tr); simplify_eq. exists x.
    by rewrite closeTransport_exchanges.
  - destruct (stopP g); simplify_eq. exists x.
    unfold stop_begin. by rewrite stop_resume_exchanges.
  - destruct (stopP g) as [[]|]; simplify_eq. exists x.
    by rewrite stop_resume_exchanges.
Qed.

Lemma run_keeps_sent (evs : list Event) (g g' : Gateway) (r : nat) (x : Exchange) :
  run g evs = Some g' →
  exchanges g !! r = Some x → headersSent (res x) = true →
  ∃ x', exchanges g' !! r = Some x' ∧ res x' = res x ∧ method x' = method x.
Proof.
  revert g x. induction evs as [|ev evs IH]; intros g x Hrun Hx Hsent; cbn in Hrun.
  - simplify_eq. by exists x.
  - destruct (step g ev) as [g1|] eqn:Hstep; [|done].
    destruct (step_keeps_sent _ _ _ _ _ Hstep Hx Hsent) as (x1 & Hx1 & Hres & Hm).
    destruct (IH g1 x1 Hrun Hx1) as (x' & Hx' & Hres' & Hm'); [congruence|].
    exists x'. split_and!; [done|congruence|congruence].
Qed.

(** X5.  Once the header of a response has been sent, nothing that
    happens later changes that response: the [catch] of the listener
    writes its 500 only over an unsent header, and the 400, 404 and 405
    are written to the response of the arriving exchange only.  So a
    client never gets a second status for one request. *)
Theorem sent_response_is_kept (g g' : Gateway) (evs : list Event) (r : nat)
    (x : Exchange) :
  run g evs = Some g' →
  exchanges g !! r = Some x → headersSent (res x) = true →
  ∃ x', exchanges g' !! r = Some x' ∧ res x' = res x ∧ method x' = method x.
Proof. apply run_keeps_sent. Qed.

Lemma step_keeps_finished (g g' : Gateway) (ev : Event) (r : nat) (x : Exchange) :
  step g ev = Some g' →
  exchanges g !! r = Some x → pc x = Finished →
  exchanges g' !! r = Some x.
Proof.
  intros Hstep Hx Hpc.
  assert (∀ r0, target ev = Some r0 → resume r0 (leg g ev r0) g = Some g' →
                exchanges g' !! r = Some x) as Hres.
  { intros r0 _ Hr. unfold resume in Hr.
    destruct (exchanges g !! r0) as [x0|] eqn:Hx0; [|done].
    destruct (leg g ev r0 x0) as [[[g1 rs] c]|] eqn:Hleg; [|done].
    destruct (leg_response _ _ _ _ _ _ _ Hleg) as [Ex _].
    destruct (settle_fields g1 (method x0) rs c)
      as (_ & _ & _ & Sx & _ & _ & _ & _ & _ & _).
    destruct (settle (method x0) rs c g1) as [x' g2] eqn:Hsettle.
    cbn [fst snd] in *. simplify_eq. cbn. rewrite Sx, Ex.
    destruct (decide (r0 = r)) as [->|Hne].
    - assert (x0 = x) as -> by congruence.
      unfold leg in Hleg. rewrite Hpc in Hleg. by destruct ev.
    - by rewrite list_lookup_insert_ne. }
  destruct ev; cbn [step target] in Hstep; try (by eapply Hres).
  - destruct (listener g), (startP g); simplify_eq.
    unfold start. by destruct (validPort _), bound.
  - destruct (listener g); simplify_eq;
      (pose proof (request_shape opt_path g pathname m sid) as Hs;
       inversion Hs as [| ? ? ? ? ? ? ? ? Ex | ? ? ? ? ? ? ? ? ? ? ? Ex
                        | ? ? ? ? ? ? Ex | | |]; subst;
       try done; rewrite Ex; by apply lookup_app_l_Some).
  - destruct (heap g !! t) as [tr|]; [|done].
    destruct (closed tr); simplify_eq.
    by rewrite closeTransport_exchanges.
  - destruct (stopP g); simplify_eq.
    unfold stop_begin. by rewrite stop_resume_exchanges.
  - destruct (stopP g) as [[]|]; simplify_eq.
    by rewrite stop_resume_exchanges.
Qed.

Lemma run_keeps_finished (evs : list Event) (g g' : Gateway) (r : nat) (x : Exchange) :
  run g evs = Some g' →
  exchanges g !! r = Some x → pc x = Finished →
  exchanges g' !! r = Some x.
Proof.
  revert g. induction evs as [|ev evs IH]; intros g Hrun Hx Hpc; cbn in Hrun.
  - by simplify_eq.
  - destruct (step g ev) as [g1|] eqn:Hstep; [|done].
    eapply IH; [done| |done]. by eapply step_keeps_finished.
Qed.

(** X1.  A request whose target parses to a path other than the
    configured one is answered 404 with the body
    [{"error":"Not found"}], whatever its verb and its session header;
    nothing else in the gateway changes (a POST to another path makes
    no engine), and whatever happens afterwards the exchange keeps that
    404.  A request whose target does not parse is never answered:
    line 97 throws outside the [try], the error is caught by nothing,
    and the response of the exchange stays unwritten for good. *)
Theorem path_mismatch_404 (g : Gateway) (url : option string) (m : string)
    (sid : option string) :
  (∀ pathname,
     URL_pathname (requestTarget url) urlBase = Some pathname → pathname ≠ path →
     onRequest url m sid g
     = set_exchanges (exchanges g ++ [mkExchange m Finished response404]) g
     ∧ ∀ evs g', run (onRequest url m sid g) evs = Some g' →
                 ∃ x', exchanges g' !! length (exchanges g) = Some x'
                       ∧ res x' = response404 ∧ method x' = m)
  ∧ (URL_pathname (requestTarget url) urlBase = None →
     onRequest url m sid g
     = emit (UncaughtError "request")
            (set_exchanges (exchanges g ++ [mkExchange m Finished freshResponse]) g)
     ∧ ∀ evs g', run (onRequest url m sid g) evs = Some g' →
                 exchanges g' !! length (exchanges g)
                 = Some (mkExchange m Finished freshResponse)).
Proof.
  split.
  - intros pathname Hp Hne.
    assert (onRequest url m sid g
            = set_exchanges (exchanges g ++ [mkExchange m Finished response404]) g) as E.
    { unfold onRequest. rewrite Hp. unfold requestListener.
      by rewrite (string_eqb_false _ _ Hne). }
    split; [exact E|]. intros evs g' Hrun. rewrite E in Hrun.
    apply (run_keeps_sent _ _ _ _ (mkExchange m Finished response404) Hrun); [|done].
    by apply list_lookup_middle.
  - intros Hp.
    assert (onRequest url m sid g
            = emit (UncaughtError "request")
                   (set_exchanges (exchanges g ++ [mkExchange m Finished freshResponse]) g))
      as E by (unfold onRequest; by rewrite Hp).
    split; [exact E|]. intros evs g' Hrun. rewrite E in Hrun.
    apply (run_keeps_finished _ _ _ _ _ Hrun); [|done].
    by apply list_lookup_middle.
Qed.

Lemma jsmap_entries_none_get {V} (m : JSMap.t V) (k : string) :
  JSMap.entries m = [] → JSMap.get k m = None.
Proof.
  intros He. apply jsmap_get_None. unfold JSMap.keys. rewrite He.
  apply not_elem_of_nil.
Qed.

Lemma stop_on_empty (g : Gateway) :
  JSMap.entries (transports g) = [] →
  stop g
  = emit (Resolve "stop")
      (set_stopP (Some Fulfilled)
         (httpServer_close
            (set_stopIter 0 (set_stopP (Some Pending)
                               (emit (Log "Shutting down...") g))))).
Proof.
  intros He. unfold stop, stop_begin, stop_resume. cbn [transports stopIter set_stopIter
    set_stopP emit]. unfold JSMap.next. rewrite drop_0.
  rewrite (jsmap_skip_exhausted 0 _ He). by rewrite stop_loop_settled.
Qed.

Lemma stop_drains (g : Gateway) :
  reachable g → JSMap.entries (transports (stop g)) = [].
Proof.
  intros Hinv%reachable_inv.
  set (g0 := set_stopIter 0 (set_stopP (Some Pending)
                               (emit (Log "Shutting down...") g))).
  destruct (stop_loop_spec JSON_parse opt_port opt_path
              (JSMap.entries (transports g)) g0 [] (transports g)
              (length (transports g)))
    as (_ & _ & He & _); try done.
  - apply Hinv.
  - apply jsmap_entries_length.
Qed.

(** X6.  After [stop()] no session survives, and the gateway still
    answers what reaches it over connections that are open: a GET or a
    DELETE is answered 400 whatever id it carries, and a POST, with or
    without id, starts a new session with a new engine.  [stop] sets
    nothing that would turn a later request away. *)
Theorem after_stop_requests (g : Gateway) :
  reachable g →
  (∀ id, JSMap.get id (transports (stop g)) = None)
  ∧ (∀ m sid, m = "GET" ∨ m = "DELETE" →
              requestListener path m sid (stop g)
              = set_exchanges
                  (exchanges (stop g) ++ [mkExchange m Finished response400]) (stop g))
  ∧ (∀ sid, servers (requestListener path "POST" sid (stop g)) = S (servers (stop g))
            ∧ heap (requestListener path "POST" sid (stop g))
              = heap (stop g) ++ [mkTransport None false (servers (stop g))]).
Proof.
  intros Hr. pose proof (stop_drains _ Hr) as He.
  assert (∀ sid, registered sid (transports (stop g)) = None) as Hreg.
  { intros [id|]; [|done]. apply registered_None. right. exists id.
    split; [done|]. by apply jsmap_entries_none_get. }
  split_and!.
  - intros id. by apply jsmap_entries_none_get.
  - intros m sid Hm. unfold requestListener, handleMcpRequest.
    rewrite String.eqb_refl, Hreg. destruct Hm as [-> | ->]; reflexivity.
  - intros sid. unfold requestListener, handleMcpRequest.
    rewrite String.eqb_refl. cbn [String.eqb Ascii.eqb Bool.eqb].
    by rewrite Hreg.
Qed.

(** X7.  A second [stop()] closes nothing: it finds the registry
    empty, calls [close] on no transport, and only logs, closes the
    listener again and resolves; transports, engines and exchanges are
    those the first [stop()] left. *)
Theorem second_stop_closes_nothing (g : Gateway) :
  reachable g →
  stop (stop g)
  = mkGateway (transports (stop g)) (heap (stop g)) (servers (stop g))
      (exchanges (stop g))
      (match listener (stop g) with Listening => Closed | l => l end)
      (startP (stop g)) (Some Fulfilled) 0
      (trace (stop g) ++ [Log "Shutting down..."; ListenerClose; Resolve "stop"]).
Proof.
  intros Hr. rewrite (stop_on_empty (stop g)) by by apply stop_drains.
  unfold emit, set_stopP, httpServer_close, set_listener, set_stopIter; cbn.
  by rewrite <- !app_assoc.
Qed.
(** X18.  The gateway calls [close] only on a channel that has
    announced a session id.  A channel whose engine it made but which
    never got an id (the body of its POST did not parse, or its
    initialisation failed) is never closed by it. *)
Theorem close_called_on_sessions_only (g : Gateway) (t : nat) :
  reachable g → Close t ∈ trace g →
  ∃ tr, heap g !! t = Some tr ∧ is_Some (sessionId tr).
Proof. intros Hinv%reachable_inv. apply (inv_close _ Hinv). Qed.

(** X19.  Every call of [handleRequest] is made for an exchange that
    waits at line 74 or 86 or is over, and on a channel that exists.
    While the exchange that made a channel is still connecting or
    reading its body, nothing has been written to its response and the
    channel has been handed no request. *)
Theorem handle_request_discipline (g : Gateway) :
  reachable g →
  (∀ t r b, HandleRequest t r b ∈ trace g →
            t < length (heap g)
            ∧ ∃ x, exchanges g !! r = Some x
                   ∧ (pc x = AwaitHandle t ∨ pc x = Finished))
  ∧ (∀ r x t tr,
       exchanges g !! r = Some x →
       pc x = AwaitConnect t ∨ (∃ b, pc x = AwaitBody t b) →
       heap g !! t = Some tr → sessionId tr = None →
       res x = freshResponse ∧ ∀ r' b', HandleRequest t r' b' ∉ trace g).
Proof.
  intros Hinv%reachable_inv. split; [apply (inv_handle _ Hinv)|].
  intros r x t tr Hx Hpc Ht Hid. split.
  - apply (inv_unsent _ Hinv r x Hx). destruct Hpc as [?|[b ?]]; eauto.
  - by apply (inv_unhandled _ Hinv r x t tr).
Qed.
End More.

(** * Properties of the Pokemon helpers *)

Section ListIds.
Import PokeApi.

Fixpoint slashes (k : nat) : string :=
  match k with
  | 0 => EmptyString
  | S k' => String slash (slashes k')
  end.

Fixpoint slash_free (s : string) : bool :=
  match s with
  | EmptyString => true
  | String c s' => negb (Ascii.eqb c slash) && slash_free s'
  end.

Lemma split_nonempty s : split s ≠ [].
Proof.
induction s as [|c s IH]; cbn [split]; [done|].
destruct (Ascii.eqb c slash); [done|].
by destruct (split s).
Qed.

Lemma split_app s1 s2 : split (s1 +:+ String slash s2) = split s1 ++ split s2.
Proof.
induction s1 as [|c s1 IH]; rewrite ?append_empty, ?append_String; cbn [split].
- by rewrite Ascii.eqb_refl.
- destruct (Ascii.eqb c slash); [by rewrite IH|].
  rewrite IH. pose proof (split_nonempty s1) as Hn.
  by destruct (split s1).
Qed.

Lemma split_free seg : slash_free seg = true → split seg = [seg].
Proof.
induction seg as [|c s IH]; cbn [split slash_free]; [done|].
intros [Hc Hs]%andb_true_iff.
destruct (Ascii.eqb c slash); [done|].
by rewrite (IH Hs).
Qed.

Lemma split_slashes k : split (slashes k) = replicate (S k) EmptyString.
Proof.
induction k as [|k IH]; [done|].
cbn [slashes split]. by rewrite Ascii.eqb_refl, IH.
Qed.

Lemma split_slash_free s : Forall (λ seg, slash_free seg = true) (split s).
Proof.
induction s as [|c s IH]; cbn [split].
- by repeat constructor.
- destruct (Ascii.eqb c slash) eqn:Hc; [by constructor|].
  pose proof (split_nonempty s) as Hn.
  destruct (split s) as [|seg rest]; [done|].
  apply Forall_cons in IH as [Hseg Hrest].
  constructor; [|done]. cbn [slash_free]. by rewrite Hc, Hseg.
Qed.

Lemma concat_split s : String.concat (String slash EmptyString) (split s) = s.
Proof.
induction s as [|c s IH]; [done|].
cbn [split]. pose proof (split_nonempty s) as Hn.
destruct (Ascii.eqb c slash) eqn:Hc.
- apply Ascii.eqb_eq in Hc as ->.
  destruct (split s) as [|seg rest] eqn:Hs; [done|].
  by rewrite <- IH.
- destruct (split s) as [|seg rest] eqn:Hs; [done|].
  rewrite <- IH. by destruct rest.
Qed.

Lemma concat_empties k :
  String.concat (String slash EmptyString) (replicate (S k) EmptyString) = slashes k.
Proof.
induction k as [|k IH]; [done|].
change (replicate (S (S k)) EmptyString)
  with (EmptyString :: replicate (S k) EmptyString).
cbn [String.concat]. cbn [replicate] in *. by rewrite IH.
Qed.

Lemma split_segment seg k :
  slash_free seg = true → split (seg +:+ slashes k) = seg :: replicate k EmptyString.
Proof.
intros Hf. destruct k as [|k].
- cbn [slashes]. rewrite append_empty_r. by apply split_free.
- cbn [slashes]. by rewrite split_app, split_slashes, (split_free _ Hf).
Qed.

Lemma filter_empties k :
  filter (λ seg : string, seg ≠ EmptyString) (replicate k EmptyString) = [].
Proof.
induction k as [|k IH]; [done|].
cbn [replicate]. rewrite filter_cons_False by (intros H; by apply H). exact IH.
Qed.

Lemma empties l :
  Forall (λ seg : string, ¬ seg ≠ EmptyString) l → l = replicate (length l) EmptyString.
Proof.
induction 1 as [|seg l Hseg _ IH]; [done|].
cbn [length replicate]. rewrite <- IH. f_equal.
by destruct (decide (seg = EmptyString)).
Qed.

Lemma filter_snoc_inv {A} (P : A → Prop) `{!∀ x, Decision (P x)} l l' x :
  filter P l = l' ++ [x] →
  ∃ l1 l2, l = l1 ++ x :: l2 ∧ P x ∧ Forall (λ y, ¬ P y) l2.
Proof.
revert l'. induction l as [|y l IH] using rev_ind; intros l' Hf.
- by destruct l'.
- rewrite filter_app in Hf. destruct (decide (P y)) as [Hy|Hy].
  + rewrite (filter_cons_True _ _ _ Hy) in Hf. cbn in Hf.
    apply app_inj_tail in Hf as [_ ->].
    exists l, []. by repeat split.
  + rewrite (filter_cons_False _ _ _ Hy) in Hf. cbn in Hf.
    rewrite app_nil_r in Hf.
    destruct (IH _ Hf) as (l1 & l2 & -> & Hx & Hl2).
    exists l1, (l2 ++ [y]). rewrite <- app_assoc. repeat split; [done|].
    apply Forall_app. split; [done|]. by constructor.
Qed.

Lemma concat_cons_empties seg k :
  String.concat (String slash EmptyString) (seg :: replicate k EmptyString)
  = seg +:+ slashes k.
Proof.
destruct k as [|k]; [by rewrite append_empty_r|].
change (String.concat ?s (seg :: ?l))
  with (seg +:+ s +:+ String.concat s l).
by rewrite concat_empties.
Qed.

Lemma concat_before l1 rest :
  rest ≠ [] →
  ∃ pre, String.concat (String slash EmptyString) (l1 ++ rest)
         = pre +:+ String.concat (String slash EmptyString) rest
       ∧ (pre = EmptyString ∨ ∃ pre', pre = pre' +:+ String slash EmptyString).
Proof.
intros Hr. induction l1 as [|y l1 (pre & IH & Hpre)].
- exists EmptyString. by split; [|left].
- exists (y +:+ String slash pre). split.
  + assert (l1 ++ rest ≠ []) as Hn by (by destruct l1, rest).
    cbn [app]. destruct (l1 ++ rest) as [|z zs] eqn:Hz; [done|].
    change (String.concat ?s (y :: z :: zs))
      with (y +:+ s +:+ String.concat s (z :: zs)).
    by rewrite IH, !append_assoc.
  + right. destruct Hpre as [->|[pre' ->]].
    * by exists y.
    * exists (y +:+ String slash pre').
      by rewrite append_assoc.
Qed.

(** X8.  The id [fetchPokemonList] gives an entry is the last
    non-empty segment of its url: it is [seg] exactly when [seg] is not
    empty, holds no slash, and the url is [seg] followed by any number
    of slashes, after nothing or after a prefix that ends in a slash.
    So the id of [https://pokeapi.co/api/v2/pokemon/25/] is [25], with
    or without the final slash. *)
Theorem lastSegment_spec url seg :
  lastSegment url = Some seg ↔
    seg ≠ EmptyString ∧ slash_free seg = true ∧
    ∃ pre k, url = pre +:+ seg +:+ slashes k ∧
             (pre = EmptyString ∨ ∃ pre', pre = pre' +:+ String slash EmptyString).
Proof.
unfold lastSegment. split.
- intros [l' Hl]%last_Some.
  apply filter_snoc_inv in Hl as (l1 & l2 & Hs & Hne & Hl2).
  split; [done|]. split.
  { pose proof (split_slash_free url) as Hf. rewrite Hs in Hf.
    apply Forall_app in Hf as [_ Hf]. by apply Forall_cons in Hf as [? _]. }
  destruct (concat_before l1 (seg :: l2)) as (pre & Hc & Hpre); [done|].
  exists pre, (length l2). split; [|done].
  rewrite <- (concat_split url), Hs, Hc.
  by rewrite (empties _ Hl2), concat_cons_empties, length_replicate.
- intros (Hne & Hf & pre & k & -> & [->|[pre' ->]]).
  + rewrite append_empty, (split_segment _ _ Hf).
    rewrite (filter_cons_True (λ s : string, s ≠ EmptyString) seg _ Hne), filter_empties. done.
  + rewrite append_assoc, append_String, append_empty.
    rewrite split_app, (split_segment _ _ Hf), filter_app.
    rewrite (filter_cons_True (λ s : string, s ≠ EmptyString) seg _ Hne), filter_empties.
    apply last_snoc.
Qed.

(** X9.  The id of an entry is [undefined] exactly when its url is
    empty or made of slashes only; the declared type [string] of the
    id does not hold for such an entry. *)
Theorem lastSegment_undefined url :
  lastSegment url = None ↔ ∃ k, url = slashes k.
Proof.
unfold lastSegment. rewrite last_None. split.
- intros Hf. pose proof (split_nonempty url) as Hn.
  assert (Forall (λ seg : string, ¬ seg ≠ EmptyString) (split url)) as Ha.
  { apply Forall_forall. intros seg Hin Hne.
    assert (seg ∈ filter (λ seg : string, seg ≠ EmptyString) (split url)) as Hin'
      by (by apply list_elem_of_filter).
    rewrite Hf in Hin'. by apply elem_of_nil in Hin'. }
  apply empties in Ha. destruct (length (split url)) as [|k] eqn:Hlen.
  { by destruct (split url). }
  exists k. by rewrite <- (concat_split url), Ha, concat_empties.
- intros [k ->]. by rewrite split_slashes, filter_empties.
Qed.
End ListIds.

Section ObjectLemmas.
Context {V : Type}.
Implicit Types (o : JSObject.t V) (k : string) (v : V).

Lemma jsobject_get_put k v o : JSObject.get k (JSObject.put k v o) = Some v.
Proof.
induction o as [|[k' v'] o IH]; cbn [JSObject.put JSObject.get].
- by rewrite decide_True.
- destruct (decide (k' = k)) as [->|Hk]; cbn [JSObject.get].
  + by rewrite decide_True.
  + by rewrite decide_False.
Qed.

Lemma jsobject_get_put_other k k' v o :
  k' ≠ k → JSObject.get k' (JSObject.put k v o) = JSObject.get k' o.
Proof.
intros Hk. induction o as [|[k0 v0] o IH]; cbn [JSObject.put JSObject.get].
- by rewrite decide_False.
- destruct (decide (k0 = k)) as [->|Hk0]; cbn [JSObject.get].
  + by rewrite !decide_False.
  + by rewrite IH.
Qed.

Lemma jsobject_put_fresh k v o :
  k ∉ JSObject.keys o → JSObject.put k v o = o ++ [(k, v)].
Proof.
unfold JSObject.keys.
induction o as [|[k' v'] o IH]; cbn [JSObject.put fmap list_fmap app]; [done|].
intros [Hk Ho]%not_elem_of_cons. cbn in Hk.
rewrite decide_False by done. by rewrite IH.
Qed.

Lemma jsobject_values_named o :
  Forall (λ kv, JSObject.array_index kv.1 = None) o → JSObject.values o = o.*2.
Proof.
intros Hf. unfold JSObject.values.
assert (JSObject.indexed o = []) as ->.
{ unfold JSObject.indexed. induction Hf as [|kv o Hkv _ IH]; [done|].
  cbn [omap list_omap]. by rewrite Hkv. }
assert (JSObject.named o = o) as ->; [|done].
unfold JSObject.named. induction Hf as [|kv o Hkv _ IH]; [done|].
rewrite (filter_cons_True (λ kv : string * V, JSObject.array_index kv.1 = None) kv o Hkv).
f_equal. exact IH.
Qed.
End ObjectLemmas.

Section Stats.
Import PokeApi.
Context {Num : Type} (add : Num → Num → Num) (zero : Num).
Implicit Types (l : list (@StatEntry Num)) (k : string).

Lemma collectStats_snoc l s :
  collectStats (l ++ [s]) = JSObject.set (stat_name s) (base_stat s) (collectStats l).
Proof. unfold collectStats. by rewrite foldl_app. Qed.

Lemma set_proto (v : Num) o : JSObject.set "__proto__" v o = o.
Proof. reflexivity. Qed.

Lemma set_other k (v : Num) o : k ≠ "__proto__" → JSObject.set k v o = JSObject.put k v o.
Proof.
intros Hk. unfold JSObject.set.
destruct (String.eqb_spec k "__proto__"); [done|reflexivity].
Qed.

(** X10.  In the [stats] object that [fetchPokemon] and
    [fetchPokemonDetails] build, a name maps to the [base_stat] of the
    last entry of the response with that name, and has no property
    when no entry has it; an entry named [__proto__] leaves no
    property at all. *)
Theorem collectStats_lookup l k :
  JSObject.get k (collectStats l) =
    if decide (k = "__proto__") then None
    else base_stat <$> last (filter (λ s, stat_name s = k) l).
Proof.
induction l as [|s l IH] using rev_ind.
- by destruct (decide _).
- rewrite collectStats_snoc, filter_app.
  destruct (decide (stat_name s = "__proto__")) as [Hp|Hp].
  + rewrite Hp, set_proto, IH.
    destruct (decide (k = "__proto__")) as [->|Hk]; [done|].
    rewrite filter_cons_False by congruence.
    by rewrite filter_nil, app_nil_r.
  + rewrite (set_other _ _ _ Hp).
    destruct (decide (stat_name s = k)) as [<-|Hk].
    * rewrite jsobject_get_put, decide_False by done.
      rewrite filter_cons_True by done.
      by rewrite filter_nil, last_snoc.
    * rewrite jsobject_get_put_other by done. rewrite IH.
      rewrite filter_cons_False by done.
      by rewrite filter_nil, app_nil_r.
Qed.

Lemma collectStats_distinct l :
  NoDup (stat_name <$> l) →
  Forall (λ s, stat_name s ≠ "__proto__") l →
  collectStats l = (λ s, (stat_name s, base_stat s)) <$> l.
Proof.
induction l as [|s l IH] using rev_ind; intros Hnd Hp; [done|].
rewrite fmap_app in Hnd. apply NoDup_app in Hnd as (Hnd & Hs & _).
apply Forall_app in Hp as [Hp Hps]. apply Forall_cons in Hps as [Hps _].
rewrite collectStats_snoc, (set_other _ _ _ Hps), (IH Hnd Hp), fmap_app.
apply jsobject_put_fresh. unfold JSObject.keys.
rewrite <- list_fmap_compose. intros Hin. apply (Hs _ Hin). cbn. left.
Qed.

(** X11.  For a successful response whose stat names are distinct,
    none of them [__proto__] or an array index, [fetchPokemon] returns
    a Pokemon whose [stats] has the names as keys in the order of the
    response and whose [totalStats] is the sum of the [base_stat]
    values, added from 0 in that order. *)
Theorem totalStats_sums_base_stats (response : @Response Num) :
  ok response = true →
  NoDup (stat_name <$> body_stats (body response)) →
  Forall (λ s, stat_name s ≠ "__proto__" ∧ JSObject.array_index (stat_name s) = None)
         (body_stats (body response)) →
  ∃ p, fetchPokemon add zero response = Some p
     ∧ JSObject.keys (stats p) = stat_name <$> body_stats (body response)
     ∧ totalStats p = foldl add zero (base_stat <$> body_stats (body response)).
Proof.
intros Hok Hnd Hf. unfold fetchPokemon. rewrite Hok. cbn [negb].
eexists. split; [reflexivity|]. cbn [stats totalStats].
rewrite collectStats_distinct; [|done|by eapply Forall_impl; [exact Hf|intros ? []]].
split.
- unfold JSObject.keys. by rewrite <- list_fmap_compose.
- unfold total. rewrite jsobject_values_named.
  + by rewrite <- list_fmap_compose.
  + apply Forall_fmap. eapply Forall_impl; [exact Hf|]. by intros ? [].
Qed.

(** X12.  [fetchPokemonDetails] and [fetchPokemon] agree: on the
    same response, the details read as a [Pokemon] are what
    [fetchPokemon] returns, both return [null] exactly when the
    response is not [ok], and [sprites.front] of the details is their
    [sprite]. *)
Theorem details_extend_pokemon (response : @Response Num) :
  asPokemon <$> fetchPokemonDetails add zero response = fetchPokemon add zero response
  ∧ (fetchPokemon add zero response = None ↔ ok response = false)
  ∧ ∀ d, fetchPokemonDetails add zero response = Some d →
         sprites_front d = d_sprite d ∧ sprites_front d = sprite (asPokemon d).
Proof.
unfold fetchPokemonDetails, fetchPokemon.
destruct (ok response); cbn [negb fmap option_fmap option_map].
- split; [reflexivity|]. split; [by split|].
  by intros d [= <-].
- split; [reflexivity|]. split; [by split|]. by intros d.
Qed.
End Stats.

(** * Properties of the battle tool *)

Section BattleProperties.
Import PokeApi Battle.
Context {Num Score : Type} `{!ScoreOps Score}.
Context (toUpperCase : string → string) (show : option Num → string).

Local Abbreviation handler := (Battle.handler toUpperCase show).
Local Abbreviation Pokemon := (@PokeApi.Pokemon Num).
Implicit Types (f : option Pokemon) (d : Pokemon) (s : Score).

(** X13.  The battle tool answers with the error text exactly when
    one of the two Pokemon was not found, with one line per missing
    Pokemon, and with a report exactly when both were found; the casts
    of lines 50 and 51 never meet [null], so the handler does not
    throw there. *)
Theorem battle_refused_iff_missing pokemon1 pokemon2 f1 f2 s1 s2 :
  handler pokemon1 pokemon2 f1 f2 s1 s2 ≠ Throws
  ∧ ((∃ text, handler pokemon1 pokemon2 f1 f2 s1 s2 = Error text)
       ↔ f1 = None ∨ f2 = None)
  ∧ ((∃ r n, handler pokemon1 pokemon2 f1 f2 s1 s2 = Report r n)
       ↔ is_Some f1 ∧ is_Some f2)
  ∧ length (errors pokemon1 pokemon2 f1 f2)
      = length (filter (λ f, f = None) [f1; f2]).
Proof.
destruct f1 as [d1|], f2 as [d2|]; cbn.
all: split; [done|]; split; [|split; [|done]].
all: split.
all: try (by intros [? [=]]).
all: try (by intros (? & ? & [=])).
all: try (by intros [[=]|[=]]).
all: try (by intros [[? [=]] [? [=]]]).
all: try (by intros [[? [=]] _]).
all: try (by intros [_ [? [=]]]).
all: try (by intros _; eexists).
all: try (by intros _; eexists _, _).
all: try (by intros _; eauto).
Qed.

Lemma handler_report pokemon1 pokemon2 f1 f2 s1 s2 r n :
  handler pokemon1 pokemon2 f1 f2 s1 s2 = Report r n →
  ∃ d1 d2, f1 = Some d1 ∧ f2 = Some d2
    ∧ handler pokemon1 pokemon2 (Some d1) (Some d2) s1 s2 = Report r n.
Proof. destruct f1 as [d1|], f2 as [d2|]; try discriminate. eauto. Qed.

Lemma occurs_later (p t x : string) :
  (∃ before after_, t = before +:+ x +:+ after_) →
  ∃ before after_, p +:+ t = before +:+ x +:+ after_.
Proof.
intros (b & a & ->). exists (p +:+ b), a. by rewrite append_assoc.
Qed.

(** X17.  The narrative prompt names the winner of the report and
    calls the victory narrow exactly when the report says it was close:
    the two texts the tool returns agree. *)
Theorem narrative_names_reported_winner pokemon1 pokemon2 f1 f2 s1 s2 r n :
  handler pokemon1 pokemon2 f1 f2 s1 s2 = Report r n →
  ∃ before after_,
    n = before
          +:+ ("Winner: **" +:+ winner (result r) +:+ "** with a "
                 +:+ (if wasClose (result r) then "narrow" else "decisive")
                 +:+ " victory!")
          +:+ after_.
Proof.
intros (d1 & d2 & -> & -> & H)%handler_report.
cbn in H. injection H as <- <-. cbn [result winner wasClose].
unfold narrativePrompt. do 17 apply occurs_later.
eexists EmptyString, _. rewrite append_empty, !append_assoc. reflexivity.
Qed.

Context `{!Doubles Score}.

(** X14.  The result of a report is coherent for all scores, finite or
    not.  The margin is the absolute value of the difference of the two
    scores as the language computes it; [wasClose] holds and the
    victory is called narrow exactly when the margin is below 50, and
    decisive otherwise; the loser's score is not above the winner's.
    When one score is above the other or the two are the same value,
    winner and loser are the two fighters, each with its own score. *)
Theorem battle_result_consistent pokemon1 pokemon2 f1 f2 s1 s2 r n :
  handler pokemon1 pokemon2 f1 f2 s1 s2 = Report r n →
  f_battleScore (fighter1 r) = s1
  ∧ f_battleScore (fighter2 r) = s2
  ∧ margin (result r) = Math_abs (js_sub s1 s2)
  ∧ wasClose (result r) = js_lt (margin (result r)) fifty
  ∧ (victoryType (result r) = "narrow victory" ↔ js_lt (margin (result r)) fifty = true)
  ∧ (victoryType (result r) = "decisive victory"
     ↔ js_lt (margin (result r)) fifty = false)
  ∧ js_gt (loserScore (result r)) (winnerScore (result r)) = false
  ∧ (js_gt s1 s2 = true ∨ js_gt s2 s1 = true ∨ s1 = s2 →
     (winner (result r), winnerScore (result r), loser (result r), loserScore (result r))
       = (f_name (fighter1 r), s1, f_name (fighter2 r), s2)
     ∨ (winner (result r), winnerScore (result r), loser (result r), loserScore (result r))
       = (f_name (fighter2 r), s2, f_name (fighter1 r), s1)).
Proof.
intros (d1 & d2 & -> & -> & H)%handler_report.
cbn in H. injection H as <- _. cbn.
rewrite <- (abs_sub s1 s2).
split_and!; try done.
- by destruct (js_lt _ _).
- by destruct (js_lt _ _).
- apply min_max.
- intros [Hgt|[Hgt| ->]].
  + left. rewrite Hgt. by destruct (gt_max_min _ _ Hgt) as [-> ->].
  + right. rewrite (gt_asym _ _ Hgt), max_comm, min_comm.
    by destruct (gt_max_min _ _ Hgt) as [-> ->].
  + right. rewrite max_idem, min_idem.
    destruct (js_gt s2 s2) eqn:Hgt; [|done].
    by rewrite (gt_asym _ _ Hgt) in Hgt.
Qed.

(** X15.  When the two scores are the same value the second Pokemon is
    reported as the winner and the first as the loser.  For a finite
    score the margin is 0 and the victory narrow; for an infinite score
    or NaN the margin is NaN and the victory is called decisive. *)
Theorem battle_tie_goes_to_second pokemon1 pokemon2 d1 d2 s :
  ∃ r n, handler pokemon1 pokemon2 (Some d1) (Some d2) s s = Report r n
    ∧ winner (result r) = toUpperCase (name d2)
    ∧ loser (result r) = toUpperCase (name d1)
    ∧ winnerScore (result r) = s ∧ loserScore (result r) = s
    ∧ margin (result r) = (if is_finite s then zero else nan)
    ∧ victoryType (result r)
      = (if is_finite s then "narrow victory" else "decisive victory").
Proof.
eexists _, _. split; [reflexivity|]. cbn.
assert (js_gt s s = false) as ->.
{ destruct (js_gt s s) eqn:Hgt; [|done]. by rewrite (gt_asym _ _ Hgt) in Hgt. }
rewrite max_idem, min_idem, sub_self.
split_and!; try done.
destruct (is_finite s).
- by rewrite abs_zero, zero_lt_fifty.
- by rewrite abs_nan, nan_lt.
Qed.

(** X16.  Swapping the two Pokemon (with their scores) gives the same
    result exactly when one score is above the other or the two
    upper-cased names are the same.  So the order of the arguments
    decides the winner between different Pokemon whenever neither score
    is above the other: at a tie, and when a score is NaN. *)
Theorem battle_order_matters_only_at_tie pokemon1 pokemon2 d1 d2 s1 s2 :
  resultOf (handler pokemon2 pokemon1 (Some d2) (Some d1) s2 s1)
    = resultOf (handler pokemon1 pokemon2 (Some d1) (Some d2) s1 s2)
  ↔ js_gt s1 s2 = true ∨ js_gt s2 s1 = true
    ∨ toUpperCase (name d1) = toUpperCase (name d2).
Proof.
cbn. rewrite (max_comm s2 s1), (min_comm s2 s1).
rewrite (abs_sub s2 s1), (abs_sub s1 s2), (max_comm s2 s1), (min_comm s2 s1).
destruct (js_gt s1 s2) eqn:H12, (js_gt s2 s1) eqn:H21.
- by rewrite (gt_asym _ _ H12) in H21.
- split; [by left|done].
- split; [by right; left|done].
- split.
  + intros [= Hw _]. by right; right.
  + intros [?|[?|Hu]]; [done..|]. by rewrite Hu.
Qed.
End BattleProperties.

(** ** The laws hold of the doubles [Math.round] returns *)

Section RoundedLaws.
Import Rounded.
Local Open Scope Z_scope.

Lemma cmp_opp a b : cmp b a = CompOpp <$> cmp a b.
Proof.
destruct a as [| | | |z1], b as [| | | |z2]; try reflexivity;
  cbn [cmp fmap option_fmap option_map]; by rewrite Z.compare_antisym.
Qed.

Lemma cmp_refl a : a ≠ NaN → cmp a a = Some Eq.
Proof.
destruct a as [| | | |z]; try done. intros _. cbn [cmp]. by rewrite Z.compare_refl.
Qed.

Lemma nearest_nonneg n m : 0 ≤ n → nearest n = Some m → 0 ≤ m.
Proof.
unfold nearest. intros Hn. set (e := Z.log2 n - 52).
destruct (Z.leb_spec e 0) as [He|He]; [by intros [= <-]|].
assert (0 < 2 ^ e) by (apply Z.pow_pos_nonneg; lia).
assert (0 ≤ n / 2 ^ e) by (apply Z.div_pos; lia).
repeat case_match; intros [= <-]; nia.
Qed.

Lemma abs_rounded d : abs (rounded d) = rounded (Z.abs d).
Proof.
unfold rounded. rewrite Z.abs_idemp.
destruct (nearest (Z.abs d)) as [m|] eqn:Hm.
- pose proof (nearest_nonneg _ _ (Z.abs_nonneg d) Hm). cbn. f_equal. lia.
- destruct (d <? 0); cbn; by destruct (Z.ltb_spec (Z.abs d) 0); [lia|].
Qed.

Lemma rounded_0 : rounded 0 = Int 0.
Proof. reflexivity. Qed.

Lemma rounded_abs_sub a b : abs (sub a b) = sub (max a b) (min a b).
Proof.
destruct a as [| | | |z1], b as [| | | |z2]; try reflexivity;
  unfold max, min; cbn [cmp sub].
- (* -0 and z *)
  destruct (Z.compare_spec 0 z2) as [<-|H|H].
  + reflexivity.
  + cbn [sub]. destruct (Z.eqb_spec z2 0); [lia|]. rewrite abs_rounded. f_equal. lia.
  + cbn [sub]. destruct (Z.eqb_spec z2 0); [lia|]. rewrite abs_rounded. f_equal. lia.
- (* z and -0 *)
  rewrite abs_rounded. destruct (Z.compare_spec z1 0) as [->|H|H]; cbn [sub].
  + reflexivity.
  + destruct (Z.eqb_spec z1 0); [lia|]. f_equal. lia.
  + f_equal. lia.
- rewrite abs_rounded. destruct (Z.compare_spec z1 z2) as [->|H|H]; cbn [sub].
  + by rewrite Z.sub_diag.
  + f_equal. lia.
  + f_equal. lia.
Qed.
Lemma rounded_gt_max_min a b : gt a b = true → max a b = a ∧ min a b = b.
Proof. unfold gt, max, min. by destruct (cmp a b) as [[]|]. Qed.

Lemma rounded_gt_asym a b : gt a b = true → gt b a = false.
Proof. unfold gt. rewrite (cmp_opp a b). by destruct (cmp a b) as [[]|]. Qed.

Lemma cmp_Eq a b :
  cmp a b = Some Eq →
  a = b ∨ (a = NegZero ∧ b = Int 0) ∨ (a = Int 0 ∧ b = NegZero).
Proof.
destruct a as [| | | |z1], b as [| | | |z2]; cbn [cmp]; intros H;
  try discriminate; auto; apply (inj Some), Z.compare_eq in H; subst; auto.
Qed.

Lemma rounded_max_comm a b : max a b = max b a.
Proof.
unfold max. rewrite (cmp_opp a b).
destruct (cmp a b) as [[]|] eqn:E; cbn; try done.
by destruct (cmp_Eq _ _ E) as [->|[[-> ->]|[-> ->]]].
Qed.

Lemma rounded_min_comm a b : min a b = min b a.
Proof.
unfold min. rewrite (cmp_opp a b).
destruct (cmp a b) as [[]|] eqn:E; cbn; try done.
by destruct (cmp_Eq _ _ E) as [->|[[-> ->]|[-> ->]]].
Qed.

Lemma rounded_max_idem a : max a a = a.
Proof.
destruct a as [| | | |z]; try reflexivity.
unfold max. cbn [cmp]. by rewrite Z.compare_refl.
Qed.

Lemma rounded_min_idem a : min a a = a.
Proof.
destruct a as [| | | |z]; try reflexivity.
unfold min. cbn [cmp]. by rewrite Z.compare_refl.
Qed.

Lemma rounded_min_max a b : gt (min a b) (max a b) = false.
Proof.
unfold min, max. destruct (cmp a b) as [[]|] eqn:E.
- destruct a; unfold gt; rewrite ?E; try done; by rewrite (cmp_opp _ b), E.
- unfold gt. by rewrite E.
- unfold gt. by rewrite (cmp_opp a b), E.
- reflexivity.
Qed.

Lemma rounded_sub_self a : sub a a = if is_finite a then Int 0 else NaN.
Proof.
destruct a as [| | | |z]; try reflexivity.
cbn [sub is_finite]. by rewrite Z.sub_diag.
Qed.

End RoundedLaws.

#[global] Instance rounded_doubles : Battle.Doubles Rounded.t :=
  {| Battle.nan := Rounded.NaN;
     Battle.zero := Rounded.Int 0;
     Battle.is_finite := Rounded.is_finite;
     Battle.gt_max_min := rounded_gt_max_min;
     Battle.gt_asym := rounded_gt_asym;
     Battle.max_comm := rounded_max_comm;
     Battle.min_comm := rounded_min_comm;
     Battle.max_idem := rounded_max_idem;
     Battle.min_idem := rounded_min_idem;
     Battle.min_max := rounded_min_max;
     Battle.abs_sub := rounded_abs_sub;
     Battle.sub_self := rounded_sub_self;
     Battle.abs_zero := eq_refl;
     Battle.abs_nan := eq_refl;
     Battle.zero_lt_fifty := eq_refl;
     Battle.nan_lt := λ _, eq_refl |}.

(** * The further properties on concrete runs *)

(** A stand-in for the URL parser on the two targets used here: [//]
    has an empty host and does not parse, [/other] is its own path. *)
Definition demo_pathname (input base : string) : option string :=
  if String.eqb input "//" then None else Some input.

Lemma path_mismatch_404_witness :
  demo_pathname (requestTarget (Some "/other")) (urlBase None) = Some "/other"
  ∧ "/other" ≠ "/mcp"
  ∧ demo_pathname (requestTarget (Some "//")) (urlBase None) = None
  ∧ onRequest None None demo_pathname (Some "/other") "POST" None (after one_session)
    = set_exchanges
        (exchanges (after one_session) ++ [mkExchange "POST" Finished response404])
        (after one_session)
  ∧ onRequest None None demo_pathname (Some "//") "GET" None (after one_session)
    = emit (UncaughtError "request")
        (set_exchanges
           (exchanges (after one_session) ++ [mkExchange "GET" Finished freshResponse])
           (after one_session)).
Proof.
  assert ("/other" ≠ "/mcp") as H by discriminate.
  split_and!; [reflexivity|exact H|reflexivity|..].
  - exact (proj1 (proj1 (path_mismatch_404 demo_parse None None demo_pathname
                           (after one_session) (Some "/other") "POST" None)
                    "/other" eq_refl H)).
  - exact (proj1 (proj2 (path_mismatch_404 demo_parse None None demo_pathname
                           (after one_session) (Some "//") "GET" None)
                    eq_refl)).
Defined.

(** The channel of session [u1] closes: the key leaves the registry. *)
Lemma key_removed_only_by_close_witness :
  reachable demo_parse None None (after one_session)
  ∧ demo_step (after one_session) (EvClosed 0) = Some (after (one_session ++ [EvClosed 0]))
  ∧ "u1" ∈ JSMap.keys (transports (after one_session))
  ∧ ("u1" ∉ JSMap.keys (transports (after (one_session ++ [EvClosed 0]))))
  ∧ ((∃ t, EvClosed 0 = EvClosed t) ∨ EvClosed 0 = EvStop ∨ EvClosed 0 = EvStopResume).
Proof.
  assert (reachable demo_parse None None (after one_session)) as H
      by (apply after_reachable; vm_compute; reflexivity).
  assert (demo_step (after one_session) (EvClosed 0)
          = Some (after (one_session ++ [EvClosed 0]))) as Hs
      by (vm_compute; reflexivity).
  assert ("u1" ∈ JSMap.keys (transports (after one_session))) as Hin
      by (vm_compute; constructor).
  assert ("u1" ∉ JSMap.keys (transports (after (one_session ++ [EvClosed 0])))) as Hout
      by (vm_compute; apply not_elem_of_nil).
  split_and!; [exact H|exact Hs|exact Hin|exact Hout|].
  exact (proj1 (key_removed_only_by_close demo_parse None None
                  (after one_session) (after (one_session ++ [EvClosed 0]))
                  (EvClosed 0) "u1" H Hs Hin Hout)).
Defined.

(** After the channel of [u1] has closed, a GET with that id is
    answered 400 like any unknown id. *)
Lemma closed_session_never_accepted_witness :
  reachable demo_parse None None (after (one_session ++ [EvClosed 0]))
  ∧ heap (after (one_session ++ [EvClosed 0])) !! 0 = Some (mkTransport (Some "u1") true 0)
  ∧ demo_run (after (one_session ++ [EvClosed 0])) [EvHandled 0 true]
    = Some (after (one_session ++ [EvClosed 0; EvHandled 0 true]))
  ∧ JSMap.get "u1" (transports (after (one_session ++ [EvClosed 0; EvHandled 0 true])))
    = None.
Proof.
  assert (reachable demo_parse None None (after (one_session ++ [EvClosed 0]))) as H
      by (apply after_reachable; vm_compute; reflexivity).
  assert (heap (after (one_session ++ [EvClosed 0])) !! 0
          = Some (mkTransport (Some "u1") true 0)) as Ht
      by (vm_compute; reflexivity).
  assert (demo_run (after (one_session ++ [EvClosed 0])) [EvHandled 0 true]
          = Some (after (one_session ++ [EvClosed 0; EvHandled 0 true]))) as Hr
      by (vm_compute; reflexivity).
  split_and!; [exact H|exact Ht|exact Hr|].
  exact (proj1 (closed_session_never_accepted demo_parse None None
                  (after (one_session ++ [EvClosed 0]))
                  (after (one_session ++ [EvClosed 0; EvHandled 0 true]))
                  0 (mkTransport (Some "u1") true 0) "u1" [EvHandled 0 true]
                  H Ht eq_refl eq_refl Hr)).
Defined.

Lemma one_engine_per_transport_witness :
  reachable demo_parse None None (after two_sessions)
  ∧ servers (after two_sessions) = length (heap (after two_sessions)).
Proof.
  assert (reachable demo_parse None None (after two_sessions)) as H
      by (apply after_reachable; vm_compute; reflexivity).
  split; [exact H|].
  exact (proj1 (one_engine_per_transport demo_parse None None (after two_sessions) H)).
Defined.

(** The transport has written the 200 header; [handleRequest] then
    fails: the response of the exchange is still the 200 one. *)
Lemma sent_response_is_kept_witness :
  demo_run (after (one_session ++ [EvWriteHead 0 200%Z])) [EvHandled 0 false]
  = Some (after (one_session ++ [EvWriteHead 0 200%Z; EvHandled 0 false]))
  ∧ exchanges (after (one_session ++ [EvWriteHead 0 200%Z])) !! 0
    = Some (mkExchange "POST" (AwaitHandle 0) (writeHead 200 None freshResponse))
  ∧ ∃ x', exchanges (after (one_session ++ [EvWriteHead 0 200%Z; EvHandled 0 false])) !! 0
          = Some x'
        ∧ res x' = writeHead 200 None freshResponse ∧ method x' = "POST".
Proof.
  assert (demo_run (after (one_session ++ [EvWriteHead 0 200%Z])) [EvHandled 0 false]
          = Some (after (one_session ++ [EvWriteHead 0 200%Z; EvHandled 0 false]))) as Hr
      by (vm_compute; reflexivity).
  assert (exchanges (after (one_session ++ [EvWriteHead 0 200%Z])) !! 0
          = Some (mkExchange "POST" (AwaitHandle 0) (writeHead 200 None freshResponse)))
    as Hx by (vm_compute; reflexivity).
  split_and!; [exact Hr|exact Hx|].
  exact (sent_response_is_kept demo_parse None None
           (after (one_session ++ [EvWriteHead 0 200%Z]))
           (after (one_session ++ [EvWriteHead 0 200%Z; EvHandled 0 false]))
           [EvHandled 0 false] 0
           (mkExchange "POST" (AwaitHandle 0) (writeHead 200 None freshResponse))
           Hr Hx eq_refl).
Defined.

Lemma after_stop_requests_witness :
  reachable demo_parse None None (after two_sessions)
  ∧ JSMap.get "u1" (transports (stop (after two_sessions))) = None.
Proof.
  assert (reachable demo_parse None None (after two_sessions)) as H
      by (apply after_reachable; vm_compute; reflexivity).
  split; [exact H|].
  exact (proj1 (after_stop_requests demo_parse None None (after two_sessions) H) "u1").
Defined.

Lemma second_stop_closes_nothing_witness :
  reachable demo_parse None None (after two_sessions)
  ∧ trace (stop (stop (after two_sessions)))
    = trace (stop (after two_sessions))
      ++ [Log "Shutting down..."; ListenerClose; Resolve "stop"].
Proof.
  assert (reachable demo_parse None None (after two_sessions)) as H
      by (apply after_reachable; vm_compute; reflexivity).
  split; [exact H|].
  rewrite (second_stop_closes_nothing demo_parse None None (after two_sessions) H).
  reflexivity.
Defined.

(** [stop] has begun with session [u1] open: [close] was called on
    its channel, which has an id. *)
Lemma close_called_on_sessions_only_witness :
  reachable demo_parse None None (after (one_session ++ [EvStop]))
  ∧ Close 0 ∈ trace (after (one_session ++ [EvStop]))
  ∧ ∃ tr, heap (after (one_session ++ [EvStop])) !! 0 = Some tr
          ∧ is_Some (sessionId tr).
Proof.
  assert (reachable demo_parse None None (after (one_session ++ [EvStop]))) as H
      by (apply after_reachable; vm_compute; reflexivity).
  assert (Close 0 ∈ trace (after (one_session ++ [EvStop]))) as Hc
      by (vm_compute; do 9 right; left).
  split_and!; [exact H|exact Hc|].
  exact (close_called_on_sessions_only demo_parse None None
           (after (one_session ++ [EvStop])) 0 H Hc).
Defined.

(** The first POST is still reading its body: its channel has been
    handed nothing. *)
Lemma handle_request_discipline_witness :
  reachable demo_parse None None (after reading)
  ∧ exchanges (after reading) !! 0 = Some (mkExchange "POST" (AwaitBody 0 "") freshResponse)
  ∧ heap (after reading) !! 0 = Some (mkTransport None false 0)
  ∧ ∀ r' b', HandleRequest 0 r' b' ∉ trace (after reading).
Proof.
  assert (reachable demo_parse None None (after reading)) as H
      by (apply after_reachable; vm_compute; reflexivity).
  assert (exchanges (after reading) !! 0
          = Some (mkExchange "POST" (AwaitBody 0 "") freshResponse)) as Hx
      by (vm_compute; reflexivity).
  assert (heap (after reading) !! 0 = Some (mkTransport None false 0)) as Ht
      by (vm_compute; reflexivity).
  split_and!; [exact H|exact Hx|exact Ht|].
  exact (proj2 (proj2 (handle_request_discipline demo_parse None None (after reading) H)
                  0 (mkExchange "POST" (AwaitBody 0 "") freshResponse) 0
                  (mkTransport None false 0) Hx
                  (or_intror (ex_intro _ "" eq_refl)) Ht eq_refl)).
Defined.

(** * The further properties on concrete data *)

(** The url PokeAPI gives for [pikachu]. *)
Lemma lastSegment_spec_witness :
  PokeApi.lastSegment "https://pokeapi.co/api/v2/pokemon/25/" = Some "25".
Proof.
  apply (proj2 (lastSegment_spec "https://pokeapi.co/api/v2/pokemon/25/" "25")).
  split; [discriminate|]. split; [reflexivity|].
  exists "https://pokeapi.co/api/v2/pokemon/", 1. split; [reflexivity|].
  right. exists "https://pokeapi.co/api/v2/pokemon". reflexivity.
Defined.

(** Three of the stats PokeAPI returns for [pikachu]. *)
Definition pikachu_stats : list (@PokeApi.StatEntry Z) :=
  [PokeApi.mkStat "hp" 35%Z; PokeApi.mkStat "attack" 55%Z; PokeApi.mkStat "speed" 90%Z].

Definition pikachu_response : @PokeApi.Response Z :=
  PokeApi.mkApiResponse true
    (PokeApi.mkBody 25%Z "pikachu" 4%Z 60%Z ["electric"] ["static"; "lightning-rod"]
       pikachu_stats (Some "front.png") (Some "back.png")).

Lemma totalStats_sums_base_stats_witness :
  ∃ p, PokeApi.fetchPokemon Z.add 0%Z pikachu_response = Some p
     ∧ JSObject.keys (PokeApi.stats p) = ["hp"; "attack"; "speed"]
     ∧ PokeApi.totalStats p = 180%Z.
Proof.
  assert (NoDup (PokeApi.stat_name <$> pikachu_stats)) as Hnd
      by (apply (bool_decide_unpack _); vm_compute; exact I).
  assert (Forall (λ s, PokeApi.stat_name s ≠ "__proto__"
                       ∧ JSObject.array_index (PokeApi.stat_name s) = None)
                 pikachu_stats) as Hf
      by (apply (bool_decide_unpack _); vm_compute; exact I).
  exact (totalStats_sums_base_stats Z.add 0%Z pikachu_response eq_refl Hnd Hf).
Defined.

(** A battle of [pikachu] and [bulbasaur]; the case mapping and the
    rendering of numbers are left trivial, and the scores are doubles
    as [Math.round] returns them. *)
Definition pikachu : @PokeApi.Pokemon Z :=
  PokeApi.mkPokemon 25%Z "pikachu" ["electric"]
    [("hp", 35%Z); ("attack", 55%Z); ("speed", 90%Z)] 180%Z (Some "front.png").

Definition bulbasaur : @PokeApi.Pokemon Z :=
  PokeApi.mkPokemon 1%Z "bulbasaur" ["grass"; "poison"]
    [("hp", 45%Z); ("attack", 49%Z); ("speed", 45%Z)] 139%Z None.

Definition demo_battle (s1 s2 : Rounded.t) : Battle.ToolResult :=
  Battle.handler (λ s, s) (λ _ : option Z, "?") "pikachu" "bulbasaur"
    (Some pikachu) (Some bulbasaur) s1 s2.

(** The scores 300 and 320. *)
Definition demo_report : Battle.BattleReport :=
  Battle.mkReport
    (Battle.fighter (λ s, s) pikachu (Rounded.Int 300))
    (Battle.fighter (λ s, s) bulbasaur (Rounded.Int 320))
    (Battle.mkResult "bulbasaur" "pikachu" (Rounded.Int 320) (Rounded.Int 300)
       (Rounded.Int 20) true "narrow victory").

Definition demo_narrative : string :=
  Battle.narrativePrompt (λ s, s) (λ _ : option Z, "?") pikachu bulbasaur bulbasaur true.

(** The scores 10^22 and 1: the difference is rounded, and the margin
    is 10^22. *)
Definition far_report : Battle.BattleReport :=
  Battle.mkReport
    (Battle.fighter (λ s, s) pikachu (Rounded.Int (10 ^ 22)))
    (Battle.fighter (λ s, s) bulbasaur (Rounded.Int 1))
    (Battle.mkResult "pikachu" "bulbasaur" (Rounded.Int (10 ^ 22)) (Rounded.Int 1)
       (Rounded.Int (10 ^ 22)) false "decisive victory").

Definition far_narrative : string :=
  Battle.narrativePrompt (λ s, s) (λ _ : option Z, "?") pikachu bulbasaur pikachu false.

Lemma battle_result_consistent_witness :
  demo_battle (Rounded.Int (10 ^ 22)) (Rounded.Int 1) = Battle.Report far_report far_narrative
  ∧ Battle.margin (Battle.result far_report)
    = Rounded.abs (Rounded.sub (Rounded.Int (10 ^ 22)) (Rounded.Int 1))
  ∧ Rounded.abs (Rounded.sub (Rounded.Int (10 ^ 22)) (Rounded.Int 1))
    = Rounded.Int (10 ^ 22)
  ∧ (Battle.victoryType (Battle.result far_report) = "decisive victory"
     ↔ Rounded.lt (Battle.margin (Battle.result far_report)) (Rounded.Int 50) = false).
Proof.
  assert (demo_battle (Rounded.Int (10 ^ 22)) (Rounded.Int 1)
          = Battle.Report far_report far_narrative) as H
      by (vm_compute; reflexivity).
  split; [exact H|].
  pose proof (battle_result_consistent (λ s, s) (λ _ : option Z, "?")
                "pikachu" "bulbasaur" (Some pikachu) (Some bulbasaur)
                (Rounded.Int (10 ^ 22)) (Rounded.Int 1) far_report far_narrative H) as E.
  split; [exact (proj1 (proj2 (proj2 E)))|].
  split; [vm_compute; reflexivity|].
  exact (proj1 (proj2 (proj2 (proj2 (proj2 (proj2 E)))))).
Defined.

(** Two scores that are both infinite: the second Pokemon wins, the
    margin is NaN and the victory is called decisive. *)
Lemma battle_tie_goes_to_second_witness :
  ∃ r n, demo_battle Rounded.PosInf Rounded.PosInf = Battle.Report r n
    ∧ Battle.winner (Battle.result r) = "bulbasaur"
    ∧ Battle.margin (Battle.result r) = Rounded.NaN
    ∧ Battle.victoryType (Battle.result r) = "decisive victory".
Proof.
  destruct (battle_tie_goes_to_second (λ s, s) (λ _ : option Z, "?")
              "pikachu" "bulbasaur" pikachu bulbasaur Rounded.PosInf)
    as (r & n & H & Hw & _ & _ & _ & Hm & Hv).
  exists r, n. split_and!; [exact H|exact Hw|exact Hm|exact Hv].
Defined.

(** A score that is NaN: neither score is above the other, and the
    result depends on the order of the two Pokemon. *)
Lemma battle_order_matters_only_at_tie_witness :
  Battle.resultOf (Battle.handler (λ s, s) (λ _ : option Z, "?") "bulbasaur" "pikachu"
                     (Some bulbasaur) (Some pikachu) (Rounded.Int 5) Rounded.NaN)
  ≠ Battle.resultOf (demo_battle Rounded.NaN (Rounded.Int 5)).
Proof.
  intros Heq.
  destruct (proj1 (battle_order_matters_only_at_tie (λ s, s) (λ _ : option Z, "?")
                     "pikachu" "bulbasaur" pikachu bulbasaur
                     Rounded.NaN (Rounded.Int 5)) Heq) as [H|[H|H]];
    discriminate H.
Defined.

Lemma narrative_names_reported_winner_witness :
  demo_battle (Rounded.Int 300) (Rounded.Int 320) = Battle.Report demo_report demo_narrative
  ∧ ∃ before after_,
      demo_narrative
      = before +:+ ("Winner: **" +:+ "bulbasaur" +:+ "** with a " +:+ "narrow" +:+ " victory!")
          +:+ after_.
Proof.
  assert (demo_battle (Rounded.Int 300) (Rounded.Int 320)
          = Battle.Report demo_report demo_narrative) as H
      by (vm_compute; reflexivity).
  split; [exact H|].
  exact (narrative_names_reported_winner (λ s, s) (λ _ : option Z, "?")
           "pikachu" "bulbasaur" (Some pikachu) (Some bulbasaur)
           (Rounded.Int 300) (Rounded.Int 320) demo_report demo_narrative H).
Defined.
